(** * GYDS chain core: a shallow embedding of the node engine and its checked properties

    The development follows the Go packages of the repository:

    - [pow]    reward halving helper (internal/consensus/pow/reward.go)
    - [state]  accounts and the state store (internal/state)
    - [tx]     transactions and the mempool (package tx)
    - [chain]  block application (internal/chain/chain.go)
    - [pos]    validators, the consensus engine and the slashing keeper
    - [crypto] Bech32-style addresses (internal/crypto/address.go)

    Go's [uint64] is a [Z] with the wrap-around written out ([u64]); maps are
    stdpp's [gmap]; slices are lists; a function that mutates its receiver and
    returns an [error] becomes a function to a pair of the new receiver and an
    [option error], because the Go code may have mutated the receiver before
    it returns a non-nil error. *)

From Stdlib Require Import ZArith Lia String Ascii List Bool Sorting.Permutation.
From stdpp Require Import base option list gmap strings fin_maps numbers sorting.

Local Open Scope string_scope.
Local Open Scope list_scope.
Local Open Scope Z_scope.

(** ** Machine integers and outcomes *)

(** Wrap-around of Go's unsigned 64-bit arithmetic. *)
Definition u64 (z : Z) : Z := z mod 2 ^ 64.

(** Wrap-around of Go's signed 64-bit [int] (two's complement). *)
Definition int64 (z : Z) : Z := (z + 2 ^ 63) mod 2 ^ 64 - 2 ^ 63.

(** A Go call either returns or panics (integer division by zero, index out
    of range). *)
Inductive go (A : Type) : Type :=
| Done (a : A)
| Panic (msg : string).
Arguments Done {A} a.
Arguments Panic {A} msg.

(** Go error values that the modelled code returns. *)
Inductive error : Type :=
| ErrAccountNotFound
| ErrInsufficientBalance
| ErrMissingFrom
| ErrMissingTo
| ErrZeroAmount
| ErrMissingAsset
| ErrInvalidAsset
| ErrMissingSignature
| ErrInvalidTimestamp
| ErrInvalidHeight
| ErrInvalidTxRoot
| ErrInvalidParent
| ErrDuplicateBlock
| ErrNoValidators
| ErrAlreadyValidator
| ErrInsufficientStake
| ErrTxTooLarge
| ErrGasPriceTooLow
| ErrDuplicateTx
| ErrMempoolFull
| ErrNonceTooLow
| ErrNew (msg : string).

(** ** Package pow: reward halving *)

Module pow.

Record RewardDistributor : Type := {
  baseReward : Z;
  halving : Z;
  halvingCount : Z;
  minReward : Z;
  minerShare : Z;
  validatorShare : Z;
  totalDistributed : Z;
  lastHeight : Z
}.

(** The loop [for i := 0; i < halvings && reward > d.minReward; i++ { reward /= 2 }];
    the first argument counts the iterations that [i < halvings] still allows. *)
Fixpoint halving_loop (minR : Z) (iterations : nat) (reward : Z) : Z :=
  match iterations with
  | O => reward
  | S n => if reward >? minR then halving_loop minR n (reward / 2) else reward
  end.

(** [height / d.halving] panics in Go when [d.halving] is zero. *)
Definition CalculateBlockReward (d : RewardDistributor) (height : Z) : go Z :=
  if halving d =? 0 then Panic "integer divide by zero"
  else
    let halvings := height / halving d in
    let reward := halving_loop (minReward d) (Z.to_nat halvings) (baseReward d) in
    Done (if reward <? minReward d then minReward d else reward).

(** The closed form of the specification:
    [max(min_reward, base_reward >> (h / halving_blocks))]. *)
Definition reward_closed_form (d : RewardDistributor) (height : Z) : Z :=
  Z.max (minReward d) (Z.shiftr (baseReward d) (height / halving d)).

(** [NextHalving]: [(currentHeight / d.halving + 1) * d.halving]. *)
Definition NextHalving (d : RewardDistributor) (currentHeight : Z) : go Z :=
  if halving d =? 0 then Panic "integer divide by zero"
  else
    let currentHalving := currentHeight / halving d in
    Done (u64 (u64 (currentHalving + 1) * halving d)).

(** [HalvingsOccurred] *)
Definition HalvingsOccurred (d : RewardDistributor) (height : Z) : go Z :=
  if halving d =? 0 then Panic "integer divide by zero"
  else Done (height / halving d).

(** *** The distributor's mutex

    Every method of the distributor takes [d.mu] on entry and releases it on
    return ([defer]). The definitions above are the bodies of the methods,
    run once the lock is granted. [sync.RWMutex] is not reentrant: a goroutine
    that holds the write lock and asks for the lock again waits for a release
    that only its own return would bring. [Holding] is what the calling
    goroutine itself holds of [d.mu] when it makes a call; other goroutines
    give the lock back when their calls return. *)
Inductive Holding : Type := HoldsNothing | HoldsRead | HoldsWrite.

(** What the caller of a method sees. *)
Inductive call (A : Type) : Type :=
| Returns (a : A)
| BlocksForever.
Arguments Returns {A} a.
Arguments BlocksForever {A}.

(** [d.mu.RLock()]: granted unless the goroutine itself holds the write
    lock. [None]: the goroutine waits for itself. *)
Definition RLock (h : Holding) : option Holding :=
  match h with
  | HoldsWrite => None
  | HoldsNothing | HoldsRead => Some HoldsRead
  end.

(** [d.mu.Lock()]: granted to a goroutine that holds nothing of the lock. *)
Definition Lock (h : Holding) : option Holding :=
  match h with
  | HoldsNothing => Some HoldsWrite
  | HoldsRead | HoldsWrite => None
  end.

(** [CalculateBlockReward] with its [d.mu.RLock()]. *)
Definition CalculateBlockReward_locked (h : Holding) (d : RewardDistributor) (height : Z)
  : call (go Z) :=
  match RLock h with
  | None => BlocksForever
  | Some _ => Returns (CalculateBlockReward d height)
  end.

Record BlockReward : Type := {
  RewardHeight : Z;
  RewardBlockReward : Z;
  Fees : Z;
  TotalReward : Z;
  MinerReward : Z;
  ValidatorReward : Z;
  RewardTimestamp : Z
}.

(** [DistributeReward] at time [now]: [d.mu.Lock()], then the call of
    [d.CalculateBlockReward(height)] with the write lock held. *)
Definition DistributeReward (h : Holding) (d : RewardDistributor) (height fees now : Z)
  : call (go (RewardDistributor * BlockReward)) :=
  match Lock h with
  | None => BlocksForever
  | Some h1 =>
      match CalculateBlockReward_locked h1 d height with
      | BlocksForever => BlocksForever
      | Returns (Panic msg) => Returns (Panic msg)
      | Returns (Done blockReward) =>
          let totalReward := u64 (blockReward + fees) in
          let minerReward := u64 (totalReward * minerShare d) / 10000 in
          let validatorReward := u64 (totalReward - minerReward) in
          Returns (Done
            ({| baseReward := baseReward d; halving := halving d;
                halvingCount := halvingCount d; minReward := minReward d;
                minerShare := minerShare d; validatorShare := validatorShare d;
                totalDistributed := u64 (totalDistributed d + totalReward);
                lastHeight := height |},
             {| RewardHeight := height; RewardBlockReward := blockReward; Fees := fees;
                TotalReward := totalReward; MinerReward := minerReward;
                ValidatorReward := validatorReward; RewardTimestamp := now |}))
      end
  end.

End pow.

(** ** Package state: accounts and the state store *)

Module state.

Record Account : Type := {
  Address : string;
  Nonce : Z;
  Balances : gmap string Z;
  Staked : Z;
  Delegated : gmap string Z;
  Code : list Z;
  Storage : gmap string (list Z);
  CreatedAt : Z;
  UpdatedAt : Z
}.

Definition NewAccount (address : string) : Account :=
  {| Address := address; Nonce := 0; Balances := ∅; Staked := 0;
     Delegated := ∅; Code := []; Storage := ∅; CreatedAt := 0; UpdatedAt := 0 |}.

(** Reading a missing key of a Go map gives the zero value. *)
Definition balance_of (balances : gmap string Z) (asset : string) : Z :=
  default 0 (balances !! asset).

Definition GetBalance (a : Account) (asset : string) : Z :=
  balance_of (Balances a) asset.

Definition with_balances (a : Account) (b : gmap string Z) : Account :=
  {| Address := Address a; Nonce := Nonce a; Balances := b; Staked := Staked a;
     Delegated := Delegated a; Code := Code a; Storage := Storage a;
     CreatedAt := CreatedAt a; UpdatedAt := UpdatedAt a |}.

Definition SetBalance (a : Account) (asset : string) (amount : Z) : Account :=
  with_balances a (<[asset := amount]> (Balances a)).

Definition IncrementNonce (a : Account) : Account :=
  {| Address := Address a; Nonce := u64 (Nonce a + 1); Balances := Balances a;
     Staked := Staked a; Delegated := Delegated a; Code := Code a;
     Storage := Storage a; CreatedAt := CreatedAt a; UpdatedAt := UpdatedAt a |}.

(** [Copy] builds a fresh account with the same content; the model has value
    semantics, so the copy is the record rebuilt field by field. *)
Definition Copy (a : Account) : Account :=
  {| Address := Address a; Nonce := Nonce a; Balances := Balances a;
     Staked := Staked a; Delegated := Delegated a; Code := Code a;
     Storage := Storage a; CreatedAt := CreatedAt a; UpdatedAt := UpdatedAt a |}.

Inductive AssetType : Type := AssetTypeFungible | AssetTypeNFT | AssetTypeStablecoin.

Record Asset : Type := {
  ID : string;
  Type_ : AssetType;
  Name : string;
  Symbol : string;
  Decimals : Z;
  TotalSupply : Z;
  MaxSupply : Z;
  Owner : string;
  Mintable : bool;
  Burnable : bool;
  Pausable : bool;
  Paused : bool;
  AssetCreatedAt : Z;
  AssetUpdatedAt : Z
}.

Record StateDB : Type := {
  accounts : gmap string Account;
  assets : gmap string Asset;
  dirty : gmap string bool;
  root : string
}.

Definition NewStateDB : StateDB :=
  {| accounts := ∅; assets := ∅; dirty := ∅; root := "" |}.

Definition GetAccount (s : StateDB) (address : string) : option Account :=
  Copy <$> (accounts s !! address).

Definition SetAccount (s : StateDB) (address : string) (account : Account) : StateDB :=
  {| accounts := <[address := Copy account]> (accounts s);
     assets := assets s;
     dirty := <[address := true]> (dirty s);
     root := root s |}.

Definition with_accounts (s : StateDB) (accs : gmap string Account) : StateDB :=
  {| accounts := accs; assets := assets s; dirty := dirty s; root := root s |}.

Definition mark_dirty (s : StateDB) (address : string) : StateDB :=
  {| accounts := accounts s; assets := assets s;
     dirty := <[address := true]> (dirty s); root := root s |}.

(** [acc.Balances[asset] = f(acc.Balances[asset])] on the account stored under
    [address]. [sender] and [receiver] of [Transfer] are pointers into
    [s.accounts], so each update goes through the store; when [from] and [to]
    are the same address both updates hit the same account. *)
Definition update_balance (s : StateDB) (address asset : string) (f : Z → Z) : StateDB :=
  match accounts s !! address with
  | Some acc =>
      with_accounts s
        (<[address := SetBalance acc asset (f (GetBalance acc asset))]> (accounts s))
  | None => s
  end.

(** [StateDB.Transfer]. The receiver is created and stored before the
    balance check, as in the source. *)
Definition Transfer (s : StateDB) (from to asset : string) (amount : Z)
  : StateDB * option error :=
  match accounts s !! from with
  | None => (s, Some ErrAccountNotFound)
  | Some sender =>
      let s1 :=
        match accounts s !! to with
        | Some _ => s
        | None => with_accounts s (<[to := NewAccount to]> (accounts s))
        end in
      if GetBalance sender asset <? amount then (s1, Some ErrInsufficientBalance)
      else
        let s2 := update_balance s1 from asset (λ b, u64 (b - amount)) in
        let s3 := update_balance s2 to asset (λ b, u64 (b + amount)) in
        (mark_dirty (mark_dirty s3 from) to, None)
  end.

(** *** Further methods of [Account] *)

Definition with_staked (a : Account) (staked : Z) : Account :=
  {| Address := Address a; Nonce := Nonce a; Balances := Balances a; Staked := staked;
     Delegated := Delegated a; Code := Code a; Storage := Storage a;
     CreatedAt := CreatedAt a; UpdatedAt := UpdatedAt a |}.

Definition with_delegated (a : Account) (d : gmap string Z) : Account :=
  {| Address := Address a; Nonce := Nonce a; Balances := Balances a; Staked := Staked a;
     Delegated := d; Code := Code a; Storage := Storage a;
     CreatedAt := CreatedAt a; UpdatedAt := UpdatedAt a |}.

(** [Stake]: from the GYDS balance into [Staked]. *)
Definition Stake (a : Account) (amount : Z) : Account * bool :=
  if GetBalance a "GYDS" <? amount then (a, false)
  else
    let a1 := SetBalance a "GYDS" (u64 (GetBalance a "GYDS" - amount)) in
    (with_staked a1 (u64 (Staked a1 + amount)), true).

(** [Unstake]: from [Staked] back into the GYDS balance. *)
Definition Unstake (a : Account) (amount : Z) : Account * bool :=
  if Staked a <? amount then (a, false)
  else
    let a1 := with_staked a (u64 (Staked a - amount)) in
    (SetBalance a1 "GYDS" (u64 (GetBalance a1 "GYDS" + amount)), true).

(** [Account.Delegate]: from the GYDS balance into [Delegated[validator]]. *)
Definition Delegate (a : Account) (validator : string) (amount : Z) : Account * bool :=
  if GetBalance a "GYDS" <? amount then (a, false)
  else
    let a1 := SetBalance a "GYDS" (u64 (GetBalance a "GYDS" - amount)) in
    (with_delegated a1
       (<[validator := u64 (balance_of (Delegated a1) validator + amount)]> (Delegated a1)),
     true).

(** [Account.Undelegate]; the entry stays in the map when it reaches zero. *)
Definition Undelegate (a : Account) (validator : string) (amount : Z) : Account * bool :=
  if balance_of (Delegated a) validator <? amount then (a, false)
  else
    let a1 :=
      with_delegated a
        (<[validator := u64 (balance_of (Delegated a) validator - amount)]> (Delegated a)) in
    (SetBalance a1 "GYDS" (u64 (GetBalance a1 "GYDS" + amount)), true).

(** *** Further methods of [StateDB] *)

Definition DeleteAccount (s : StateDB) (address : string) : StateDB :=
  {| accounts := delete address (accounts s);
     assets := assets s;
     dirty := <[address := true]> (dirty s);
     root := root s |}.

(** [StateDB.GetBalance] *)
Definition StateDB_GetBalance (s : StateDB) (address asset : string) : Z :=
  match GetAccount s address with
  | None => 0
  | Some account => GetBalance account asset
  end.

(** One round of the loop of [StateDB.TotalSupply]: the balance, and for GYDS
    the staked amount and every delegated amount, each added in [uint64]. *)
Definition add_account_supply (asset : string) (account : Account) (total : Z) : Z :=
  let total1 := u64 (total + balance_of (Balances account) asset) in
  if (asset =? "GYDS")%string
  then map_fold (λ _ delegated t, u64 (t + delegated))
         (u64 (total1 + Staked account)) (Delegated account)
  else total1.

(** [StateDB.TotalSupply]. Go ranges over the maps in an unspecified order;
    the rounds only add, so the order does not show in the result. *)
Definition StateDB_TotalSupply (s : StateDB) (asset : string) : Z :=
  map_fold (λ _ account total, add_account_supply asset account total) 0 (accounts s).

End state.

(** ** Package tx: transactions and the mempool *)

Module tx.

Definition TxTypeTransfer : string := "transfer".
Definition TxTypeStake : string := "stake".
Definition TxTypeUnstake : string := "unstake".
Definition TxTypeMint : string := "mint".
Definition TxTypeBurn : string := "burn".
Definition TxTypeCreateAsset : string := "create_asset".
Definition TxTypeUpdateOracle : string := "update_oracle".

Record Transaction : Type := {
  Type_ : string;
  From : string;
  To : string;
  Amount : Z;
  Asset : string;
  Fee : Z;
  Nonce : Z;
  Timestamp : Z;
  Data : list Z;
  Signature : list Z;
  PubKey : list Z
}.

(** [Transaction.Verify]: field checks only; the signature check is a
    placeholder comment in the source. [None] is Go's [nil] error. *)
Definition Verify (t : Transaction) : option error :=
  if (From t =? "")%string then Some ErrMissingFrom
  else if negb (Type_ t =? TxTypeBurn)%string && (To t =? "")%string then Some ErrMissingTo
  else if (Amount t =? 0) && (Type_ t =? TxTypeTransfer)%string then Some ErrZeroAmount
  else if (Asset t =? "")%string then Some ErrMissingAsset
  else if negb (Asset t =? "GYDS")%string && negb (Asset t =? "GYD")%string
       then Some ErrInvalidAsset
  else if (length (Signature t) =? 0)%nat then Some ErrMissingSignature
  else None.

Definition with_type (t : Transaction) (ty : string) : Transaction :=
  {| Type_ := ty; From := From t; To := To t; Amount := Amount t; Asset := Asset t;
     Fee := Fee t; Nonce := Nonce t; Timestamp := Timestamp t; Data := Data t;
     Signature := Signature t; PubKey := PubKey t |}.

Record MempoolConfig : Type := {
  MaxSize : Z;
  MaxTxSize : Z;
  MaxTxAge : Z;
  MinGasPrice : Z;
  ReapInterval : Z
}.

Record MempoolTx : Type := {
  Tx : Transaction;
  Hash : string;
  AddedAt : Z;
  GasPrice : Z;
  Priority : Z
}.

(** [TxQueue] is a slice of entries used as a binary heap. *)
Abbreviation TxQueue := (list MempoolTx).

(** [TxQueue.Less]: higher gas price = higher priority; nothing else is
    compared. The heap code never indexes out of range, so the default
    branches stand for Go's index panic and are not reached. *)
Definition Less (q : TxQueue) (i j : nat) : bool :=
  match q !! i, q !! j with
  | Some a, Some b => GasPrice a >? GasPrice b
  | _, _ => false
  end.

Definition Swap (q : TxQueue) (i j : nat) : TxQueue :=
  match q !! i, q !! j with
  | Some a, Some b => <[i := b]> (<[j := a]> q)
  | _, _ => q
  end.

(** Go's container/heap, specialised to [TxQueue].

    [up]: [for { i := (j - 1) / 2; if i == j || !h.Less(j, i) { break };
    h.Swap(i, j); j = i }]. Go's [(0 - 1) / 2] is [0], as is the truncated
    subtraction on [nat]. The index strictly decreases, so [S j] rounds of
    fuel are never used up. *)
Fixpoint up (fuel : nat) (q : TxQueue) (j : nat) : TxQueue :=
  match fuel with
  | O => q
  | S fuel' =>
      let i := ((j - 1) / 2)%nat in
      if (i =? j)%nat || negb (Less q j i) then q
      else up fuel' (Swap q i j) i
  end.

(** [down(h, i0, n)]: sift the entry at [i] towards the leaves of the first
    [n] slots. The index strictly increases below [n]. *)
Fixpoint down (fuel : nat) (q : TxQueue) (i n : nat) : TxQueue :=
  match fuel with
  | O => q
  | S fuel' =>
      let j1 := (2 * i + 1)%nat in
      if (n <=? j1)%nat then q
      else
        let j := if (j1 + 1 <? n)%nat && Less q (j1 + 1) j1 then (j1 + 1)%nat else j1 in
        if negb (Less q j i) then q
        else down fuel' (Swap q i j) j n
  end.

(** [heap.Push]: append, then [up(h, h.Len()-1)]. *)
Definition heap_Push (q : TxQueue) (x : MempoolTx) : TxQueue :=
  let q1 := q ++ [x] in
  up (length q1) q1 (length q1 - 1).

(** [heap.Pop]: [n := h.Len() - 1; h.Swap(0, n); down(h, 0, n); return h.Pop()],
    where [TxQueue.Pop] cuts off and returns the last slot. [None] stands for
    the index panic on an empty queue. *)
Definition heap_Pop (q : TxQueue) : option (MempoolTx * TxQueue) :=
  let n := (length q - 1)%nat in
  let q1 := down n (Swap q 0 n) 0 n in
  match q1 !! n with
  | Some item => Some (item, take n q1)
  | None => None
  end.

(** [heap.Init]: [for i := n/2 - 1; i >= 0; i-- { down(h, i, n) }]. *)
Fixpoint init_loop (k : nat) (q : TxQueue) (n : nat) : TxQueue :=
  match k with
  | O => q
  | S k' => init_loop k' (down n q k' n) n
  end.

Definition heap_Init (q : TxQueue) : TxQueue :=
  init_loop (length q / 2) q (length q).

(** The heap order of container/heap for this [Less]: no entry has a higher
    gas price than its parent; slot [i] is the parent of slots [2i+1] and
    [2i+2]. [heap_upto n] speaks of the first [n] slots only. *)
Definition child_of (i c : nat) : Prop := c = (2 * i + 1)%nat ∨ c = (2 * i + 2)%nat.

Definition heap_upto (n : nat) (q : TxQueue) : Prop :=
  ∀ i c a b, (c < n)%nat → child_of i c → q !! i = Some a → q !! c = Some b →
             GasPrice b <= GasPrice a.

Definition heap_ordered (q : TxQueue) : Prop := heap_upto (length q) q.

(** The same order as a check: every slot after the first is compared with
    its parent [(c - 1) / 2]. *)
Definition gas_at (q : TxQueue) (k : nat) : Z := default 0 (GasPrice <$> q !! k).

Definition is_heap (q : TxQueue) : bool :=
  forallb (λ c, gas_at q c <=? gas_at q ((c - 1) / 2)) (seq 1 (length q - 1)).

(** Gas price descending. *)
Definition gas_desc (a b : MempoolTx) : Prop := GasPrice b <= GasPrice a.

Record Mempool : Type := {
  config : MempoolConfig;
  txs : gmap string MempoolTx;
  queue : TxQueue;
  nonces : gmap string Z
}.

Definition with_queue (mp : Mempool) (q : TxQueue) : Mempool :=
  {| config := config mp; txs := txs mp; queue := q; nonces := nonces mp |}.

Definition with_txs (mp : Mempool) (m : gmap string MempoolTx) : Mempool :=
  {| config := config mp; txs := m; queue := queue mp; nonces := nonces mp |}.

Definition with_nonces (mp : Mempool) (m : gmap string Z) : Mempool :=
  {| config := config mp; txs := txs mp; queue := queue mp; nonces := m |}.

Definition NewMempool (cfg : MempoolConfig) : Mempool :=
  {| config := cfg; txs := ∅; queue := heap_Init []; nonces := ∅ |}.

(** [rebuildQueue]: a fresh queue, then one [heap.Push] per entry of [mp.txs].
    Go ranges over the map in an unspecified order; the model pushes in the
    order of [map_to_list]. *)
Definition rebuildQueue (mp : Mempool) : Mempool :=
  with_queue mp
    (fold_left (λ q kv, heap_Push q kv.2) (map_to_list (txs mp)) (heap_Init [])).

(** [evictLowest]: looks at the LAST slot of the heap slice. *)
Definition evictLowest (mp : Mempool) (minGasPrice : Z) : Mempool * bool :=
  if (length (queue mp) =? 0)%nat then (mp, false)
  else
    match queue mp !! (length (queue mp) - 1)%nat with
    | None => (mp, false)
    | Some lowest =>
        if GasPrice lowest >=? minGasPrice then (mp, false)
        else (rebuildQueue (with_txs mp (delete (Hash lowest) (txs mp))), true)
    end.

(** [RemoveTx] deletes from [mp.txs] only; the queue is not touched. *)
Definition RemoveTx (mp : Mempool) (hash : string) : Mempool :=
  with_txs mp (delete hash (txs mp)).

Definition GetTx (mp : Mempool) (hash : string) : option Transaction :=
  Tx <$> txs mp !! hash.

Definition HasTx (mp : Mempool) (hash : string) : bool :=
  bool_decide (is_Some (txs mp !! hash)).

(** [Mempool.Size] *)
Definition Mempool_Size (mp : Mempool) : Z := Z.of_nat (size (txs mp)).

(** [cleanup] at time [now]: every entry older than [MaxTxAge] is deleted,
    then the queue is rebuilt. *)
Definition cleanup (mp : Mempool) (now : Z) : Mempool :=
  rebuildQueue
    (with_txs mp
       (filter (λ kv : string * MempoolTx, ¬ (now - AddedAt kv.2 > MaxTxAge (config mp)))
          (txs mp))).

Section Encoding.

(** [Transaction.Size] is the length of the JSON encoding and
    [Transaction.HashHex] the hex SHA-256 of it (signature cleared). Both come
    from Go's standard library and are parameters here. A JSON object is never
    empty, so [Size] is positive and the division below does not panic. *)
Variable Size : Transaction → Z.
Variable HashHex : Transaction → string.

(** [Mempool.AddTx] at time [now]. *)
Definition AddTx (mp : Mempool) (t : Transaction) (now : Z) : Mempool * option error :=
  match Verify t with
  | Some err => (mp, Some err)
  | None =>
      if Size t >? MaxTxSize (config mp) then (mp, Some ErrTxTooLarge)
      else
        let gasPrice := Fee t / Size t in
        if gasPrice <? MinGasPrice (config mp) then (mp, Some ErrGasPriceTooLow)
        else
          let hash := HashHex t in
          match txs mp !! hash with
          | Some _ => (mp, Some ErrDuplicateTx)
          | None =>
              let full := Z.of_nat (size (txs mp)) >=? MaxSize (config mp) in
              let '(mp1, accepted) :=
                if full then evictLowest mp gasPrice else (mp, true) in
              if negb accepted then (mp1, Some ErrMempoolFull)
              else
                let currentNonce := default 0 (nonces mp1 !! From t) in
                if Nonce t <? currentNonce then (mp1, Some ErrNonceTooLow)
                else
                  let mtx := {| Tx := t; Hash := hash; AddedAt := now;
                                GasPrice := gasPrice; Priority := int64 gasPrice |} in
                  let mp2 := with_queue (with_txs mp1 (<[hash := mtx]> (txs mp1)))
                               (heap_Push (queue mp1) mtx) in
                  (with_nonces mp2 (<[From t := u64 (Nonce t + 1)]> (nonces mp2)), None)
          end
  end.

(** The first loop of [ReapMaxTxs]: pop while [len(txs) < maxTxs] and the queue
    is not empty; an expired entry is deleted from [mp.txs] and skipped. Each
    round pops one entry, so the length of the queue bounds the rounds. The
    accumulator keeps the popped entries whose [Tx] the source appends. *)
Fixpoint reap_loop (fuel : nat) (now maxTxs : Z) (mp : Mempool) (acc : list MempoolTx)
  : Mempool * list MempoolTx :=
  match fuel with
  | O => (mp, acc)
  | S fuel' =>
      if (Z.of_nat (length acc) <? maxTxs) && (0 <? length (queue mp))%nat then
        match heap_Pop (queue mp) with
        | Some (mtx, q') =>
            if now - AddedAt mtx >? MaxTxAge (config mp)
            then reap_loop fuel' now maxTxs
                   (with_txs (with_queue mp q') (delete (Hash mtx) (txs mp))) acc
            else reap_loop fuel' now maxTxs (with_queue mp q') (acc ++ [mtx])
        | None => (mp, acc)
        end
      else (mp, acc)
  end.

(** The second loop: every returned transaction still in [mp.txs] is pushed
    back. *)
Definition readd (mp : Mempool) (reaped : list Transaction) : Mempool :=
  fold_left
    (λ m t, match txs m !! HashHex t with
            | Some mtx => with_queue m (heap_Push (queue m) mtx)
            | None => m
            end)
    reaped mp.

(** The heap entries whose transactions [ReapMaxTxs] returns, in order. *)
Definition reaped_entries (mp : Mempool) (maxTxs now : Z) : list MempoolTx :=
  let maxTxs' := if maxTxs <=? 0 then MaxSize (config mp) else maxTxs in
  (reap_loop (length (queue mp)) now maxTxs' mp []).2.

Definition ReapMaxTxs (mp : Mempool) (maxTxs now : Z) : Mempool * list Transaction :=
  let maxTxs' := if maxTxs <=? 0 then MaxSize (config mp) else maxTxs in
  let '(mp1, popped) := reap_loop (length (queue mp)) now maxTxs' mp [] in
  let reaped := map Tx popped in
  (readd mp1 reaped, reaped).

(** [Update]: the confirmed transactions are deleted from [mp.txs], then the
    queue is rebuilt. *)
Definition Update (mp : Mempool) (confirmedTxs : list Transaction) : Mempool :=
  rebuildQueue
    (with_txs mp (fold_left (λ m t, delete (HashHex t) m) confirmedTxs (txs mp))).

End Encoding.

End tx.

(** ** Package chain: blocks and block application *)

Module chain.

Record Header : Type := {
  Version : Z;
  Height : Z;
  Timestamp : Z;
  ParentHash : string;
  TxRoot : string;
  StateRoot : string;
  ReceiptRoot : string;
  ValidatorSet : string;
  Difficulty : Z;
  Nonce : Z;
  ExtraData : list Z;
  GasLimit : Z;
  GasUsed : Z
}.

Record Block : Type := {
  Header_ : Header;
  Transactions : list tx.Transaction;
  Validator : string;
  Signature : list Z
}.

Record ChainConfig : Type := {
  ChainID : string;
  NetworkID : Z;
  BlockTime : Z;
  MaxBlockSize : Z;
  MaxTxPerBlock : Z
}.

Record Chain : Type := {
  blocks : gmap string Block;
  heights : gmap Z string;
  latestHash : string;
  latestHeight : Z;
  genesis : option Block;
  stateDB : state.StateDB;
  config : ChainConfig
}.

Definition NewChain (cfg : ChainConfig) (s : state.StateDB) : Chain :=
  {| blocks := ∅; heights := ∅; latestHash := ""; latestHeight := 0;
     genesis := None; stateDB := s; config := cfg |}.

Definition with_stateDB (c : Chain) (s : state.StateDB) : Chain :=
  {| blocks := blocks c; heights := heights c; latestHash := latestHash c;
     latestHeight := latestHeight c; genesis := genesis c; stateDB := s;
     config := config c |}.

(** [Header.Validate] at wall-clock time [now] (seconds). *)
Definition Validate (h : Header) (now : Z) : option error :=
  if Timestamp h >? now + 15 then Some ErrInvalidTimestamp
  else if (Height h >? 0) && (ParentHash h =? "")%string then Some ErrInvalidHeight
  else None.

(** [Chain.processTransaction]. [GetAccount] hands out copies, so [sender]
    and [receiver] are two separate accounts even when [From] and [To] name
    the same address; each is written back with [SetAccount], the receiver
    last. The transaction's [Type] is never read. *)
Definition processTransaction (c : Chain) (t : tx.Transaction) : Chain * option error :=
  match state.GetAccount (stateDB c) (tx.From t) with
  | None => (c, Some (ErrNew "sender account not found"))
  | Some sender =>
      let balance := state.GetBalance sender (tx.Asset t) in
      if balance <? u64 (tx.Amount t + tx.Fee t)
      then (c, Some (ErrNew "insufficient balance"))
      else
        let receiver :=
          match state.GetAccount (stateDB c) (tx.To t) with
          | Some r => r
          | None => state.NewAccount (tx.To t)
          end in
        let sender1 :=
          state.SetBalance sender (tx.Asset t)
            (u64 (u64 (balance - tx.Amount t) - tx.Fee t)) in
        let receiver1 :=
          state.SetBalance receiver (tx.Asset t)
            (u64 (state.GetBalance receiver (tx.Asset t) + tx.Amount t)) in
        let sender2 := state.IncrementNonce sender1 in
        let s1 := state.SetAccount (stateDB c) (tx.From t) sender2 in
        let s2 := state.SetAccount s1 (tx.To t) receiver1 in
        (with_stateDB c s2, None)
  end.

(** The loop of [AddBlock] over the block's transactions: the first error
    returns at once, with the effects of the earlier transactions in place. *)
Fixpoint process_all (c : Chain) (l : list tx.Transaction) : Chain * option error :=
  match l with
  | [] => (c, None)
  | t :: rest =>
      match processTransaction c t with
      | (c1, Some err) => (c1, Some err)
      | (c1, None) => process_all c1 rest
      end
  end.

(** [Header.IsGenesis] *)
Definition IsGenesis (h : Header) : bool :=
  (Height h =? 0) && (ParentHash h =? "")%string.

(** [GetBlock]; the pair is the block and the error that Go returns. *)
Definition GetBlock (c : Chain) (hash : string) : option Block * option error :=
  match blocks c !! hash with
  | None => (None, Some (ErrNew "block not found"))
  | Some block => (Some block, None)
  end.

(** [GetBlockByHeight] returns [c.blocks[hash]] for the hash stored under the
    height. *)
Definition GetBlockByHeight (c : Chain) (height : Z) : option Block * option error :=
  match heights c !! height with
  | None => (None, Some (ErrNew "block not found"))
  | Some hash => (blocks c !! hash, None)
  end.

Definition LatestBlock (c : Chain) : option Block * option error :=
  if (latestHash c =? "")%string then (None, Some (ErrNew "chain not initialized"))
  else (blocks c !! latestHash c, None).

Record BlockReward : Type := {
  RewardValidator : string;
  GYDSReward : Z;
  GYDReward : Z;
  TotalFees : Z;
  MinerReward : Z;
  BlockHeight : Z
}.

(** [Block.CalculateReward]: the fees are added up in [uint64]; 80% of them
    go to the validator on top of the base reward, the rest to the miners. *)
Definition CalculateReward (b : Block) : BlockReward :=
  let baseReward := 1000000000 in
  let totalFees := fold_left (λ total t, u64 (total + tx.Fee t)) (Transactions b) 0 in
  let validatorReward := u64 (totalFees * 80) / 100 in
  let minerReward := u64 (totalFees - validatorReward) in
  {| RewardValidator := Validator b;
     GYDSReward := u64 (baseReward + validatorReward);
     GYDReward := 0;
     TotalFees := totalFees;
     MinerReward := minerReward;
     BlockHeight := Height (Header_ b) |}.

(** The part of [GenesisConfig] that [ToBlock] and [InitGenesis] read. *)
Record AllocConfig : Type := {
  AllocAddress : string;
  GYDSBalance : Z;
  GYDBalance : Z
}.

Record GenesisConfig : Type := {
  GenesisChainID : string;
  GenesisTimestamp : Z;
  Alloc : list AllocConfig
}.

Definition ToBlock (g : GenesisConfig) : Block :=
  {| Header_ :=
       {| Version := 1; Height := 0; Timestamp := GenesisTimestamp g; ParentHash := "";
          TxRoot := "0x0000000000000000000000000000000000000000000000000000000000000000";
          StateRoot := "0x0000000000000000000000000000000000000000000000000000000000000000";
          ReceiptRoot := ""; ValidatorSet := ""; Difficulty := 1; Nonce := 0;
          ExtraData := []; GasLimit := 10000000; GasUsed := 0 |};
     Transactions := [];
     Validator := "genesis";
     Signature := [] |}.

(** The loop of [InitGenesis] over the allocations: a fresh account with the
    two balances is stored under the address, in place of what was there. *)
Definition alloc_account (s : state.StateDB) (alloc : AllocConfig) : state.StateDB :=
  let account := state.NewAccount (AllocAddress alloc) in
  let account1 := state.SetBalance account "GYDS" (GYDSBalance alloc) in
  let account2 := state.SetBalance account1 "GYD" (GYDBalance alloc) in
  state.SetAccount s (AllocAddress alloc) account2.

Section Hashing.

(** SHA-256, JSON and hex encoding come from Go's standard library:
    [TxHash] is [Transaction.Hash], [Sum256] is [sha256.Sum256],
    [EncodeToString] is [hex.EncodeToString] and [BlockHash] is [Block.Hash]
    (the hex SHA-256 of the header's JSON encoding). *)
Variable TxHash : tx.Transaction → list Z.
Variable Sum256 : list Z → list Z.
Variable EncodeToString : list Z → string.
Variable BlockHash : Block → string.

Fixpoint pair_level (hashes : list (list Z)) : list (list Z) :=
  match hashes with
  | a :: b :: rest => Sum256 (a ++ b) :: pair_level rest
  | _ => []
  end.

(** [merkleRoot]; every level is shorter than the one before, so the length
    of the list bounds the recursion. *)
Fixpoint merkleRoot_rec (fuel : nat) (hashes : list (list Z)) : list Z :=
  match hashes with
  | [] => replicate 32 0
  | [h] => h
  | _ =>
      match fuel with
      | O => []
      | S fuel' =>
          let level :=
            if Nat.even (length hashes) then hashes
            else hashes ++ [List.last hashes []] in
          merkleRoot_rec fuel' (pair_level level)
      end
  end.

Definition merkleRoot (hashes : list (list Z)) : list Z :=
  merkleRoot_rec (length hashes) hashes.

Definition CalculateTxRoot (b : Block) : string :=
  match Transactions b with
  | [] => "0x0000000000000000000000000000000000000000000000000000000000000000"
  | _ => EncodeToString (merkleRoot (map TxHash (Transactions b)))
  end.

Fixpoint verify_all (l : list tx.Transaction) : option error :=
  match l with
  | [] => None
  | t :: rest =>
      match tx.Verify t with
      | Some err => Some err
      | None => verify_all rest
      end
  end.

(** [Block.Verify] *)
Definition Verify (b : Block) (now : Z) : option error :=
  match Validate (Header_ b) now with
  | Some err => Some err
  | None =>
      match verify_all (Transactions b) with
      | Some err => Some err
      | None =>
          if negb (CalculateTxRoot b =? TxRoot (Header_ b))%string
          then Some ErrInvalidTxRoot else None
      end
  end.

(** [Chain.AddBlock] at wall-clock time [now]. *)
Definition AddBlock (c : Chain) (block : Block) (now : Z) : Chain * option error :=
  match Verify block now with
  | Some err => (c, Some err)
  | None =>
      if (Height (Header_ block) >? 0)
         && negb (bool_decide (is_Some (blocks c !! ParentHash (Header_ block))))
      then (c, Some ErrInvalidParent)
      else
        let hash := BlockHash block in
        if bool_decide (is_Some (blocks c !! hash)) then (c, Some ErrDuplicateBlock)
        else
          match process_all c (Transactions block) with
          | (c1, Some err) => (c1, Some err)
          | (c1, None) =>
              let higher := Height (Header_ block) >? latestHeight c1 in
              ({| blocks := <[hash := block]> (blocks c1);
                  heights := <[Height (Header_ block) := hash]> (heights c1);
                  latestHash := if higher then hash else latestHash c1;
                  latestHeight := if higher then Height (Header_ block) else latestHeight c1;
                  genesis := genesis c1;
                  stateDB := stateDB c1;
                  config := config c1 |}, None)
          end
  end.

(** [Chain.InitGenesis] *)
Definition InitGenesis (c : Chain) (g : GenesisConfig) : Chain :=
  let block := ToBlock g in
  let hash := BlockHash block in
  {| blocks := <[hash := block]> (blocks c);
     heights := <[0 := hash]> (heights c);
     latestHash := hash;
     latestHeight := 0;
     genesis := Some block;
     stateDB := fold_left alloc_account (Alloc g) (stateDB c);
     config := config c |}.

End Hashing.

End chain.

(** ** Package pos: validators, the consensus engine, the slashing keeper *)

Module pos.

Inductive ValidatorStatus : Type :=
| StatusInactive
| StatusActive
| StatusJailed
| StatusUnbonding.

Record SlashEvent : Type := {
  Height : Z;
  Reason : string;
  Amount : Z;
  Timestamp : Z
}.

(** The [Uptime] statistic (a float64) and the display metadata are left out:
    no modelled operation reads them. *)
Record Validator : Type := {
  Address : string;
  PubKey : string;
  SelfStake : Z;
  TotalStake : Z;
  Delegations : gmap string Z;
  Commission : Z;
  Rewards : Z;
  Status : ValidatorStatus;
  Active : bool;
  JailedUntil : Z;
  UnbondingEnd : Z;
  SlashEvents : list SlashEvent;
  CreatedAt : Z;
  UpdatedAt : Z;
  BlocksProduced : Z;
  BlocksMissed : Z
}.

Definition NewValidator (address pubKey : string) (stake now : Z) : Validator :=
  {| Address := address; PubKey := pubKey; SelfStake := stake; TotalStake := stake;
     Delegations := ∅; Commission := 500; Rewards := 0; Status := StatusActive;
     Active := true; JailedUntil := 0; UnbondingEnd := 0; SlashEvents := [];
     CreatedAt := now; UpdatedAt := now; BlocksProduced := 0; BlocksMissed := 0 |}.

(** Sum of all delegated amounts (a mathematical sum, no wrap-around). *)
Definition sum_delegations (m : gmap string Z) : Z :=
  map_fold (λ _ amount acc, amount + acc) 0 m.

(** The documented invariant of a validator:
    [total_stake == self_stake + Σ delegations]. *)
Definition stake_invariant (v : Validator) : Prop :=
  TotalStake v = SelfStake v + sum_delegations (Delegations v).

Definition AddDelegation (v : Validator) (delegator : string) (amount now : Z) : Validator :=
  {| Address := Address v; PubKey := PubKey v; SelfStake := SelfStake v;
     TotalStake := u64 (TotalStake v + amount);
     Delegations :=
       <[delegator := u64 (default 0 (Delegations v !! delegator) + amount)]> (Delegations v);
     Commission := Commission v; Rewards := Rewards v; Status := Status v;
     Active := Active v; JailedUntil := JailedUntil v; UnbondingEnd := UnbondingEnd v;
     SlashEvents := SlashEvents v; CreatedAt := CreatedAt v; UpdatedAt := now;
     BlocksProduced := BlocksProduced v; BlocksMissed := BlocksMissed v |}.

Definition RemoveDelegation (v : Validator) (delegator : string) (amount now : Z)
  : Validator * option error :=
  let current := default 0 (Delegations v !! delegator) in
  if current <? amount then (v, Some ErrInsufficientStake)
  else
    let left := u64 (current - amount) in
    ({| Address := Address v; PubKey := PubKey v; SelfStake := SelfStake v;
        TotalStake := u64 (TotalStake v - amount);
        Delegations :=
          if left =? 0 then delete delegator (Delegations v)
          else <[delegator := left]> (Delegations v);
        Commission := Commission v; Rewards := Rewards v; Status := Status v;
        Active := Active v; JailedUntil := JailedUntil v; UnbondingEnd := UnbondingEnd v;
        SlashEvents := SlashEvents v; CreatedAt := CreatedAt v; UpdatedAt := now;
        BlocksProduced := BlocksProduced v; BlocksMissed := BlocksMissed v |}, None).

(** [Validator.Slash]. In the [else] branch the source sets [v.SelfStake = 0]
    BEFORE the loop, so the divisor [v.TotalStake - v.SelfStake] of the loop is
    [v.TotalStake]. The loop changes each delegation from its own amount only,
    so the order in which Go ranges over the map does not matter and the loop
    is a map over the values. The divisor is not zero there: a zero
    [TotalStake] gives a zero [slashAmount] and the first branch. *)
Definition Slash (v : Validator) (percentage : Z) (reason : string) (height now : Z)
  : Validator * Z :=
  let slashAmount := u64 (TotalStake v * percentage) / 100 in
  let '(selfStake, delegations) :=
    if SelfStake v >=? slashAmount then (u64 (SelfStake v - slashAmount), Delegations v)
    else
      let remaining := u64 (slashAmount - SelfStake v) in
      let selfStake0 := 0 in
      (selfStake0,
       (λ amount,
          let delegatorSlash := u64 (amount * remaining) / u64 (TotalStake v - selfStake0) in
          u64 (amount - delegatorSlash)) <$> Delegations v) in
  ({| Address := Address v; PubKey := PubKey v; SelfStake := selfStake;
      TotalStake := u64 (TotalStake v - slashAmount);
      Delegations := delegations;
      Commission := Commission v; Rewards := Rewards v; Status := Status v;
      Active := Active v; JailedUntil := JailedUntil v; UnbondingEnd := UnbondingEnd v;
      SlashEvents := SlashEvents v ++
        [{| Height := height; Reason := reason; Amount := slashAmount; Timestamp := now |}];
      CreatedAt := CreatedAt v; UpdatedAt := now;
      BlocksProduced := BlocksProduced v; BlocksMissed := BlocksMissed v |},
   slashAmount).

(** *** The consensus engine *)

(** [validatorList] holds pointers to the validators of the map. Every engine
    method that changes a validator rebuilds the list right after, and
    [GetValidator] hands out copies, so the list is modelled by the values the
    validators have when the list is built. *)
Record Engine : Type := {
  validators : gmap string Validator;
  validatorList : list Validator;
  totalStake : Z;
  minStake : Z;
  maxValidators : Z;
  blockTime : Z;
  currentRound : Z;
  currentLeader : string
}.

Definition NewEngine (minStake_ maxValidators_ blockTime_ : Z) : Engine :=
  {| validators := ∅; validatorList := []; totalStake := 0; minStake := minStake_;
     maxValidators := maxValidators_; blockTime := blockTime_; currentRound := 0;
     currentLeader := "" |}.

(** [sort.Slice] with [less(i, j) = list[i].TotalStake > list[j].TotalStake]:
    descending by stake and nothing else. Go gives no order among equal stakes
    (the sort is not stable and the map is ranged over in an unspecified
    order); the model is an insertion sort of [map_to_list]. *)
Fixpoint insert_by_stake (v : Validator) (l : list Validator) : list Validator :=
  match l with
  | [] => [v]
  | x :: rest =>
      if TotalStake v >? TotalStake x then v :: x :: rest
      else x :: insert_by_stake v rest
  end.

Definition sort_by_stake (l : list Validator) : list Validator :=
  foldr insert_by_stake [] l.

Definition eligible (minStake_ : Z) (v : Validator) : bool :=
  Active v && (TotalStake v >=? minStake_).

Definition active_list (e : Engine) : list Validator :=
  let all := (map_to_list (validators e)).*2 in
  let sorted := sort_by_stake (List.filter (eligible (minStake e)) all) in
  if Z.of_nat (length sorted) mod 2 ^ 32 >? maxValidators e
  then take (Z.to_nat (maxValidators e)) sorted
  else sorted.

Definition with_validators (e : Engine) (m : gmap string Validator) (total : Z) : Engine :=
  {| validators := m; validatorList := validatorList e; totalStake := total;
     minStake := minStake e; maxValidators := maxValidators e;
     blockTime := blockTime e; currentRound := currentRound e;
     currentLeader := currentLeader e |}.

Definition updateValidatorList (e : Engine) : Engine :=
  {| validators := validators e; validatorList := active_list e;
     totalStake := totalStake e; minStake := minStake e;
     maxValidators := maxValidators e; blockTime := blockTime e;
     currentRound := currentRound e; currentLeader := currentLeader e |}.

Definition RegisterValidator (e : Engine) (address pubKey : string) (stake now : Z)
  : Engine * option error :=
  match validators e !! address with
  | Some _ => (e, Some ErrAlreadyValidator)
  | None =>
      if stake <? minStake e then (e, Some ErrInsufficientStake)
      else
        let tooLow :=
          (Z.of_nat (size (validators e)) mod 2 ^ 32 >=? maxValidators e)
          && match validatorList e !! (length (validatorList e) - 1)%nat with
             | Some lowest => stake <=? TotalStake lowest
             | None => false
             end in
        if tooLow then (e, Some (ErrNew "stake too low to join validator set"))
        else
          let validator := NewValidator address pubKey stake now in
          (updateValidatorList
             (with_validators e (<[address := validator]> (validators e))
                (u64 (totalStake e + stake))), None)
  end.

Definition Delegate (e : Engine) (delegator validator : string) (amount now : Z)
  : Engine * option error :=
  match validators e !! validator with
  | None => (e, Some (ErrNew "validator not found"))
  | Some v =>
      (updateValidatorList
         (with_validators e
            (<[validator := AddDelegation v delegator amount now]> (validators e))
            (u64 (totalStake e + amount))), None)
  end.

(** The walk of [SelectLeader]: [cumulative += v.TotalStake; if cumulative >
    target { return v }]. *)
Fixpoint walk (l : list Validator) (cumulative target : Z) : option Validator :=
  match l with
  | [] => None
  | v :: rest =>
      let cumulative' := u64 (cumulative + TotalStake v) in
      if cumulative' >? target then Some v else walk rest cumulative' target
  end.

Definition set_round (e : Engine) (round : Z) (leader : string) : Engine :=
  {| validators := validators e; validatorList := validatorList e;
     totalStake := totalStake e; minStake := minStake e;
     maxValidators := maxValidators e; blockTime := blockTime e;
     currentRound := round; currentLeader := leader |}.

(** [Engine.SelectLeader]. [round % totalWeight] uses the engine's running
    [totalStake] and panics when it is zero. *)
Definition SelectLeader (e : Engine) (round : Z) : go (Engine * (option Validator * option error)) :=
  match validatorList e with
  | [] => Done (e, (None, Some ErrNoValidators))
  | first :: _ =>
      let totalWeight := totalStake e in
      if totalWeight =? 0 then Panic "integer divide by zero"
      else
        let target := round mod totalWeight in
        match walk (validatorList e) 0 target with
        | Some v => Done (set_round e round (Address v), (Some v, None))
        | None => Done (set_round e round (Address first), (Some first, None))
        end
  end.

(** The cumulative stake the walk has reached after the validators of [l]. *)
Definition cumulative_from (c : Z) (l : list Validator) : Z :=
  fold_left (λ c v, u64 (c + TotalStake v)) l c.

Definition cumulative (l : list Validator) : Z := cumulative_from 0 l.

(** *** The selection rule as the specification words it *)

(** Stake descending, ties by address ascending. *)
Definition spec_before (a b : Validator) : bool :=
  (TotalStake a >? TotalStake b)
  || ((TotalStake a =? TotalStake b) && String.leb (Address a) (Address b)).

Fixpoint spec_insert (v : Validator) (l : list Validator) : list Validator :=
  match l with
  | [] => [v]
  | x :: rest => if spec_before v x then v :: x :: rest else x :: spec_insert v rest
  end.

(** The active list of the specification: status active and
    [total_stake >= min_stake], sorted, truncated to [max_validators]. *)
Definition spec_active_list (e : Engine) : list Validator :=
  take (Z.to_nat (maxValidators e))
    (foldr spec_insert []
       (List.filter (eligible (minStake e)) (map_to_list (validators e)).*2)).

Definition sum_stake (l : list Validator) : Z :=
  foldr (λ v acc, TotalStake v + acc) 0 l.

(** [T = Σ total_stake] over the active list, [target = r mod T], first
    validator whose cumulative stake exceeds [target]. *)
Definition spec_select (l : list Validator) (r : Z) : option Validator :=
  walk l 0 (r mod sum_stake l).

(** *** The slashing keeper *)

Record SlashingParams : Type := {
  DoubleSignPenalty : Z;
  DowntimePenalty : Z;
  MisbehaviorPenalty : Z;
  MinSignedPerWindow : Z;
  SignedBlocksWindow : Z;
  DowntimeJailDuration : Z;
  DoubleSignJailDuration : Z
}.

Definition DefaultSlashingParams : SlashingParams :=
  {| DoubleSignPenalty := 500; DowntimePenalty := 100; MisbehaviorPenalty := 200;
     MinSignedPerWindow := 50; SignedBlocksWindow := 1000;
     DowntimeJailDuration := 24 * 3600; DoubleSignJailDuration := 24 * 30 * 3600 |}.

Record ValidatorSigningInfo : Type := {
  InfoAddress : string;
  StartHeight : Z;
  IndexOffset : Z;
  InfoJailedUntil : Z;
  Tombstoned : bool;
  MissedBlocksCounter : Z;
  SignedBlocksBitmap : list bool
}.

Record SlashingEvent : Type := {
  ValidatorAddress : string;
  EventHeight : Z;
  EventReason : string;
  EventAmount : Z;
  EventTimestamp : Z
}.

(** [SignBlock] does not use the keeper's engine pointer, which is left out. *)
Record SlashingKeeper : Type := {
  params : SlashingParams;
  signingInfo : gmap string ValidatorSigningInfo;
  slashingEvents : list SlashingEvent
}.

Definition NewSlashingKeeper (p : SlashingParams) : SlashingKeeper :=
  {| params := p; signingInfo := ∅; slashingEvents := [] |}.

Definition with_signingInfo (k : SlashingKeeper) (m : gmap string ValidatorSigningInfo)
  : SlashingKeeper :=
  {| params := params k; signingInfo := m; slashingEvents := slashingEvents k |}.

(** [make([]bool, W)] is all [false]. For a window beyond the allocation
    limit of the Go runtime [make] panics instead; the model stands for
    windows within that limit, and the statements that say a call returns
    bound the window. *)
Definition getOrCreateSigningInfo (k : SlashingKeeper) (address : string)
  : SlashingKeeper * ValidatorSigningInfo :=
  match signingInfo k !! address with
  | Some info => (k, info)
  | None =>
      let info :=
        {| InfoAddress := address; StartHeight := 0; IndexOffset := 0;
           InfoJailedUntil := 0; Tombstoned := false; MissedBlocksCounter := 0;
           SignedBlocksBitmap :=
             replicate (Z.to_nat (SignedBlocksWindow (params k))) false |} in
      (with_signingInfo k (<[address := info]> (signingInfo k)), info)
  end.

(** The number of [false] slots of a bitmap. *)
Definition count_false (bitmap : list bool) : Z :=
  Z.of_nat (length (List.filter negb bitmap)).

(** [SlashingKeeper.SignBlock]. The result carries the keeper and whether the
    source starts [HandleDowntime] (in a goroutine of its own, which touches
    neither the counter nor the bitmap). [height % W] panics for [W = 0]. *)
Definition SignBlock (k : SlashingKeeper) (address : string) (height : Z) (signed : bool)
  : go (SlashingKeeper * bool) :=
  let '(k1, info) := getOrCreateSigningInfo k address in
  let W := SignedBlocksWindow (params k1) in
  if W =? 0 then Panic "integer divide by zero"
  else
    let index := Z.to_nat (height mod W) in
    let bitmap0 := SignedBlocksBitmap info in
    let bitmap1 :=
      if (length bitmap0 <=? index)%nat
      then take (Z.to_nat W) (bitmap0 ++ replicate (Z.to_nat W) false)
      else bitmap0 in
    let counter1 :=
      if negb (default false (bitmap1 !! index)) && (MissedBlocksCounter info >? 0)
      then u64 (MissedBlocksCounter info - 1)
      else MissedBlocksCounter info in
    let bitmap2 := <[index := signed]> bitmap1 in
    let counter2 := if negb signed then u64 (counter1 + 1) else counter1 in
    let info' :=
      {| InfoAddress := InfoAddress info; StartHeight := StartHeight info;
         IndexOffset := IndexOffset info; InfoJailedUntil := InfoJailedUntil info;
         Tombstoned := Tombstoned info; MissedBlocksCounter := counter2;
         SignedBlocksBitmap := bitmap2 |} in
    let minSigned := u64 (W * MinSignedPerWindow (params k1)) / 100 in
    Done (with_signingInfo k1 (<[address := info']> (signingInfo k1)),
          counter2 >? u64 (W - minSigned)).

(** A run of [SignBlock] calls for one validator. *)
Fixpoint sign_blocks (k : SlashingKeeper) (address : string) (calls : list (Z * bool))
  : go SlashingKeeper :=
  match calls with
  | [] => Done k
  | (height, signed) :: rest =>
      match SignBlock k address height signed with
      | Done (k1, _) => sign_blocks k1 address rest
      | Panic msg => Panic msg
      end
  end.

(** *** Further methods of [Validator], of the engine and of the keeper *)

Definition with_rewards (v : Validator) (rewards : Z) : Validator :=
  {| Address := Address v; PubKey := PubKey v; SelfStake := SelfStake v;
     TotalStake := TotalStake v; Delegations := Delegations v; Commission := Commission v;
     Rewards := rewards; Status := Status v; Active := Active v;
     JailedUntil := JailedUntil v; UnbondingEnd := UnbondingEnd v;
     SlashEvents := SlashEvents v; CreatedAt := CreatedAt v; UpdatedAt := UpdatedAt v;
     BlocksProduced := BlocksProduced v; BlocksMissed := BlocksMissed v |}.

Definition AddReward (v : Validator) (amount : Z) : Validator :=
  with_rewards v (u64 (Rewards v + amount)).



(** [Validator.Copy]: a fresh validator with the same content. *)
Definition Copy (v : Validator) : Validator :=
  {| Address := Address v; PubKey := PubKey v; SelfStake := SelfStake v;
     TotalStake := TotalStake v; Delegations := Delegations v; Commission := Commission v;
     Rewards := Rewards v; Status := Status v; Active := Active v;
     JailedUntil := JailedUntil v; UnbondingEnd := UnbondingEnd v;
     SlashEvents := SlashEvents v; CreatedAt := CreatedAt v; UpdatedAt := UpdatedAt v;
     BlocksProduced := BlocksProduced v; BlocksMissed := BlocksMissed v |}.

(** [Engine.UnregisterValidator] *)
Definition UnregisterValidator (e : Engine) (address : string) : Engine * option error :=
  match validators e !! address with
  | None => (e, Some (ErrNew "validator not found"))
  | Some validator =>
      (updateValidatorList
         (with_validators e (delete address (validators e))
            (u64 (totalStake e - TotalStake validator))), None)
  end.

(** [Engine.Undelegate] *)
Definition Undelegate (e : Engine) (delegator validator : string) (amount now : Z)
  : Engine * option error :=
  match validators e !! validator with
  | None => (e, Some (ErrNew "validator not found"))
  | Some v =>
      match RemoveDelegation v delegator amount now with
      | (_, Some err) => (e, Some err)
      | (v', None) =>
          (updateValidatorList
             (with_validators e (<[validator := v']> (validators e))
                (u64 (totalStake e - amount))), None)
      end
  end.


(** The amount [ProcessRewards] passes to [AddReward] for [v]:
    [(blockReward * v.TotalStake) / e.totalStake]. *)
Definition reward_share (e : Engine) (blockReward : Z) (v : Validator) : Z :=
  u64 (blockReward * TotalStake v) / totalStake e.

(** [Engine.ProcessRewards]. The list holds the pointers of the map, and a
    validator is stored under its address: the reward lands on the list entry
    and on the map entry alike. *)
Definition ProcessRewards (e : Engine) (blockReward : Z) : Engine :=
  if (length (validatorList e) =? 0)%nat || (totalStake e =? 0) then e
  else
    let credit v := AddReward v (reward_share e blockReward v) in
    {| validators :=
         fold_left (λ m v, alter credit (Address v) m) (validatorList e) (validators e);
       validatorList := credit <$> validatorList e;
       totalStake := totalStake e; minStake := minStake e;
       maxValidators := maxValidators e; blockTime := blockTime e;
       currentRound := currentRound e; currentLeader := currentLeader e |}.










End pos.

(** ** Package crypto: Bech32-style addresses *)

Module crypto.

Inductive result (A : Type) : Type :=
| Ok (a : A)
| Err (e : error).
Arguments Ok {A} a.
Arguments Err {A} e.

Definition AddressPrefix : string := "gyds1".
Definition AddressLength : nat := 38.
Definition Bech32Charset : string := "qpzry9x8gf2tvdw0s3jn54khce6mua7l".

(** A Go string is a sequence of bytes; [[]byte] is a list of numbers below 256. *)
Definition byte_of_ascii (c : ascii) : Z := Z.of_N (N_of_ascii c).
Definition ascii_of_byte (b : Z) : ascii := ascii_of_N (Z.to_N b).
Definition bytes_of_string (s : string) : list Z := map byte_of_ascii (list_ascii_of_string s).
Definition string_of_bytes (l : list Z) : string := string_of_list_ascii (map ascii_of_byte l).

(** Conversion to Go's [byte]. *)
Definition u8 (z : Z) : Z := z mod 256.

(** The inner loop of [convertBits]:
    [for bits >= toBits { bits -= toBits; result = append(result, byte((acc>>bits)&maxv)) }]. *)
Fixpoint emit (fuel : nat) (acc bits toBits maxv : Z) (result : list Z) : Z * list Z :=
  match fuel with
  | O => (bits, result)
  | S fuel' =>
      if bits >=? toBits then
        let bits' := bits - toBits in
        emit fuel' acc bits' toBits maxv
          (result ++ [u8 (Z.land (Z.shiftr acc bits') maxv)])
      else (bits, result)
  end.

(** One round of the outer loop. [acc] is a Go [int]: the shift wraps in 64
    bits. *)
Definition convert_step (fromBits toBits maxv : Z) (st : Z * Z * list Z) (value : Z)
  : Z * Z * list Z :=
  let '(acc, bits, result) := st in
  let acc' := Z.lor (int64 (Z.shiftl acc fromBits)) value in
  let bits' := bits + fromBits in
  let '(bits'', result') := emit (Z.to_nat bits') acc' bits' toBits maxv result in
  (acc', bits'', result').

Definition convertBits (data : list Z) (fromBits toBits : Z) (pad : bool) : list Z :=
  let maxv := Z.shiftl 1 toBits - 1 in
  let '(acc, bits, result) :=
    fold_left (convert_step fromBits toBits maxv) data (0, 0, []) in
  if pad && (bits >? 0)
  then result ++ [u8 (Z.land (int64 (Z.shiftl acc (toBits - bits))) maxv)]
  else result.

(** [hrpExpand]; the prefix is ASCII, so ranging over its runes is ranging
    over its bytes. *)
Definition hrpExpand (hrp : string) : list Z :=
  let cs := bytes_of_string hrp in
  map (λ c, u8 (Z.shiftr c 5)) cs ++ [0] ++ map (λ c, u8 (Z.land c 31)) cs.

Definition gen : list Z := [0x3b6a57b2; 0x26508e6d; 0x1ea119fa; 0x3d4233dd; 0x2a1462b3].

(** One round of [bech32Polymod]:
    [top := chk >> 25; chk = (chk&0x1ffffff)<<5 ^ int(v)], then
    [if (top>>i)&1 == 1 { chk ^= gen[i] }] for [i = 0..4]. *)
Definition polymod_step (chk v : Z) : Z :=
  let top := Z.shiftr chk 25 in
  let chk1 := Z.lxor (Z.shiftl (Z.land chk 0x1ffffff) 5) v in
  fold_left
    (λ c i, if Z.land (Z.shiftr top (Z.of_nat i)) 1 =? 1 then Z.lxor c (nth i gen 0) else c)
    (seq 0 5) chk1.

Definition bech32Polymod (values : list Z) : Z := fold_left polymod_step values 1.

Definition bech32Checksum (hrp : string) (data : list Z) : list Z :=
  let values := hrpExpand hrp ++ data ++ replicate 6 0 in
  let polymod := Z.lxor (bech32Polymod values) 1 in
  map (λ i, u8 (Z.land (Z.shiftr polymod (5 * (5 - Z.of_nat i))) 31)) (seq 0 6).

Definition verifyBech32Checksum (hrp : string) (data : list Z) : bool :=
  bech32Polymod (hrpExpand hrp ++ data) =? 1.

(** [Bech32Charset[b]]; every index the source uses is masked to 5 bits, so
    the default (Go's index panic) is not reached. *)
Definition charset_at (b : Z) : ascii :=
  default "000"%char (String.get (Z.to_nat b) Bech32Charset).

(** [strings.IndexByte]: the first position of [c], or [-1]. *)
Fixpoint index_from (s : list Z) (c : Z) (i : Z) : Z :=
  match s with
  | [] => -1
  | x :: rest => if x =? c then i else index_from rest c (i + 1)
  end.

Definition IndexByte (s : string) (c : Z) : Z := index_from (bytes_of_string s) c 0.

(** [AddressFromHash] *)
Definition AddressFromHash (hash : list Z) : string :=
  let converted := convertBits hash 8 5 true in
  let checksum := bech32Checksum AddressPrefix converted in
  let combined := converted ++ checksum in
  AddressPrefix +:+ string_of_list_ascii (map charset_at combined).

(** Go's [for i, c := range s] over a string decodes UTF-8: it yields the byte
    offset and the rune, and U+FFFD with width 1 for a byte that starts no
    valid encoding. *)
Definition is_cont (b : Z) : bool := (0x80 <=? b) && (b <=? 0xBF).

Definition decode_rune (bs : list Z) : Z * nat :=
  match bs with
  | [] => (0xFFFD, 1%nat)
  | b0 :: rest =>
      if b0 <? 0x80 then (b0, 1%nat)
      else if (0xC2 <=? b0) && (b0 <=? 0xDF) then
        match rest with
        | b1 :: _ =>
            if is_cont b1
            then (Z.lor (Z.shiftl (Z.land b0 0x1F) 6) (Z.land b1 0x3F), 2%nat)
            else (0xFFFD, 1%nat)
        | _ => (0xFFFD, 1%nat)
        end
      else if (0xE0 <=? b0) && (b0 <=? 0xEF) then
        match rest with
        | b1 :: b2 :: _ =>
            let lo := if b0 =? 0xE0 then 0xA0 else 0x80 in
            let hi := if b0 =? 0xED then 0x9F else 0xBF in
            if (lo <=? b1) && (b1 <=? hi) && is_cont b2
            then (Z.lor (Z.shiftl (Z.land b0 0x0F) 12)
                    (Z.lor (Z.shiftl (Z.land b1 0x3F) 6) (Z.land b2 0x3F)), 3%nat)
            else (0xFFFD, 1%nat)
        | _ => (0xFFFD, 1%nat)
        end
      else if (0xF0 <=? b0) && (b0 <=? 0xF4) then
        match rest with
        | b1 :: b2 :: b3 :: _ =>
            let lo := if b0 =? 0xF0 then 0x90 else 0x80 in
            let hi := if b0 =? 0xF4 then 0x8F else 0xBF in
            if (lo <=? b1) && (b1 <=? hi) && is_cont b2 && is_cont b3
            then (Z.lor (Z.shiftl (Z.land b0 0x07) 18)
                    (Z.lor (Z.shiftl (Z.land b1 0x3F) 12)
                       (Z.lor (Z.shiftl (Z.land b2 0x3F) 6) (Z.land b3 0x3F))), 4%nat)
            else (0xFFFD, 1%nat)
        | _ => (0xFFFD, 1%nat)
        end
      else (0xFFFD, 1%nat)
  end.

(** The loop of [ValidateAddress] over the runes of [data], from byte offset
    [i]: [decoded[i] = byte(idx)], or [None] for a character outside the
    charset. Every rune is at least one byte wide, so the number of bytes left
    bounds the rounds. *)
Fixpoint decode_loop (fuel : nat) (bs : list Z) (i : nat) (decoded : list Z)
  : option (list Z) :=
  match fuel with
  | O => Some decoded
  | S fuel' =>
      match bs with
      | [] => Some decoded
      | _ =>
          let '(c, width) := decode_rune bs in
          let idx := IndexByte Bech32Charset (u8 c) in
          if idx <? 0 then None
          else decode_loop fuel' (drop width bs) (i + width) (<[i := u8 idx]> decoded)
      end
  end.

(** [ValidateAddress]; [None] is Go's [nil] error. *)
Definition ValidateAddress (address : string) : option error :=
  if negb (String.prefix AddressPrefix address)
  then Some (ErrNew "invalid address prefix")
  else if negb (String.length address =? String.length AddressPrefix + AddressLength)%nat
  then Some (ErrNew "invalid address length")
  else
    let data := drop (String.length AddressPrefix) (bytes_of_string address) in
    match decode_loop (length data) data 0 (replicate (length data) 0) with
    | None => Some (ErrNew "invalid character in address")
    | Some decoded =>
        if negb (verifyBech32Checksum AddressPrefix decoded)
        then Some (ErrNew "invalid address checksum")
        else None
    end.

(** [DecodeAddress]. The second loop indexes [data] by bytes. The source
    writes [result, err := convertBits(decoded, 5, 8, false)] although
    [convertBits] has a single result; the model takes the value and no error. *)
Definition DecodeAddress (address : string) : result (list Z) :=
  match ValidateAddress address with
  | Some err => Err err
  | None =>
      let data := drop (String.length AddressPrefix) (bytes_of_string address) in
      let decoded :=
        map (λ b, u8 (IndexByte Bech32Charset b)) (take (length data - 6) data) in
      Ok (convertBits decoded 5 8 false)
  end.

(** The string [s] with the character at position [i] replaced by [c]. *)
Definition set_char (s : string) (i : nat) (c : ascii) : string :=
  string_of_list_ascii (<[i := c]> (list_ascii_of_string s)).

(** A hash is [n] bytes. *)
Definition is_hash (n : nat) (h : list Z) : Prop :=
  length h = n ∧ Forall (λ b, 0 <= b < 256) h.

(** [IsValidAddress] *)
Definition IsValidAddress (address : string) : bool :=
  match ValidateAddress address with
  | None => true
  | Some _ => false
  end.

Section Hash160.

(** [Hash160] (RIPEMD-160 of SHA-256) is a parameter. *)
Variable Hash160 : list Z → list Z.

(** [DeriveAddress] *)
Definition DeriveAddress (publicKey : list Z) : string :=
  let hash := Hash160 publicKey in
  let converted := convertBits hash 8 5 true in
  let checksum := bech32Checksum AddressPrefix converted in
  let combined := converted ++ checksum in
  AddressPrefix +:+ string_of_list_ascii (map charset_at combined).

(** [GenerateValidatorAddress]: the same encoding under the prefix
    ["gydsvaloper1"]. *)
Definition GenerateValidatorAddress (pubKey : list Z) : string :=
  let hash := Hash160 pubKey in
  let prefix := "gydsvaloper1" in
  let converted := convertBits hash 8 5 true in
  let checksum := bech32Checksum prefix converted in
  let combined := converted ++ checksum in
  prefix +:+ string_of_list_ascii (map charset_at combined).

(** [GenerateContractAddress]: the nonce enters the hash as one byte,
    [byte(nonce)]. *)
Definition GenerateContractAddress (deployer : string) (nonce : Z) : string :=
  let data := bytes_of_string deployer ++ [u8 nonce] in
  AddressFromHash (Hash160 data).

End Hash160.

End crypto.

(** ** Orders and loop invariants used in the proofs *)

(** Stake descending. *)
Definition by_stake_desc (a b : pos.Validator) : Prop :=
  pos.TotalStake b <= pos.TotalStake a.

(** The heap order in terms of gas prices at positions. *)
Definition ordered_upto (n : nat) (q : list tx.MempoolTx) : Prop :=
  ∀ p c, (c < n)%nat → tx.child_of p c → tx.gas_at q c <= tx.gas_at q p.

(** The order with a hole at [j] while [up] runs: every pair is in order
    except the one above [j], and the children of [j] are below the parent of
    [j]. *)
Definition up_inv (j : nat) (q : list tx.MempoolTx) : Prop :=
  (∀ p c, (c < length q)%nat → c ≠ j → tx.child_of p c →
          tx.gas_at q c <= tx.gas_at q p)
  ∧ (∀ p c, (c < length q)%nat → tx.child_of p j → tx.child_of j c →
            tx.gas_at q c <= tx.gas_at q p).

(** The order of the first [n] slots with a hole at [i] while [down] runs:
    every pair is in order except the ones below [i], and the children of [i]
    are below the parent of [i]. *)
Definition down_inv (n i : nat) (q : list tx.MempoolTx) : Prop :=
  (∀ p c, (c < n)%nat → p ≠ i → tx.child_of p c → tx.gas_at q c <= tx.gas_at q p)
  ∧ (∀ p c, (c < n)%nat → tx.child_of p i → tx.child_of i c →
            tx.gas_at q c <= tx.gas_at q p).

(** *** Numbers and checksums in the address proofs *)

(** The number that a list of digits stands for, most significant first. *)
Definition value_be (base : Z) (ds : list Z) : Z :=
  fold_left (λ acc d, acc * base + d) ds 0.

Definition digits_ok (w : Z) (ds : list Z) : Prop :=
  Forall (λ d, 0 <= d < 2 ^ w) ds.

Definition polymod_from (c : Z) (vs : list Z) : Z := fold_left crypto.polymod_step vs c.

Definition gen_mask (top : Z) : Z :=
  fold_left
    (λ c i, if Z.land (Z.shiftr top (Z.of_nat i)) 1 =? 1
            then Z.lxor c (nth i crypto.gen 0) else c)
    (seq 0 5) 0.

(** The byte of the charset symbol for a 5-bit value. *)
Definition charset_byte (v : Z) : Z := crypto.byte_of_ascii (crypto.charset_at v).

(** What one changed 5-bit value [e] at position [k] of the 38 data values
    adds to the checksum of an address. *)
Definition error_syndrome (k : nat) (e : Z) : Z :=
  polymod_from 0 (replicate 11 0 ++ <[k := e]> (replicate 38 0)).

Definition below (n : nat) : list Z := map Z.of_nat (seq 0 n).

(** *** Sums over maps and the holdings of an account *)

(** The sum of [f] over the values of a map (a mathematical sum, no
    wrap-around). *)
Definition msum {A : Type} (f : A → Z) (m : gmap string A) : Z :=
  map_fold (λ _ a acc, f a + acc) 0 m.

(** What an account holds of an asset, as [StateDB.TotalSupply] counts it:
    the balance and, for GYDS, the staked amount and the delegations. *)
Definition holdings (asset : string) (a : state.Account) : Z :=
  state.balance_of (state.Balances a) asset
  + (if (asset =? "GYDS")%string
     then state.Staked a + msum id (state.Delegated a)
     else 0).

(** *** The map and the queue of a mempool *)

(** The two halves of a pool agree: every entry of [txs] is stored under its
    own hash, which is the hash of its transaction; the queue holds exactly
    the entries of [txs], each once; the queue is a heap; and the pool holds
    at most [MaxSize] transactions. *)
Definition pool_consistent (HashHex : tx.Transaction → string) (mp : tx.Mempool) : Prop :=
  (∀ h e, tx.txs mp !! h = Some e → tx.Hash e = h ∧ HashHex (tx.Tx e) = h)
  ∧ (∀ e, e ∈ tx.queue mp ↔ ∃ h, tx.txs mp !! h = Some e)
  ∧ length (tx.queue mp) = size (tx.txs mp)
  ∧ tx.heap_ordered (tx.queue mp)
  ∧ Z.of_nat (size (tx.txs mp)) <= tx.MaxSize (tx.config mp).

(** *** Genesis allocations *)

(** The allocation that counts for an address: the last one in the list
    that names it. *)
Definition last_alloc (address : string) (allocs : list chain.AllocConfig)
  : option chain.AllocConfig :=
  fold_left
    (λ found a, if bool_decide (chain.AllocAddress a = address) then Some a else found)
    allocs None.

(** *** The books of the consensus engine *)

(** The engine's running total is the sum of the total stakes of all
    registered validators (wrapped as a [uint64]), every validator is stored
    under its own address, and the validator list holds only validators as
    the map has them, each active with at least the minimum stake, in
    descending order of stake. Nothing is said about the order among equal
    stakes, which Go's map iteration and [sort.Slice] leave open. *)
Definition engine_consistent (e : pos.Engine) : Prop :=
  pos.totalStake e = u64 (msum pos.TotalStake (pos.validators e))
  ∧ (∀ k v, pos.validators e !! k = Some v → pos.Address v = k)
  ∧ (∀ v, v ∈ pos.validatorList e →
       pos.validators e !! pos.Address v = Some v
       ∧ pos.Active v = true ∧ pos.minStake e <= pos.TotalStake v)
  ∧ StronglySorted by_stake_desc (pos.validatorList e).

(** ** Scenarios used by the evaluations below *)

Module scenario.

Definition signed_transfer (ty from to : string) (amount fee nonce : Z) : tx.Transaction :=
  {| tx.Type_ := ty; tx.From := from; tx.To := to; tx.Amount := amount;
     tx.Asset := "GYDS"; tx.Fee := fee; tx.Nonce := nonce; tx.Timestamp := 0;
     tx.Data := []; tx.Signature := [1]; tx.PubKey := [] |}.

(** A store in which only ["A"] exists, with [balance] GYDS. *)
Definition funded (balance : Z) : state.StateDB :=
  state.SetAccount state.NewStateDB "A"
    (state.SetBalance (state.NewAccount "A") "GYDS" balance).

Definition default_chain_config : chain.ChainConfig :=
  {| chain.ChainID := "gydschain-1"; chain.NetworkID := 1; chain.BlockTime := 5;
     chain.MaxBlockSize := 1024 * 1024; chain.MaxTxPerBlock := 1000 |}.

(** A chain over a store where ["A"] holds 1000 GYDS. *)
Definition chain_A1000 : chain.Chain :=
  chain.NewChain default_chain_config (funded 1000).

(** First transaction within balance, second one beyond it. *)
Definition tx_ok : tx.Transaction := signed_transfer "transfer" "A" "B" 100 1 0.
Definition tx_too_much : tx.Transaction := signed_transfer "transfer" "A" "B" 2000 1 1.

Definition header_at (height : Z) (parent txRoot : string) : chain.Header :=
  {| chain.Version := 1; chain.Height := height; chain.Timestamp := 0;
     chain.ParentHash := parent; chain.TxRoot := txRoot; chain.StateRoot := "";
     chain.ReceiptRoot := ""; chain.ValidatorSet := ""; chain.Difficulty := 1000;
     chain.Nonce := 0; chain.ExtraData := []; chain.GasLimit := 10000000;
     chain.GasUsed := 0 |}.

(** A block at height 0 with the two transactions and the matching
    transaction root, for any SHA-256 and hex encoding. *)
Definition two_tx_block (TxHash : tx.Transaction → list Z) (Sum256 : list Z → list Z)
  (EncodeToString : list Z → string) : chain.Block :=
  let txs := [tx_ok; tx_too_much] in
  {| chain.Header_ :=
       header_at 0 "" (EncodeToString (chain.merkleRoot Sum256 (map TxHash txs)));
     chain.Transactions := txs; chain.Validator := "V"; chain.Signature := [1] |}.

(** A transfer of ["A"] to itself. *)
Definition tx_self : tx.Transaction := signed_transfer "transfer" "A" "A" 100 1 0.

(** A burn: no recipient. *)
Definition tx_burn : tx.Transaction := signed_transfer "burn" "A" "" 100 1 0.

Definition default_rewards : pow.RewardDistributor :=
  {| pow.baseReward := 1000000000; pow.halving := 2100000; pow.halvingCount := 0;
     pow.minReward := 1000000; pow.minerShare := 2000; pow.validatorShare := 8000;
     pow.totalDistributed := 0; pow.lastHeight := 0 |}.

(** Three registrations into an engine that keeps two validators. *)
Definition engine_ABC : pos.Engine :=
  let e0 := pos.NewEngine 1 2 5 in
  let e1 := (pos.RegisterValidator e0 "A" "pkA" 10 0).1 in
  let e2 := (pos.RegisterValidator e1 "B" "pkB" 20 0).1 in
  (pos.RegisterValidator e2 "C" "pkC" 30 0).1.

(** Self-stake 10 and one delegation of 90. *)
Definition validator_10_90 : pos.Validator :=
  pos.AddDelegation (pos.NewValidator "V" "pkV" 10 0) "D" 90 0.

(** Stand-ins for the JSON size and the SHA-256 hash of a transaction: every
    transaction is 100 bytes long, and the scenario transactions have one
    sender each, whose name serves as the hash. *)
Definition size100 (t : tx.Transaction) : Z := 100.
Definition hash_by_sender (t : tx.Transaction) : string := tx.From t.

Definition pool_config (maxSize : Z) : tx.MempoolConfig :=
  {| tx.MaxSize := maxSize; tx.MaxTxSize := 1024 * 1024; tx.MaxTxAge := 3600;
     tx.MinGasPrice := 1; tx.ReapInterval := 60 |}.

(** A transfer of [sender] paying [fee]; its gas price is [fee / 100]. *)
Definition paying (sender : string) (fee : Z) : tx.Transaction :=
  signed_transfer "transfer" sender "R" 1 fee 0.

(** Admit the transactions one after the other, at times 1, 2, 3, ... *)
Fixpoint add_all (mp : tx.Mempool) (l : list tx.Transaction) (now : Z) : tx.Mempool :=
  match l with
  | [] => mp
  | t :: rest => add_all (tx.AddTx size100 hash_by_sender mp t now).1 rest (now + 1)
  end.

(** A pool of capacity 3 holding gas prices 10, 5 and 7, accepted in this order. *)
Definition pool_10_5_7 : tx.Mempool :=
  add_all (tx.NewMempool (pool_config 3))
    [paying "S1" 1000; paying "S2" 500; paying "S3" 700] 1.

(** A pool holding three transactions of the same gas price 10, accepted in
    the order S1, S2, S3. *)
Definition pool_ties : tx.Mempool :=
  add_all (tx.NewMempool (pool_config 10))
    [paying "S1" 1000; paying "S2" 1000; paying "S3" 1000] 1.

(** A 20-byte hash. *)
Definition sample_hash : list Z :=
  [1; 2; 3; 4; 5; 6; 7; 8; 9; 10; 11; 12; 13; 14; 15; 16; 17; 18; 19; 255].

(** A second stand-in for the hash of a transaction: sender and recipient. *)
Definition hash_by_route (t : tx.Transaction) : string :=
  tx.From t +:+ ">" +:+ tx.To t.

(** A pool of capacity 1 that holds one transaction of ["S1"] with nonce 5
    and gas price 5. *)
Definition pool_full_S1 : tx.Mempool :=
  (tx.AddTx size100 hash_by_route (tx.NewMempool (pool_config 1))
     (signed_transfer "transfer" "S1" "R" 1 500 5) 1).1.

(** A pool of capacity 1 after [AddTx] of ["S1"] (gas price 5), [RemoveTx]
    of it, and [AddTx] of ["S2"] (gas price 7): the map holds ["S2"] only,
    the queue still holds the entry of ["S1"], in its last slot. *)
Definition pool_stale_S1 : tx.Mempool :=
  let mp1 := (tx.AddTx size100 hash_by_sender (tx.NewMempool (pool_config 1))
                (paying "S1" 500) 1).1 in
  (tx.AddTx size100 hash_by_sender (tx.RemoveTx mp1 "S1") (paying "S2" 700) 2).1.

End scenario.

(* ===================================================================== *)
(** * Properties *)
(* ===================================================================== *)

(** ** Machine integers *)

Lemma u64_small z : 0 <= z < 2 ^ 64 → u64 z = z.
Proof. intros H. unfold u64. apply Z.mod_small. exact H. Qed.

Lemma u64_range z : 0 <= u64 z < 2 ^ 64.
Proof. unfold u64. apply Z.mod_pos_bound. lia. Qed.

(** ** pow: the halving loop against the closed form *)

Lemma halving_loop_max minR n : ∀ reward,
  0 <= reward →
  Z.max minR (pow.halving_loop minR n reward) = Z.max minR (reward / 2 ^ Z.of_nat n).
Proof.
  induction n as [|n IH]; intros reward Hr.
  - simpl. now rewrite Z.div_1_r.
  - cbn [pow.halving_loop].
    replace (2 ^ Z.of_nat (S n)) with (2 * 2 ^ Z.of_nat n)
      by (rewrite Nat2Z.inj_succ, Z.pow_succ_r; lia).
    assert (Hp : 0 < 2 ^ Z.of_nat n) by (apply Z.pow_pos_nonneg; lia).
    destruct (reward >? minR) eqn:Hgt.
    + rewrite IH by (apply Z.div_pos; lia).
      rewrite Z.div_div by lia. reflexivity.
    + rewrite Z.gtb_ltb in Hgt. apply Z.ltb_ge in Hgt.
      assert (reward / (2 * 2 ^ Z.of_nat n) <= reward).
      { apply Z.div_le_upper_bound; nia. }
      lia.
Qed.

(** C9. For a distributor with a non-zero halving interval (the source
    divides by it) and every height, [CalculateBlockReward] returns
    [max(min_reward, base_reward >> (height / halving_blocks))]: the loop with
    its early stop at the floor computes the closed form. *)
Theorem CalculateBlockReward_closed_form (d : pow.RewardDistributor) (height : Z) :
  0 < pow.halving d → 0 <= pow.baseReward d → 0 <= height →
  pow.CalculateBlockReward d height = Done (pow.reward_closed_form d height).
Proof.
  intros Hh Hb Hheight. unfold pow.CalculateBlockReward, pow.reward_closed_form.
  destruct (pow.halving d =? 0) eqn:E; [apply Z.eqb_eq in E; lia|].
  f_equal.
  assert (Hk : 0 <= height / pow.halving d) by (apply Z.div_pos; lia).
  pose proof (halving_loop_max (pow.minReward d) (Z.to_nat (height / pow.halving d))
                (pow.baseReward d) Hb) as Hloop.
  rewrite Z2Nat.id in Hloop by exact Hk.
  rewrite Z.shiftr_div_pow2 by exact Hk.
  rewrite <- Hloop.
  destruct (_ <? _) eqn:Hlt.
  - apply Z.ltb_lt in Hlt. lia.
  - apply Z.ltb_ge in Hlt. lia.
Qed.

Lemma CalculateBlockReward_closed_form_witness :
  pow.CalculateBlockReward scenario.default_rewards 5000000
  = Done (pow.reward_closed_form scenario.default_rewards 5000000).
Proof.
  apply (CalculateBlockReward_closed_form scenario.default_rewards 5000000);
    simpl; lia.
Defined.

(** The floor is reached and kept: after 10 halvings of the default reward
    the loop has stopped early. *)
Example CalculateBlockReward_floor :
  pow.CalculateBlockReward scenario.default_rewards (2100000 * 40) = Done 1000000.
Proof. vm_compute. reflexivity. Qed.

(** ** state: Transfer *)

Lemma Copy_id (a : state.Account) : state.Copy a = a.
Proof. destruct a; reflexivity. Qed.

Lemma GetBalance_SetBalance (a : state.Account) (asset : string) (x : Z) :
  state.GetBalance (state.SetBalance a asset x) asset = x.
Proof.
  unfold state.GetBalance, state.SetBalance, state.with_balances, state.balance_of.
  cbn. now rewrite lookup_insert_eq.
Qed.

Lemma GetBalance_SetBalance_ne (a : state.Account) (asset asset' : string) (x : Z) :
  asset ≠ asset' →
  state.GetBalance (state.SetBalance a asset x) asset' = state.GetBalance a asset'.
Proof.
  intros Hne.
  unfold state.GetBalance, state.SetBalance, state.with_balances, state.balance_of.
  cbn. now rewrite lookup_insert_ne.
Qed.

(** A missing sender is reported and nothing changes. *)
Lemma Transfer_missing_sender (s : state.StateDB) (from to asset : string) (amount : Z) :
  state.accounts s !! from = None →
  state.Transfer s from to asset amount = (s, Some ErrAccountNotFound).
Proof. intros H. unfold state.Transfer. now rewrite H. Qed.

(** With an existing receiver, a balance below [amount] is reported and
    nothing changes. *)
Lemma Transfer_insufficient_existing_receiver
  (s : state.StateDB) (from to asset : string) (amount : Z) (sender receiver : state.Account) :
  state.accounts s !! from = Some sender →
  state.accounts s !! to = Some receiver →
  state.GetBalance sender asset < amount →
  state.Transfer s from to asset amount = (s, Some ErrInsufficientBalance).
Proof.
  intros Hf Ht Hlt. unfold state.Transfer. rewrite Hf, Ht.
  apply Z.ltb_lt in Hlt. now rewrite Hlt.
Qed.

(** A successful transfer between two different existing accounts moves
    [amount] and marks both addresses dirty. *)
Lemma Transfer_success (s : state.StateDB) (from to asset : string) (amount : Z)
  (sender receiver : state.Account) :
  from ≠ to →
  state.accounts s !! from = Some sender →
  state.accounts s !! to = Some receiver →
  amount <= state.GetBalance sender asset →
  ∃ s', state.Transfer s from to asset amount = (s', None)
    ∧ (λ a, state.GetBalance a asset) <$> (state.accounts s' !! from)
      = Some (u64 (state.GetBalance sender asset - amount))
    ∧ (λ a, state.GetBalance a asset) <$> (state.accounts s' !! to)
      = Some (u64 (state.GetBalance receiver asset + amount))
    ∧ state.dirty s' !! from = Some true
    ∧ state.dirty s' !! to = Some true.
Proof.
  intros Hne Hf Ht Hle. unfold state.Transfer. rewrite Hf, Ht.
  destruct (_ <? _) eqn:E; [apply Z.ltb_lt in E; lia|].
  eexists. split; [reflexivity|].
  unfold state.update_balance. rewrite Hf. cbn [state.with_accounts state.accounts].
  rewrite lookup_insert_ne by exact Hne. rewrite Ht.
  cbn [state.mark_dirty state.with_accounts state.accounts state.dirty].
  repeat split.
  - rewrite lookup_insert_ne by (intros ->; contradiction).
    rewrite lookup_insert_eq. cbn. now rewrite GetBalance_SetBalance.
  - rewrite lookup_insert_eq. cbn. now rewrite GetBalance_SetBalance.
  - destruct (decide (to = from)) as [->|Hn]; [contradiction|].
    rewrite lookup_insert_ne by exact Hn. apply lookup_insert_eq.
  - apply lookup_insert_eq.
Qed.

(** C3. Where the claim breaks: when the receiver does not exist yet and the
    sender's balance is below [amount], [Transfer] returns
    [ErrInsufficientBalance] AFTER it has stored a fresh receiver account. The
    store is therefore changed by the failed call (the dirty set is not). *)
Theorem Transfer_failure_creates_receiver
  (s : state.StateDB) (from to asset : string) (amount : Z) (sender : state.Account) :
  state.accounts s !! from = Some sender →
  state.accounts s !! to = None →
  state.GetBalance sender asset < amount →
  ∃ s', state.Transfer s from to asset amount = (s', Some ErrInsufficientBalance)
    ∧ state.accounts s' !! to = Some (state.NewAccount to)
    ∧ state.dirty s' = state.dirty s
    ∧ s' ≠ s.
Proof.
  intros Hf Ht Hlt. unfold state.Transfer. rewrite Hf, Ht.
  apply Z.ltb_lt in Hlt. rewrite Hlt.
  eexists. split; [reflexivity|].
  cbn [state.with_accounts state.accounts state.dirty].
  split; [apply lookup_insert_eq|]. split; [reflexivity|].
  intros Heq. apply (f_equal (λ x, state.accounts x !! to)) in Heq.
  cbn in Heq. rewrite lookup_insert_eq, Ht in Heq. discriminate.
Qed.

Lemma Transfer_failure_creates_receiver_witness :
  ∃ s', state.Transfer (scenario.funded 5) "A" "B" "GYDS" 10
        = (s', Some ErrInsufficientBalance)
    ∧ state.accounts s' !! "B" = Some (state.NewAccount "B")
    ∧ state.dirty s' = state.dirty (scenario.funded 5)
    ∧ s' ≠ scenario.funded 5.
Proof.
  apply (Transfer_failure_creates_receiver (scenario.funded 5) "A" "B" "GYDS" 10
           (state.SetBalance (state.NewAccount "A") "GYDS" 5)).
  - vm_compute. reflexivity.
  - vm_compute. reflexivity.
  - vm_compute. reflexivity.
Defined.

(** ** chain: applying transactions and blocks *)

(** [processTransaction] never reads the transaction's type. *)
Lemma processTransaction_type_irrelevant (c : chain.Chain) (t : tx.Transaction) (ty : string) :
  chain.processTransaction c (tx.with_type t ty) = chain.processTransaction c t.
Proof. reflexivity. Qed.

(** It changes the state store only, and of that only [accounts] and [dirty]. *)
Lemma processTransaction_frame (c c' : chain.Chain) (t : tx.Transaction) (r : option error) :
  chain.processTransaction c t = (c', r) →
  chain.blocks c' = chain.blocks c
  ∧ chain.heights c' = chain.heights c
  ∧ chain.latestHeight c' = chain.latestHeight c
  ∧ chain.latestHash c' = chain.latestHash c
  ∧ state.assets (chain.stateDB c') = state.assets (chain.stateDB c)
  ∧ state.root (chain.stateDB c') = state.root (chain.stateDB c).
Proof.
  unfold chain.processTransaction. intros H.
  destruct (state.GetAccount _ _) as [sender|]; [|by inversion H].
  destruct (_ <? _); [by inversion H|].
  inversion H; subst; clear H. by cbn.
Qed.

(** A failing transaction leaves the chain as it was. *)
Lemma processTransaction_error_unchanged (c c' : chain.Chain) (t : tx.Transaction) (e : error) :
  chain.processTransaction c t = (c', Some e) → c' = c.
Proof.
  unfold chain.processTransaction. intros H.
  destruct (state.GetAccount _ _) as [sender|]; [|by inversion H].
  destruct (_ <? _); by inversion H.
Qed.

(** For a transaction between two different addresses whose sender covers
    [amount + fee], whatever its type: the sender ends with
    [balance - amount - fee] and its nonce incremented, the recipient with its
    balance plus [amount], and no account's [Staked] changes. *)
Lemma processTransaction_moves (c : chain.Chain) (t : tx.Transaction) (sender : state.Account) :
  tx.From t ≠ tx.To t →
  state.accounts (chain.stateDB c) !! tx.From t = Some sender →
  u64 (tx.Amount t + tx.Fee t) <= state.GetBalance sender (tx.Asset t) →
  ∃ c', chain.processTransaction c t = (c', None)
    ∧ (∃ sender',
         state.accounts (chain.stateDB c') !! tx.From t = Some sender'
         ∧ state.GetBalance sender' (tx.Asset t)
           = u64 (u64 (state.GetBalance sender (tx.Asset t) - tx.Amount t) - tx.Fee t)
         ∧ state.Nonce sender' = u64 (state.Nonce sender + 1)
         ∧ state.Staked sender' = state.Staked sender)
    ∧ (∃ receiver',
         state.accounts (chain.stateDB c') !! tx.To t = Some receiver'
         ∧ state.GetBalance receiver' (tx.Asset t)
           = u64 (state.balance_of
                    (default ∅ (state.Balances <$> state.accounts (chain.stateDB c) !! tx.To t))
                    (tx.Asset t) + tx.Amount t)
         ∧ state.Staked receiver'
           = default 0 (state.Staked <$> state.accounts (chain.stateDB c) !! tx.To t)).
Proof.
  intros Hne Hs Hbal. unfold chain.processTransaction, state.GetAccount.
  rewrite Hs. cbn [fmap option_fmap option_map]. rewrite Copy_id.
  destruct (_ <? _) eqn:E; [apply Z.ltb_lt in E; lia|].
  eexists. split; [reflexivity|].
  cbn [chain.with_stateDB chain.stateDB state.SetAccount state.accounts].
  split.
  - eexists. rewrite lookup_insert_ne by (intros Heq; apply Hne; now symmetry).
    rewrite lookup_insert_eq. split; [reflexivity|].
    rewrite Copy_id. cbn. split; [|split; reflexivity].
    apply GetBalance_SetBalance.
  - eexists. rewrite lookup_insert_eq. split; [reflexivity|].
    rewrite Copy_id. rewrite GetBalance_SetBalance.
    destruct (state.accounts (chain.stateDB c) !! tx.To t) as [r|]; cbn.
    + rewrite Copy_id. split; reflexivity.
    + split; reflexivity.
Qed.

(** A burn without recipient passes [Verify], and its amount is credited to
    the account whose address is the empty string. *)
Lemma burn_credits_empty_address :
  tx.Verify scenario.tx_burn = None
  ∧ ∃ c', chain.processTransaction scenario.chain_A1000 scenario.tx_burn = (c', None)
      ∧ (λ a, state.GetBalance a "GYDS") <$> state.accounts (chain.stateDB c') !! ""
        = Some 100
      ∧ (λ a, state.GetBalance a "GYDS") <$> state.accounts (chain.stateDB c') !! "A"
        = Some 899
      ∧ state.assets (chain.stateDB c') = ∅.
Proof.
  split; [vm_compute; reflexivity|].
  eexists. split; [vm_compute; reflexivity|].
  repeat split; vm_compute; reflexivity.
Qed.

(** C10. Where the claim breaks: a transaction whose [From] and [To] are the
    same address. [sender] and [receiver] are two copies of the same account;
    the receiver copy (balance plus [amount], old nonce) is stored last and
    overwrites the debited sender copy. The fee is not debited, the nonce is
    not incremented, and the balance grows by [amount]. *)
Theorem processTransaction_self_transfer :
  tx.Verify scenario.tx_self = None
  ∧ ∃ c', chain.processTransaction scenario.chain_A1000 scenario.tx_self = (c', None)
      ∧ (λ a, (state.GetBalance a "GYDS", state.Nonce a))
          <$> state.accounts (chain.stateDB scenario.chain_A1000) !! "A"
        = Some (1000, 0)
      ∧ (λ a, (state.GetBalance a "GYDS", state.Nonce a))
          <$> state.accounts (chain.stateDB c') !! "A"
        = Some (1100, 0).
Proof.
  split; [vm_compute; reflexivity|].
  eexists. split; [vm_compute; reflexivity|].
  split; vm_compute; reflexivity.
Qed.

(** The failing round of [process_all] keeps what the rounds before it did. *)
Lemma process_all_stops_late (c c1 c2 : chain.Chain) (t1 t2 : tx.Transaction)
  (rest : list tx.Transaction) (e : error) :
  chain.processTransaction c t1 = (c1, None) →
  chain.processTransaction c1 t2 = (c2, Some e) →
  chain.process_all c (t1 :: t2 :: rest) = (c1, Some e).
Proof.
  intros H1 H2. cbn [chain.process_all]. rewrite H1, H2.
  now rewrite (processTransaction_error_unchanged _ _ _ _ H2).
Qed.

(** C1. Where the claim breaks: a block whose first transaction applies and
    whose second fails the balance check. [AddBlock] returns the error, the
    block is not stored, and the store keeps the first transaction's effect:
    ["A"] went from 1000 to 899 with nonce 1 and ["B"] now exists with 100.
    This holds for any hash functions. *)
Theorem AddBlock_error_keeps_partial_state
  (TxHash : tx.Transaction → list Z) (Sum256 : list Z → list Z)
  (EncodeToString : list Z → string) (BlockHash : chain.Block → string) :
  let block := scenario.two_tx_block TxHash Sum256 EncodeToString in
  ∃ c',
    chain.AddBlock TxHash Sum256 EncodeToString BlockHash scenario.chain_A1000 block 0
      = (c', Some (ErrNew "insufficient balance"))
    ∧ chain.blocks c' = ∅
    ∧ (λ a, (state.GetBalance a "GYDS", state.Nonce a))
        <$> state.accounts (chain.stateDB scenario.chain_A1000) !! "A" = Some (1000, 0)
    ∧ state.accounts (chain.stateDB scenario.chain_A1000) !! "B" = None
    ∧ (λ a, (state.GetBalance a "GYDS", state.Nonce a))
        <$> state.accounts (chain.stateDB c') !! "A" = Some (899, 1)
    ∧ (λ a, state.GetBalance a "GYDS")
        <$> state.accounts (chain.stateDB c') !! "B" = Some 100
    ∧ chain.stateDB c' ≠ chain.stateDB scenario.chain_A1000.
Proof.
  intros block.
  assert (Hverify : chain.Verify TxHash Sum256 EncodeToString block 0 = None).
  { unfold chain.Verify, block, scenario.two_tx_block.
    cbn [chain.Header_ chain.Transactions chain.Validate scenario.header_at
         chain.Timestamp chain.Height chain.ParentHash chain.TxRoot].
    cbn [chain.verify_all]. change (tx.Verify scenario.tx_ok) with (@None error).
    change (tx.Verify scenario.tx_too_much) with (@None error).
    cbn -[chain.merkleRoot]. now rewrite String.eqb_refl. }
  unfold chain.AddBlock. rewrite Hverify.
  change (chain.Height (chain.Header_ block)) with 0.
  change (chain.Transactions block) with [scenario.tx_ok; scenario.tx_too_much].
  cbn [Z.gtb Z.compare andb].
  change (chain.blocks scenario.chain_A1000) with (∅ : gmap string chain.Block).
  rewrite lookup_empty.
  rewrite bool_decide_eq_false_2 by (intros [x Hx]; discriminate).
  eexists. split; [vm_compute; reflexivity|].
  split; [reflexivity|].
  repeat split; try (vm_compute; reflexivity).
  intros Heq. apply (f_equal (λ s, state.accounts s !! "B")) in Heq.
  vm_compute in Heq. discriminate.
Qed.

(** ** pos: slashing a validator *)

Lemma sum_delegations_singleton (d : string) (x : Z) :
  pos.sum_delegations {[d := x]} = x.
Proof.
  unfold pos.sum_delegations. rewrite map_fold_singleton. lia.
Qed.

(** When the self-stake covers the slash, the slash comes out of the
    self-stake alone and the stake invariant is kept. *)
Lemma Slash_covered_by_self_stake (v : pos.Validator) (percentage : Z) (reason : string)
  (height now : Z) :
  let amount := u64 (pos.TotalStake v * percentage) / 100 in
  pos.stake_invariant v →
  amount <= pos.SelfStake v →
  pos.SelfStake v <= pos.TotalStake v < 2 ^ 64 →
  let v' := (pos.Slash v percentage reason height now).1 in
  (pos.Slash v percentage reason height now).2 = amount
  ∧ pos.SelfStake v' = pos.SelfStake v - amount
  ∧ pos.Delegations v' = pos.Delegations v
  ∧ pos.TotalStake v' = pos.TotalStake v - amount
  ∧ pos.stake_invariant v'.
Proof.
  intros amount Hinv Hle Hrange. unfold pos.Slash. fold amount.
  assert (Hamount : 0 <= amount).
  { unfold amount. apply Z.div_pos; [apply u64_range | lia]. }
  destruct (pos.SelfStake v >=? amount) eqn:E.
  2:{ rewrite Z.geb_leb in E. apply Z.leb_gt in E. lia. }
  cbn. rewrite !u64_small by lia.
  split_and!; try reflexivity. unfold pos.stake_invariant in *. cbn. lia.
Qed.

(** C4. Where the claim breaks: self-stake 10, one delegation of 90, total
    100, slashed by 50 percent. The slash amount is 50; the self-stake gives
    10, the remainder is 40, but the loop divides by [TotalStake - SelfStake]
    after [SelfStake] was set to 0, so the delegator loses 90 * 40 / 100 = 36
    instead of 40. The total drops to 50 while self-stake plus delegations is
    54: the stake invariant no longer holds. *)
Theorem Slash_breaks_stake_invariant :
  let v := scenario.validator_10_90 in
  let v' := (pos.Slash v 50 "double_sign" 7 0).1 in
  pos.stake_invariant v
  ∧ (pos.Slash v 50 "double_sign" 7 0).2 = 50
  ∧ pos.SelfStake v' = 0
  ∧ pos.Delegations v' = {[ "D" := 54 ]}
  ∧ pos.TotalStake v' = 50
  ∧ ¬ pos.stake_invariant v'.
Proof.
  cbv zeta.
  assert (Hd : pos.Delegations (pos.Slash scenario.validator_10_90 50 "double_sign" 7 0).1
               = {[ "D" := 54 ]}) by (vm_compute; reflexivity).
  assert (Hd0 : pos.Delegations scenario.validator_10_90 = {[ "D" := 90 ]})
    by (vm_compute; reflexivity).
  split_and!.
  - unfold pos.stake_invariant. rewrite Hd0, sum_delegations_singleton.
    vm_compute. reflexivity.
  - vm_compute. reflexivity.
  - vm_compute. reflexivity.
  - exact Hd.
  - vm_compute. reflexivity.
  - unfold pos.stake_invariant. rewrite Hd, sum_delegations_singleton.
    vm_compute. discriminate.
Qed.

(** ** pos: the signing window *)

(** C5. Where the claim breaks: under the default parameters (window 1000) a
    freshly created record has counter 0 and 1000 [false] slots; after three
    missed blocks at heights 0, 1 and 2 the counter is 1 (each miss first
    decrements for the never-written [false] slot it lands on) while 1000
    slots are [false]; after three signed blocks the counter is 0 and 997
    slots are [false]. *)
Theorem SignBlock_counter_is_not_false_count :
  let k0 := pos.NewSlashingKeeper pos.DefaultSlashingParams in
  let fresh := (pos.getOrCreateSigningInfo k0 "V").2 in
  let observe (r : go pos.SlashingKeeper) :=
    match r with
    | Done k =>
        (λ i, (pos.MissedBlocksCounter i, pos.count_false (pos.SignedBlocksBitmap i)))
          <$> pos.signingInfo k !! "V"
    | Panic _ => None
    end in
  (pos.MissedBlocksCounter fresh, pos.count_false (pos.SignedBlocksBitmap fresh)) = (0, 1000)
  ∧ observe (pos.sign_blocks k0 "V" [(0, false); (1, false); (2, false)]) = Some (1, 1000)
  ∧ observe (pos.sign_blocks k0 "V" [(0, true); (1, true); (2, true)]) = Some (0, 997).
Proof. cbv zeta. split_and!; vm_compute; reflexivity. Qed.

(** ** pos: the active list and the proposer walk *)

Lemma insert_by_stake_Forall (P : pos.Validator → Prop) v l :
  P v → Forall P l → Forall P (pos.insert_by_stake v l).
Proof.
  intros Hv Hl. induction Hl as [|x l Hx Hl IH]; cbn.
  - by constructor.
  - destruct (_ >? _); repeat constructor; assumption.
Qed.

Lemma insert_by_stake_sorted v l :
  StronglySorted by_stake_desc l → StronglySorted by_stake_desc (pos.insert_by_stake v l).
Proof.
  induction 1 as [|x l Hs IH Hx]; cbn.
  - repeat constructor.
  - destruct (pos.TotalStake v >? pos.TotalStake x) eqn:E.
    + rewrite Z.gtb_ltb in E. apply Z.ltb_lt in E.
      constructor; [by constructor|].
      constructor; [unfold by_stake_desc; lia|].
      eapply Forall_impl; [exact Hx|]. unfold by_stake_desc. intros; lia.
    + rewrite Z.gtb_ltb in E. apply Z.ltb_ge in E.
      constructor; [exact IH|].
      apply insert_by_stake_Forall; [exact E | exact Hx].
Qed.

Lemma sort_by_stake_sorted l : StronglySorted by_stake_desc (pos.sort_by_stake l).
Proof.
  induction l as [|v l IH]; cbn; [constructor | by apply insert_by_stake_sorted].
Qed.

Lemma sort_by_stake_Forall (P : pos.Validator → Prop) l :
  Forall P l → Forall P (pos.sort_by_stake l).
Proof.
  induction 1; cbn; [constructor | by apply insert_by_stake_Forall].
Qed.

Lemma StronglySorted_take {A} (R : A → A → Prop) (l : list A) n :
  StronglySorted R l → StronglySorted R (take n l).
Proof.
  intros Hs. revert n. induction Hs as [|x l Hs IH Hx]; intros [|n]; cbn; try constructor.
  - apply IH.
  - by apply Forall_take.
Qed.

(** What [updateValidatorList] guarantees whatever the order of equal stakes:
    the list is sorted by stake, descending, and holds only active validators
    with at least the minimum stake. *)
Lemma active_list_sorted (e : pos.Engine) :
  StronglySorted by_stake_desc (pos.active_list e)
  ∧ Forall (λ v, pos.Active v = true ∧ pos.minStake e <= pos.TotalStake v) (pos.active_list e).
Proof.
  unfold pos.active_list.
  set (l := List.filter _ _).
  assert (Hall : Forall (λ v, pos.Active v = true ∧ pos.minStake e <= pos.TotalStake v)
                   (pos.sort_by_stake l)).
  { apply sort_by_stake_Forall. apply List.Forall_forall. intros v Hv.
    apply List.filter_In in Hv as [_ Hv]. unfold pos.eligible in Hv.
    apply andb_prop in Hv as [Ha Hs]. split; [exact Ha|].
    rewrite Z.geb_leb in Hs. by apply Z.leb_le. }
  destruct (_ >? _).
  - split; [apply StronglySorted_take, sort_by_stake_sorted | by apply Forall_take].
  - split; [apply sort_by_stake_sorted | exact Hall].
Qed.

Lemma cumulative_from_cons c v l :
  pos.cumulative_from c (v :: l) = pos.cumulative_from (u64 (c + pos.TotalStake v)) l.
Proof. reflexivity. Qed.

Lemma walk_found l : ∀ c t v,
  pos.walk l c t = Some v →
  ∃ l1 l2, l = l1 ++ v :: l2
    ∧ (∀ k, (1 <= k <= length l1)%nat → pos.cumulative_from c (take k l1) <= t)
    ∧ t < pos.cumulative_from c (l1 ++ [v]).
Proof.
  induction l as [|x l IH]; intros c t v H; [discriminate|].
  cbn [pos.walk] in H.
  destruct (u64 (c + pos.TotalStake x) >? t) eqn:E.
  - inversion H; subst. exists [], l. split; [reflexivity|]. split.
    + intros k Hk. cbn in Hk. lia.
    + cbn. rewrite Z.gtb_ltb in E. by apply Z.ltb_lt.
  - rewrite Z.gtb_ltb in E. apply Z.ltb_ge in E.
    destruct (IH _ _ _ H) as (l1 & l2 & -> & Hpre & Hv).
    exists (x :: l1), l2. split; [reflexivity|]. split.
    + intros [|k] Hk; [lia|]. cbn [take]. rewrite cumulative_from_cons.
      destruct k as [|k]; [by rewrite take_0|].
      apply Hpre. cbn in Hk. lia.
    + exact Hv.
Qed.

Lemma walk_not_found l : ∀ c t,
  pos.walk l c t = None →
  ∀ k, (1 <= k <= length l)%nat → pos.cumulative_from c (take k l) <= t.
Proof.
  induction l as [|x l IH]; intros c t H k Hk; [cbn in Hk; lia|].
  cbn [pos.walk] in H.
  destruct (u64 (c + pos.TotalStake x) >? t) eqn:E; [discriminate|].
  rewrite Z.gtb_ltb in E. apply Z.ltb_ge in E.
  destruct k as [|k]; [lia|]. cbn [take]. rewrite cumulative_from_cons.
  destruct k as [|k]; [by rewrite take_0|].
  apply IH; [exact H|]. cbn in Hk. lia.
Qed.

(** C2, as the code has it. With a non-empty active list and a non-zero
    engine total, [SelectLeader r] takes [target = r mod e.totalStake], where
    [e.totalStake] is the engine's running total over every registered
    validator, and returns the first validator of the list at which the
    cumulative stake exceeds [target], or the first validator of the list when
    the cumulative stake never does. It records round and leader and changes
    nothing else, so the same call on the resulting engine returns the same
    validator. *)
Theorem SelectLeader_walks_engine_total (e : pos.Engine) (r : Z)
  (first : pos.Validator) (rest : list pos.Validator) :
  pos.validatorList e = first :: rest →
  pos.totalStake e ≠ 0 →
  let target := r mod pos.totalStake e in
  ∃ v,
    pos.SelectLeader e r = Done (pos.set_round e r (pos.Address v), (Some v, None))
    ∧ ((∃ l1 l2, pos.validatorList e = l1 ++ v :: l2
          ∧ (∀ k, (1 <= k <= length l1)%nat → pos.cumulative (take k l1) <= target)
          ∧ target < pos.cumulative (l1 ++ [v]))
       ∨ (v = first
          ∧ ∀ k, (1 <= k <= length (pos.validatorList e))%nat →
                 pos.cumulative (take k (pos.validatorList e)) <= target))
    ∧ pos.SelectLeader (pos.set_round e r (pos.Address v)) r
      = Done (pos.set_round e r (pos.Address v), (Some v, None)).
Proof.
  intros Hl Ht target. unfold pos.SelectLeader.
  cbn [pos.set_round pos.validatorList pos.totalStake].
  rewrite Hl. rewrite <- Hl.
  destruct (pos.totalStake e =? 0) eqn:E; [apply Z.eqb_eq in E; contradiction|].
  fold target.
  destruct (pos.walk (pos.validatorList e) 0 target) as [v|] eqn:Hw.
  - exists v. split; [reflexivity|]. split; [|reflexivity].
    left. apply walk_found in Hw. exact Hw.
  - exists first. split; [reflexivity|]. split; [|reflexivity].
    right. split; [reflexivity|]. by apply walk_not_found.
Qed.

Lemma SelectLeader_walks_engine_total_witness :
  ∃ v,
    pos.SelectLeader scenario.engine_ABC 80
      = Done (pos.set_round scenario.engine_ABC 80 (pos.Address v), (Some v, None))
    ∧ ((∃ l1 l2, pos.validatorList scenario.engine_ABC = l1 ++ v :: l2
          ∧ (∀ k, (1 <= k <= length l1)%nat →
                  pos.cumulative (take k l1) <= 80 mod pos.totalStake scenario.engine_ABC)
          ∧ 80 mod pos.totalStake scenario.engine_ABC < pos.cumulative (l1 ++ [v]))
       ∨ (v = pos.NewValidator "C" "pkC" 30 0
          ∧ ∀ k, (1 <= k <= length (pos.validatorList scenario.engine_ABC))%nat →
                 pos.cumulative (take k (pos.validatorList scenario.engine_ABC))
                 <= 80 mod pos.totalStake scenario.engine_ABC))
    ∧ pos.SelectLeader (pos.set_round scenario.engine_ABC 80 (pos.Address v)) 80
      = Done (pos.set_round scenario.engine_ABC 80 (pos.Address v), (Some v, None)).
Proof.
  apply (SelectLeader_walks_engine_total scenario.engine_ABC 80
           (pos.NewValidator "C" "pkC" 30 0) [pos.NewValidator "B" "pkB" 20 0]).
  - vm_compute. reflexivity.
  - vm_compute. discriminate.
Defined.

(** C2, where the claim breaks. Three validators with stakes 10, 20 and 30
    register into an engine that keeps two. The active list is [C; B] (as the
    specification's rule also gives), its stakes sum to 50, but the engine's
    total is 60. For round 80 the code takes 80 mod 60 = 20 and returns C; the
    rule of the claim takes 80 mod 50 = 30 and gives B. *)
Lemma SelectLeader_differs_from_active_sum :
  pos.validatorList scenario.engine_ABC = pos.spec_active_list scenario.engine_ABC
  ∧ pos.Address <$> pos.validatorList scenario.engine_ABC = ["C"; "B"]
  ∧ pos.totalStake scenario.engine_ABC = 60
  ∧ pos.sum_stake (pos.validatorList scenario.engine_ABC) = 50
  ∧ (∃ e' v, pos.SelectLeader scenario.engine_ABC 80 = Done (e', (Some v, None))
             ∧ pos.Address v = "C")
  ∧ (∃ v, pos.spec_select (pos.spec_active_list scenario.engine_ABC) 80 = Some v
          ∧ pos.Address v = "B").
Proof.
  split_and!; try (vm_compute; reflexivity).
  - eexists _, _. split; vm_compute; reflexivity.
  - eexists. split; vm_compute; reflexivity.
Qed.

Lemma sum_stake_cons v l : pos.sum_stake (v :: l) = pos.TotalStake v + pos.sum_stake l.
Proof. reflexivity. Qed.

Lemma sum_stake_nonneg l :
  Forall (λ v, 0 <= pos.TotalStake v) l → 0 <= pos.sum_stake l.
Proof.
  induction 1 as [|x l Hx Hl IH]; [cbn; lia|]. rewrite sum_stake_cons. lia.
Qed.

Lemma cumulative_from_no_wrap l : ∀ c,
  Forall (λ v, 0 <= pos.TotalStake v) l →
  0 <= c → c + pos.sum_stake l < 2 ^ 64 →
  pos.cumulative_from c l = c + pos.sum_stake l.
Proof.
  induction l as [|x l IH]; intros c Hall Hc Hsum; [cbn in *; lia|].
  inversion Hall as [|? ? Hx Hl]; subst.
  pose proof (sum_stake_nonneg l Hl).
  rewrite sum_stake_cons in *. rewrite cumulative_from_cons.
  rewrite u64_small by lia. rewrite IH by (assumption || lia). lia.
Qed.

Lemma walk_reaches l : ∀ c t,
  Forall (λ v, 0 <= pos.TotalStake v) l →
  0 <= c → c + pos.sum_stake l < 2 ^ 64 → c <= t < c + pos.sum_stake l →
  is_Some (pos.walk l c t).
Proof.
  induction l as [|x l IH]; intros c t Hall Hc Hsum Ht; [cbn in *; lia|].
  inversion Hall as [|? ? Hx Hl]; subst.
  pose proof (sum_stake_nonneg l Hl).
  rewrite sum_stake_cons in *. cbn [pos.walk].
  rewrite u64_small by lia.
  destruct (_ >? _) eqn:E; [by apply mk_is_Some with x|].
  rewrite Z.gtb_ltb in E. apply Z.ltb_ge in E.
  apply IH; (assumption || lia).
Qed.

(** When the engine's total equals the sum of the stakes on the active list
    (every registered validator is on the list), the walk is the one the
    specification describes and the fallback is never taken. *)
Lemma SelectLeader_is_spec_walk_when_totals_agree (e : pos.Engine) (r : Z) :
  pos.validatorList e ≠ [] →
  Forall (λ v, 0 <= pos.TotalStake v) (pos.validatorList e) →
  pos.totalStake e = pos.sum_stake (pos.validatorList e) →
  0 < pos.totalStake e < 2 ^ 64 →
  ∃ v, pos.spec_select (pos.validatorList e) r = Some v
    ∧ pos.SelectLeader e r = Done (pos.set_round e r (pos.Address v), (Some v, None)).
Proof.
  intros Hne Hall Htot Hrange. unfold pos.spec_select, pos.SelectLeader.
  destruct (pos.validatorList e) as [|first rest] eqn:Hl; [contradiction|].
  destruct (pos.totalStake e =? 0) eqn:E; [apply Z.eqb_eq in E; lia|].
  rewrite <- Htot.
  destruct (walk_reaches (first :: rest) 0 (r mod pos.totalStake e)) as [v Hv];
    try (assumption || lia).
  - pose proof (Z.mod_pos_bound r (pos.totalStake e)). lia.
  - exists v. rewrite Hv. split; reflexivity.
Qed.
(** ** tx: the priority queue *)

Lemma gas_at_lookup (q : list tx.MempoolTx) k a :
  q !! k = Some a → tx.gas_at q k = tx.GasPrice a.
Proof. intros H. unfold tx.gas_at. now rewrite H. Qed.

Lemma Less_gas (q : list tx.MempoolTx) i j :
  (i < length q)%nat → (j < length q)%nat →
  tx.Less q i j = (tx.gas_at q i >? tx.gas_at q j).
Proof.
  intros Hi Hj. unfold tx.Less, tx.gas_at.
  destruct (lookup_lt_is_Some_2 q i Hi) as [a ->].
  destruct (lookup_lt_is_Some_2 q j Hj) as [b ->]. reflexivity.
Qed.

Lemma Swap_length (q : list tx.MempoolTx) i j : length (tx.Swap q i j) = length q.
Proof.
  unfold tx.Swap. destruct (q !! i), (q !! j); rewrite ?length_insert; reflexivity.
Qed.

Lemma Swap_lookup (q : list tx.MempoolTx) i j k :
  (i < length q)%nat → (j < length q)%nat →
  tx.Swap q i j !! k =
    if decide (k = i) then q !! j else if decide (k = j) then q !! i else q !! k.
Proof.
  intros Hi Hj. unfold tx.Swap.
  destruct (lookup_lt_is_Some_2 q i Hi) as [a Ha].
  destruct (lookup_lt_is_Some_2 q j Hj) as [b Hb].
  rewrite Ha, Hb.
  destruct (decide (k = i)) as [->|Hki].
  - rewrite list_lookup_insert_eq by (rewrite length_insert; exact Hi). reflexivity.
  - rewrite list_lookup_insert_ne by (intros Heq; apply Hki; now symmetry).
    destruct (decide (k = j)) as [->|Hkj].
    + rewrite list_lookup_insert_eq by exact Hj. reflexivity.
    + rewrite list_lookup_insert_ne by (intros Heq; apply Hkj; now symmetry). reflexivity.
Qed.

Lemma Swap_gas (q : list tx.MempoolTx) i j k :
  (i < length q)%nat → (j < length q)%nat →
  tx.gas_at (tx.Swap q i j) k =
    if decide (k = i) then tx.gas_at q j
    else if decide (k = j) then tx.gas_at q i else tx.gas_at q k.
Proof.
  intros Hi Hj. unfold tx.gas_at. rewrite Swap_lookup by assumption.
  repeat case_decide; reflexivity.
Qed.

Lemma Swap_elem_of (q : list tx.MempoolTx) i j x :
  (i < length q)%nat → (j < length q)%nat →
  x ∈ tx.Swap q i j ↔ x ∈ q.
Proof.
  intros Hi Hj. rewrite !list_elem_of_lookup. split; intros [k Hk].
  - rewrite Swap_lookup in Hk by assumption. repeat case_decide; eauto.
  - destruct (decide (k = i)) as [->|Hki].
    + exists j. rewrite Swap_lookup by assumption.
      destruct (decide (j = i)) as [->|]; [exact Hk|].
      rewrite decide_True by reflexivity. exact Hk.
    + destruct (decide (k = j)) as [->|Hkj].
      * exists i. rewrite Swap_lookup by assumption.
        rewrite decide_True by reflexivity. exact Hk.
      * exists k. rewrite Swap_lookup by assumption.
        rewrite decide_False by exact Hki. rewrite decide_False by exact Hkj. exact Hk.
Qed.

Lemma heap_upto_ordered n (q : list tx.MempoolTx) :
  (n <= length q)%nat → tx.heap_upto n q ↔ ordered_upto n q.
Proof.
  intros Hn. unfold tx.heap_upto, ordered_upto. split.
  - intros H p c Hc Hch.
    assert (Hp : (p < length q)%nat) by (destruct Hch; lia).
    destruct (lookup_lt_is_Some_2 q p Hp) as [a Ha].
    destruct (lookup_lt_is_Some_2 q c ltac:(lia)) as [b Hb].
    rewrite (gas_at_lookup _ _ _ Ha), (gas_at_lookup _ _ _ Hb). eauto.
  - intros H i c a b Hc Hch Ha Hb.
    rewrite <- (gas_at_lookup _ _ _ Ha), <- (gas_at_lookup _ _ _ Hb). eauto.
Qed.

Lemma is_heap_ordered (q : list tx.MempoolTx) :
  tx.is_heap q = true ↔ tx.heap_ordered q.
Proof.
  unfold tx.heap_ordered. rewrite heap_upto_ordered by reflexivity.
  unfold tx.is_heap, ordered_upto. rewrite forallb_forall. split.
  - intros H p c Hc Hch.
    assert (Hin : In c (seq 1 (length q - 1))) by (apply in_seq; destruct Hch; lia).
    specialize (H c Hin). apply Z.leb_le in H.
    replace p with ((c - 1) / 2)%nat; [exact H|].
    destruct Hch as [-> | ->].
    + replace (2 * p + 1 - 1)%nat with (p * 2)%nat by lia. apply Nat.div_mul. lia.
    + replace (2 * p + 2 - 1)%nat with (1 + p * 2)%nat by lia.
      rewrite Nat.div_add by lia. reflexivity.
  - intros H c Hin. apply in_seq in Hin. apply Z.leb_le. apply H; [lia|].
    unfold tx.child_of.
    pose proof (Nat.div_mod_eq (c - 1) 2) as Hd.
    pose proof (Nat.mod_upper_bound (c - 1) 2 ltac:(lia)). lia.
Qed.

(** [(j - 1) / 2] is the parent of a slot [j >= 1]. *)
Lemma parent_child j : (1 <= j)%nat → tx.child_of ((j - 1) / 2) j.
Proof.
  intros Hj. unfold tx.child_of.
  pose proof (Nat.div_mod_eq (j - 1) 2) as Hd.
  pose proof (Nat.mod_upper_bound (j - 1) 2 ltac:(lia)). lia.
Qed.

Lemma child_parent p c : tx.child_of p c → p = ((c - 1) / 2)%nat ∧ (p < c)%nat.
Proof.
  intros [-> | ->]; (split; [|lia]).
  - replace (2 * p + 1 - 1)%nat with (p * 2)%nat by lia. symmetry. apply Nat.div_mul. lia.
  - replace (2 * p + 2 - 1)%nat with (1 + p * 2)%nat by lia.
    rewrite Nat.div_add by lia. reflexivity.
Qed.

Lemma up_length fuel : ∀ (q : list tx.MempoolTx) j, length (tx.up fuel q j) = length q.
Proof.
  induction fuel as [|fuel IH]; intros q j; [reflexivity|]. cbn [tx.up].
  destruct (_ || _); [reflexivity|]. rewrite IH. apply Swap_length.
Qed.

Lemma up_elem_of fuel : ∀ (q : list tx.MempoolTx) j x,
  (j < length q)%nat → x ∈ tx.up fuel q j ↔ x ∈ q.
Proof.
  induction fuel as [|fuel IH]; intros q j x Hj; [reflexivity|]. cbn [tx.up].
  assert (Hi : ((j - 1) / 2 <= j)%nat).
  { etransitivity; [apply Nat.Div0.div_le_upper_bound with (q := j); lia | lia]. }
  destruct (_ || _); [reflexivity|].
  rewrite IH by (rewrite Swap_length; lia).
  apply Swap_elem_of; lia.
Qed.

Lemma up_ordered fuel : ∀ (q : list tx.MempoolTx) j,
  (j < fuel)%nat → (j < length q)%nat → up_inv j q →
  ordered_upto (length q) (tx.up fuel q j).
Proof.
  induction fuel as [|fuel IH]; intros q j Hf Hj [H1 H2]; [lia|].
  cbn [tx.up]. set (i := ((j - 1) / 2)%nat).
  destruct (i =? j)%nat eqn:Eij.
  - apply Nat.eqb_eq in Eij. cbn [orb].
    assert (j = 0%nat) as ->.
    { destruct (decide (j = 0%nat)) as [|Hn]; [assumption|].
      destruct (child_parent i j) as [_ ?]; [apply parent_child; lia | lia]. }
    intros p c Hc Hch. apply H1; [exact Hc | destruct Hch; lia | exact Hch].
  - apply Nat.eqb_neq in Eij. cbn [orb].
    assert (Hj1 : (1 <= j)%nat).
    { destruct (decide (j = 0%nat)) as [->|]; [|lia]. exfalso. apply Eij. reflexivity. }
    pose proof (parent_child j Hj1) as Hpar. fold i in Hpar.
    destruct (child_parent _ _ Hpar) as [_ Hij].
    rewrite Less_gas by lia.
    destruct (tx.gas_at q j >? tx.gas_at q i) eqn:E; cbn [negb].
    + rewrite Z.gtb_ltb in E. apply Z.ltb_lt in E.
      rewrite <- (Swap_length q i j).
      apply IH; [lia | rewrite Swap_length; lia |].
      split; intros p c Hc; rewrite Swap_length in Hc.
      * intros Hci Hch. rewrite !Swap_gas by lia.
        destruct (child_parent _ _ Hch) as [Hp Hpc].
        destruct (decide (c = i)) as [|_]; [contradiction|].
        destruct (decide (c = j)) as [->|Hcj].
        -- destruct (child_parent _ _ Hpar) as [Hp' _].
           assert (p = i) as -> by congruence.
           rewrite decide_True by reflexivity. lia.
        -- destruct (decide (p = i)) as [->|Hpi].
           ++ specialize (H1 i c Hc Hcj Hch). lia.
           ++ destruct (decide (p = j)) as [->|Hpj].
              ** apply (H2 i c Hc Hpar Hch).
              ** apply H1; assumption.
      * intros Hpi Hch. rewrite !Swap_gas by lia.
        destruct (child_parent _ _ Hpi) as [_ Hlt].
        destruct (child_parent _ _ Hch) as [_ Hlt'].
        rewrite (decide_False (P := c = i)) by lia.
        rewrite (decide_False (P := p = i)) by lia.
        rewrite (decide_False (P := p = j)) by lia.
        assert (Hip : tx.gas_at q i <= tx.gas_at q p) by (apply H1; [lia | lia | exact Hpi]).
        destruct (decide (c = j)) as [->|Hcj]; [exact Hip|].
        specialize (H1 i c Hc Hcj Hch). lia.
    + rewrite Z.gtb_ltb in E. apply Z.ltb_ge in E.
      intros p c Hc Hch.
      destruct (decide (c = j)) as [->|Hcj].
      * destruct (child_parent _ _ Hch) as [-> _]. exact E.
      * apply H1; assumption.
Qed.

Lemma ordered_upto_nil : ordered_upto 0 [].
Proof. intros p c Hc. lia. Qed.

(** [heap.Push] keeps the heap order, adds exactly the new entry, and grows
    the queue by one. *)
Lemma heap_Push_ordered (q : list tx.MempoolTx) x :
  tx.heap_ordered q → tx.heap_ordered (tx.heap_Push q x).
Proof.
  unfold tx.heap_ordered. intros H.
  rewrite heap_upto_ordered in H by reflexivity.
  rewrite heap_upto_ordered by reflexivity.
  unfold tx.heap_Push. rewrite up_length.
  apply up_ordered; rewrite length_app; cbn; try lia.
  split; intros p c Hc.
  - intros Hcj Hch. destruct (child_parent _ _ Hch) as [_ Hpc].
    rewrite length_app in Hc. cbn in Hc, Hcj.
    unfold tx.gas_at. rewrite !lookup_app_l by lia. apply H; [lia | exact Hch].
  - intros _ Hch. rewrite length_app in Hc. cbn in Hc, Hch.
    destruct (child_parent _ _ Hch). lia.
Qed.

Lemma heap_Push_length (q : list tx.MempoolTx) x :
  length (tx.heap_Push q x) = S (length q).
Proof. unfold tx.heap_Push. rewrite up_length, length_app. cbn. lia. Qed.

Lemma heap_Push_elem_of (q : list tx.MempoolTx) x y :
  y ∈ tx.heap_Push q x ↔ y ∈ q ∨ y = x.
Proof.
  unfold tx.heap_Push. rewrite up_elem_of by (rewrite length_app; cbn; lia).
  rewrite elem_of_app, list_elem_of_singleton. reflexivity.
Qed.

Lemma down_length fuel : ∀ (q : list tx.MempoolTx) i n, length (tx.down fuel q i n) = length q.
Proof.
  induction fuel as [|fuel IH]; intros q i n; [reflexivity|]. cbn [tx.down].
  destruct (_ <=? _)%nat; [reflexivity|].
  destruct (negb _); [reflexivity|]. rewrite IH. apply Swap_length.
Qed.

Lemma down_elem_of fuel : ∀ (q : list tx.MempoolTx) i n x,
  (n <= length q)%nat → x ∈ tx.down fuel q i n ↔ x ∈ q.
Proof.
  induction fuel as [|fuel IH]; intros q i n x Hn; [reflexivity|]. cbn [tx.down].
  destruct (n <=? 2 * i + 1)%nat eqn:E; [reflexivity|].
  apply Nat.leb_gt in E.
  destruct (negb _); [reflexivity|].
  rewrite IH by (rewrite Swap_length; lia).
  apply Swap_elem_of; [lia|].
  destruct (_ && _) eqn:E2; [|lia].
  apply andb_prop in E2 as [E2 _]. apply Nat.ltb_lt in E2. lia.
Qed.

(** [down] leaves the slots from [n] on alone. *)
Lemma down_lookup_ge fuel : ∀ (q : list tx.MempoolTx) i n k,
  (n <= length q)%nat → (n <= k)%nat → tx.down fuel q i n !! k = q !! k.
Proof.
  induction fuel as [|fuel IH]; intros q i n k Hn Hk; [reflexivity|]. cbn [tx.down].
  destruct (n <=? 2 * i + 1)%nat eqn:E; [reflexivity|].
  apply Nat.leb_gt in E.
  destruct (negb _); [reflexivity|].
  set (j := if _ && _ then _ else _).
  assert (Hj : (j < n)%nat).
  { subst j. destruct (_ && _) eqn:E2; [|lia].
    apply andb_prop in E2 as [E2 _]. apply Nat.ltb_lt in E2. lia. }
  rewrite IH by (rewrite ?Swap_length; lia).
  rewrite Swap_lookup by lia.
  rewrite decide_False by lia. rewrite decide_False by lia. reflexivity.
Qed.

Lemma down_ordered fuel : ∀ (q : list tx.MempoolTx) i n,
  (n <= length q)%nat → (n - i <= fuel)%nat → down_inv n i q →
  ordered_upto n (tx.down fuel q i n).
Proof.
  induction fuel as [|fuel IH]; intros q i n Hn Hf [H1 H2].
  - cbn [tx.down]. intros p c Hc Hch.
    destruct (child_parent _ _ Hch) as [_ Hpc].
    apply H1; [exact Hc | lia | exact Hch].
  - cbn [tx.down].
    destruct (n <=? 2 * i + 1)%nat eqn:E.
    { apply Nat.leb_le in E. intros p c Hc Hch.
      apply H1; [exact Hc | | exact Hch].
      intros ->. destruct Hch; lia. }
    apply Nat.leb_gt in E.
    set (j1 := (2 * i + 1)%nat) in *.
    set (j := if _ && _ then _ else _).
    assert (Hjn : (j < n)%nat ∧ tx.child_of i j
                  ∧ ∀ c, (c < n)%nat → tx.child_of i c → tx.gas_at q c <= tx.gas_at q j).
    { subst j. destruct ((j1 + 1 <? n)%nat && tx.Less q (j1 + 1) j1) eqn:E2.
      - apply andb_prop in E2 as [E2 E3]. apply Nat.ltb_lt in E2.
        rewrite Less_gas in E3 by lia.
        rewrite Z.gtb_ltb in E3. apply Z.ltb_lt in E3.
        split; [lia|]. split; [right; subst j1; lia|].
        intros c Hc [-> | ->]; [fold j1; lia|].
        replace (2 * i + 2)%nat with (j1 + 1)%nat by (subst j1; lia). lia.
      - split; [lia|]. split; [left; reflexivity|].
        intros c Hc [-> | ->]; [fold j1; lia|].
        replace (2 * i + 2)%nat with (j1 + 1)%nat in * by (subst j1; lia).
        apply andb_false_iff in E2 as [E2 | E2].
        + apply Nat.ltb_ge in E2. lia.
        + rewrite Less_gas in E2 by lia.
          rewrite Z.gtb_ltb in E2. apply Z.ltb_ge in E2. exact E2. }
    destruct Hjn as (Hjn & Hij & Hmax).
    destruct (child_parent _ _ Hij) as [_ Hlt].
    rewrite Less_gas by lia.
    destruct (tx.gas_at q j >? tx.gas_at q i) eqn:E4; cbn [negb].
    + rewrite Z.gtb_ltb in E4. apply Z.ltb_lt in E4.
      apply IH; [rewrite Swap_length; lia | lia |].
      split; intros p c Hc.
      * intros Hpj Hch. rewrite !Swap_gas by lia.
        destruct (child_parent _ _ Hch) as [Hp Hpc].
        destruct (decide (p = i)) as [->|Hpi].
        -- rewrite (decide_False (P := c = i)) by lia.
           destruct (decide (c = j)) as [->|Hcj]; [lia|].
           apply Hmax; assumption.
        -- rewrite (decide_False (P := p = j)) by exact Hpj.
           destruct (decide (c = i)) as [->|Hci].
           ++ apply (H2 p j Hjn Hch Hij).
           ++ destruct (decide (c = j)) as [->|Hcj].
              ** destruct (child_parent _ _ Hij) as [Hp' _]. congruence.
              ** apply H1; assumption.
      * intros Hpj Hch.
        destruct (child_parent _ _ Hpj) as [Hp _].
        destruct (child_parent _ _ Hij) as [Hp' _].
        assert (p = i) as -> by congruence.
        destruct (child_parent _ _ Hch) as [_ Hjc].
        rewrite !Swap_gas by lia.
        rewrite (decide_False (P := c = i)) by lia.
        rewrite (decide_False (P := c = j)) by lia.
        rewrite (decide_True (P := i = i)) by reflexivity.
        apply H1; [exact Hc | lia | exact Hch].
    + rewrite Z.gtb_ltb in E4. apply Z.ltb_ge in E4.
      intros p c Hc Hch.
      destruct (decide (p = i)) as [->|Hpi].
      * specialize (Hmax c Hc Hch). lia.
      * apply H1; assumption.
Qed.

(** The first slot of a heap holds the highest gas price. *)
Lemma heap_root_max (q : list tx.MempoolTx) :
  ordered_upto (length q) q → ∀ k, (k < length q)%nat → tx.gas_at q k <= tx.gas_at q 0.
Proof.
  intros H k. induction k as [k IH] using lt_wf_ind. intros Hk.
  destruct (decide (k = 0%nat)) as [->|Hk0]; [lia|].
  pose proof (parent_child k ltac:(lia)) as Hpar.
  destruct (child_parent _ _ Hpar) as [_ Hlt].
  specialize (H _ _ Hk Hpar). specialize (IH _ Hlt ltac:(lia)). lia.
Qed.

(** [heap.Pop] on a non-empty heap returns the first slot, which has the
    highest gas price, and leaves a heap made of entries of the old one. *)
Lemma heap_Pop_spec (q : list tx.MempoolTx) :
  (0 < length q)%nat → tx.heap_ordered q →
  ∃ x q', tx.heap_Pop q = Some (x, q')
    ∧ q !! 0%nat = Some x
    ∧ tx.heap_ordered q'
    ∧ length q' = (length q - 1)%nat
    ∧ (∀ y, y ∈ q → tx.GasPrice y <= tx.GasPrice x)
    ∧ (∀ y, y ∈ q' → y ∈ q)
    ∧ (∀ y, y ∈ q → y = x ∨ y ∈ q').
Proof.
  intros Hlen Hheap. unfold tx.heap_ordered in Hheap.
  rewrite heap_upto_ordered in Hheap by reflexivity.
  unfold tx.heap_Pop.
  set (n := (length q - 1)%nat).
  set (q1 := tx.down n (tx.Swap q 0 n) 0 n).
  destruct (lookup_lt_is_Some_2 q 0 Hlen) as [x Hx].
  assert (Hlen1 : length q1 = length q).
  { subst q1. rewrite down_length. apply Swap_length. }
  assert (Hq1n : q1 !! n = Some x).
  { subst q1. rewrite down_lookup_ge by (rewrite ?Swap_length; lia).
    rewrite Swap_lookup by lia.
    destruct (decide (n = 0%nat)) as [->|]; [exact Hx|].
    rewrite decide_True by reflexivity. exact Hx. }
  rewrite Hq1n. exists x, (take n q1). split; [reflexivity|].
  split; [exact Hx|].
  assert (Hord : ordered_upto n q1).
  { subst q1. apply down_ordered; [rewrite Swap_length; lia | lia |].
    split; intros p c Hc.
    - intros Hp Hch. destruct (child_parent _ _ Hch) as [_ Hpc].
      rewrite !Swap_gas by lia.
      rewrite (decide_False (P := c = 0%nat)) by lia.
      rewrite (decide_False (P := c = n)) by lia.
      rewrite (decide_False (P := p = 0%nat)) by lia.
      rewrite (decide_False (P := p = n)) by lia.
      apply Hheap; [lia | exact Hch].
    - intros Hch. destruct Hch; lia. }
  split.
  { unfold tx.heap_ordered. rewrite heap_upto_ordered by reflexivity.
    rewrite length_take. rewrite Hlen1.
    replace (n `min` length q)%nat with n by lia.
    intros p c Hc Hch. destruct (child_parent _ _ Hch) as [_ Hpc].
    unfold tx.gas_at. rewrite !lookup_take_lt by lia. apply Hord; assumption. }
  split; [rewrite length_take; lia|].
  split_and!.
  - intros y Hy. apply list_elem_of_lookup in Hy as [k Hk].
    pose proof (heap_root_max q Hheap k (lookup_lt_Some _ _ _ Hk)) as Hmax.
    rewrite (gas_at_lookup _ _ _ Hk), (gas_at_lookup _ _ _ Hx) in Hmax. exact Hmax.
  - intros y Hy. apply elem_of_take in Hy as (k & Hk & _).
    apply list_elem_of_lookup_2 in Hk. rename Hk into Hy.
    subst q1. apply down_elem_of in Hy; [|rewrite Swap_length; lia].
    apply Swap_elem_of in Hy; [exact Hy | lia | lia].
  - intros y Hy.
    assert (Hy1 : y ∈ q1).
    { subst q1. apply down_elem_of; [rewrite Swap_length; lia|].
      apply Swap_elem_of; [lia | lia | exact Hy]. }
    apply list_elem_of_lookup in Hy1 as [k Hk].
    pose proof (lookup_lt_Some _ _ _ Hk) as Hklt.
    destruct (decide (k = n)) as [->|Hkn].
    + left. congruence.
    + right. apply elem_of_take. exists k. split; [exact Hk | lia].
Qed.

(** ** tx: the mempool keeps its queue a heap *)

Lemma heap_ordered_nil : tx.heap_ordered [].
Proof. intros i c a b Hc. cbn in Hc. lia. Qed.

Lemma fold_Push_ordered (l : list (string * tx.MempoolTx)) : ∀ q,
  tx.heap_ordered q → tx.heap_ordered (fold_left (λ q kv, tx.heap_Push q kv.2) l q).
Proof.
  induction l as [|kv l IH]; intros q Hq; [exact Hq|].
  cbn [fold_left]. apply IH. by apply heap_Push_ordered.
Qed.

Lemma rebuildQueue_ordered (mp : tx.Mempool) :
  tx.heap_ordered (tx.queue (tx.rebuildQueue mp)).
Proof. unfold tx.rebuildQueue. cbn. apply fold_Push_ordered, heap_ordered_nil. Qed.

Lemma evictLowest_ordered (mp : tx.Mempool) (g : Z) :
  tx.heap_ordered (tx.queue mp) → tx.heap_ordered (tx.queue (tx.evictLowest mp g).1).
Proof.
  intros H. unfold tx.evictLowest.
  destruct (_ =? _)%nat; [exact H|].
  destruct (_ !! _); [|exact H].
  destruct (_ >=? _); [exact H|]. apply rebuildQueue_ordered.
Qed.

(** [NewMempool] starts with a heap and [AddTx] keeps it one. *)
Lemma NewMempool_ordered (cfg : tx.MempoolConfig) :
  tx.heap_ordered (tx.queue (tx.NewMempool cfg)).
Proof. apply heap_ordered_nil. Qed.

Lemma AddTx_ordered (Size : tx.Transaction → Z) (HashHex : tx.Transaction → string)
  (mp : tx.Mempool) (t : tx.Transaction) (now : Z) :
  tx.heap_ordered (tx.queue mp) →
  tx.heap_ordered (tx.queue (tx.AddTx Size HashHex mp t now).1).
Proof.
  intros H. unfold tx.AddTx.
  destruct (tx.Verify t); [exact H|].
  destruct (_ >? _); [exact H|].
  destruct (_ <? _); [exact H|].
  destruct (_ !! _); [exact H|].
  destruct (_ >=? _).
  - pose proof (evictLowest_ordered mp (tx.Fee t / Size t) H) as He.
    destruct (tx.evictLowest mp (tx.Fee t / Size t)) as [mp1 accepted].
    cbn [fst] in He.
    destruct accepted; cbn [negb]; [|exact He].
    destruct (_ <? _); [exact He|]. cbn. by apply heap_Push_ordered.
  - cbn [negb].
    destruct (_ <? _); [exact H|]. cbn. by apply heap_Push_ordered.
Qed.

Lemma readd_ordered (HashHex : tx.Transaction → string) (l : list tx.Transaction) :
  ∀ mp, tx.heap_ordered (tx.queue mp) → tx.heap_ordered (tx.queue (tx.readd HashHex mp l)).
Proof.
  unfold tx.readd. induction l as [|t l IH]; intros mp H; [exact H|].
  cbn [fold_left]. apply IH.
  destruct (_ !! _); [|exact H]. cbn. by apply heap_Push_ordered.
Qed.

(** ** tx: what [ReapMaxTxs] returns *)

Lemma StronglySorted_snoc {A} (R : A → A → Prop) (l : list A) (x : A) :
  StronglySorted R l → Forall (λ a, R a x) l → StronglySorted R (l ++ [x]).
Proof.
  intros Hs Hall. apply StronglySorted_app. split_and!.
  - intros a b Ha Hb. apply list_elem_of_singleton in Hb as ->.
    rewrite Forall_forall in Hall. by apply Hall.
  - exact Hs.
  - repeat constructor.
Qed.

Lemma reap_loop_sorted (now maxTxs : Z) fuel : ∀ (mp : tx.Mempool) (acc : list tx.MempoolTx),
  tx.heap_ordered (tx.queue mp) →
  StronglySorted tx.gas_desc acc →
  (∀ a y, a ∈ acc → y ∈ tx.queue mp → tx.GasPrice y <= tx.GasPrice a) →
  StronglySorted tx.gas_desc (tx.reap_loop fuel now maxTxs mp acc).2
  ∧ tx.heap_ordered (tx.queue (tx.reap_loop fuel now maxTxs mp acc).1).
Proof.
  induction fuel as [|fuel IH]; intros mp acc Hq Hacc Hle; [by split|].
  cbn [tx.reap_loop].
  destruct (_ && _) eqn:Econd; [|by split].
  apply andb_prop in Econd as [_ Hlen]. apply Nat.ltb_lt in Hlen.
  destruct (heap_Pop_spec _ Hlen Hq) as (x & q' & -> & Hx & Hq' & _ & Hmax & Hsub & _).
  apply list_elem_of_lookup_2 in Hx.
  destruct (_ >? _).
  - apply IH; cbn; [exact Hq' | exact Hacc |].
    intros a y Ha Hy. apply Hle; [exact Ha | by apply Hsub].
  - apply IH; cbn; [exact Hq' | |].
    + apply StronglySorted_snoc; [exact Hacc|].
      apply Forall_forall. intros a Ha. by apply Hle.
    + intros a y Ha Hy. apply elem_of_app in Ha as [Ha | Ha].
      * apply Hle; [exact Ha | by apply Hsub].
      * apply list_elem_of_singleton in Ha as ->. apply Hmax. by apply Hsub.
Qed.

Lemma reap_loop_complete (now maxTxs : Z) fuel : ∀ (mp : tx.Mempool) (acc : list tx.MempoolTx),
  (length (tx.queue mp) <= fuel)%nat →
  Z.of_nat (length acc + length (tx.queue mp)) <= maxTxs →
  tx.heap_ordered (tx.queue mp) →
  (∀ a, a ∈ acc → a ∈ (tx.reap_loop fuel now maxTxs mp acc).2)
  ∧ (∀ y, y ∈ tx.queue mp → now - tx.AddedAt y <= tx.MaxTxAge (tx.config mp) →
          y ∈ (tx.reap_loop fuel now maxTxs mp acc).2).
Proof.
  induction fuel as [|fuel IH]; intros mp acc Hf Hmax Hq.
  - split; [by intros|]. intros y Hy.
    destruct (tx.queue mp); [by apply elem_of_nil in Hy | cbn in Hf; lia].
  - cbn [tx.reap_loop].
    destruct (tx.queue mp) as [|e0 q0] eqn:Eq.
    { rewrite andb_false_r. split; [by intros|]. intros y Hy. by apply elem_of_nil in Hy. }
    rewrite <- Eq in *.
    assert (Hlen : (0 < length (tx.queue mp))%nat) by (rewrite Eq; cbn; lia).
    assert (Hc1 : (Z.of_nat (length acc) <? maxTxs) = true) by (apply Z.ltb_lt; lia).
    assert (Hc2 : (0 <? length (tx.queue mp))%nat = true) by (by apply Nat.ltb_lt).
    rewrite Hc1, Hc2. cbn [andb].
    destruct (heap_Pop_spec _ Hlen Hq) as (x & q' & -> & Hx & Hq' & Hlen' & _ & _ & Hall).
    destruct (now - tx.AddedAt x >? tx.MaxTxAge (tx.config mp)) eqn:Eexp.
    + rewrite Z.gtb_ltb in Eexp. apply Z.ltb_lt in Eexp.
      edestruct (IH (tx.with_txs (tx.with_queue mp q') (delete (tx.Hash x) (tx.txs mp))) acc)
        as [IH1 IH2]; cbn; [lia | lia | exact Hq' |].
      split; [exact IH1|].
      intros y Hy Hfresh. destruct (Hall y Hy) as [-> | Hy']; [lia|].
      by apply IH2.
    + rewrite Z.gtb_ltb in Eexp. apply Z.ltb_ge in Eexp.
      edestruct (IH (tx.with_queue mp q') (acc ++ [x])) as [IH1 IH2]; cbn;
        [lia | rewrite length_app; cbn; lia | exact Hq' |].
      split.
      * intros a Ha. apply IH1, elem_of_app. by left.
      * intros y Hy Hfresh. destruct (Hall y Hy) as [-> | Hy'].
        -- apply IH1, elem_of_app. right. by apply list_elem_of_singleton.
        -- by apply IH2.
Qed.

Lemma StronglySorted_gas_positions (l : list tx.MempoolTx) :
  StronglySorted tx.gas_desc l →
  ∀ i j a b, l !! i = Some a → l !! j = Some b → tx.GasPrice a > tx.GasPrice b → (i < j)%nat.
Proof.
  intros Hs i j a b Ha Hb Hgt.
  destruct (decide (i < j)%nat) as [|Hge]; [assumption|]. exfalso.
  destruct (decide (i = j)) as [->|Hne]; [rewrite Ha in Hb; inversion Hb; subst; lia|].
  assert (Hji : (j < i)%nat) by lia.
  rewrite <- (take_drop i l) in Hs, Hb.
  pose proof (lookup_lt_Some _ _ _ Ha) as Hi.
  rewrite lookup_app_l in Hb by (rewrite length_take; lia).
  assert (Ha' : a ∈ drop i l).
  { apply list_elem_of_lookup. exists 0%nat. rewrite lookup_drop. by rewrite Nat.add_0_r. }
  pose proof (StronglySorted_app_1_elem_of _ _ _ _ _ Hs (list_elem_of_lookup_2 _ _ _ Hb) Ha')
    as Hr.
  unfold tx.gas_desc in Hr. lia.
Qed.

Lemma reap_loop_acc (now maxTxs : Z) fuel : ∀ (mp : tx.Mempool) (acc : list tx.MempoolTx) a,
  a ∈ acc → a ∈ (tx.reap_loop fuel now maxTxs mp acc).2.
Proof.
  induction fuel as [|fuel IH]; intros mp acc a Ha; [exact Ha|].
  cbn [tx.reap_loop].
  destruct (_ && _); [|exact Ha].
  destruct (tx.heap_Pop (tx.queue mp)) as [[mtx q']|]; [|exact Ha].
  destruct (_ >? _); apply IH; [exact Ha|]. apply elem_of_app. by left.
Qed.

(** What the loop leaves behind is never better than what it returns: an
    entry of the queue that has not expired and has a higher gas price than
    some returned entry is returned as well. *)
Lemma reap_loop_top (now maxTxs : Z) fuel : ∀ (mp : tx.Mempool) (acc : list tx.MempoolTx),
  tx.heap_ordered (tx.queue mp) →
  (∀ a y, a ∈ acc → y ∈ tx.queue mp → tx.GasPrice y <= tx.GasPrice a) →
  ∀ y b, y ∈ tx.queue mp → now - tx.AddedAt y <= tx.MaxTxAge (tx.config mp) →
         b ∈ (tx.reap_loop fuel now maxTxs mp acc).2 →
         tx.GasPrice y > tx.GasPrice b →
         y ∈ (tx.reap_loop fuel now maxTxs mp acc).2.
Proof.
  induction fuel as [|fuel IH]; intros mp acc Hq Hle y b Hy Hfresh Hb Hgt.
  { cbn in Hb. specialize (Hle b y Hb Hy). lia. }
  cbn [tx.reap_loop] in *.
  destruct (_ && _) eqn:Econd.
  2: { cbn in Hb. specialize (Hle b y Hb Hy). lia. }
  apply andb_prop in Econd as [_ Hlen]. apply Nat.ltb_lt in Hlen.
  destruct (heap_Pop_spec _ Hlen Hq) as (x & q' & Hpop & Hx & Hq' & _ & Hmax & Hsub & Hall).
  rewrite Hpop in *.
  destruct (now - tx.AddedAt x >? tx.MaxTxAge (tx.config mp)) eqn:Eexp.
  - rewrite Z.gtb_ltb in Eexp. apply Z.ltb_lt in Eexp.
    destruct (Hall y Hy) as [-> | Hy']; [lia|].
    eapply IH; [exact Hq' | | exact Hy' | exact Hfresh | exact Hb | exact Hgt].
    intros a z Ha Hz. apply Hle; [exact Ha | by apply Hsub].
  - destruct (Hall y Hy) as [-> | Hy'].
    + apply reap_loop_acc, elem_of_app. right. by apply list_elem_of_singleton.
    + eapply IH; [exact Hq' | | exact Hy' | exact Hfresh | exact Hb | exact Hgt].
      intros a z Ha Hz. apply elem_of_app in Ha as [Ha | Ha].
      * apply Hle; [exact Ha | by apply Hsub].
      * apply list_elem_of_singleton in Ha as ->. apply Hmax. by apply Hsub.
Qed.

(** C7, as the code has it. On a mempool whose queue is a heap (every queue
    that [NewMempool], [AddTx], [rebuildQueue] and [ReapMaxTxs] produce is),
    [ReapMaxTxs] returns transactions in gas-price order: among the returned
    entries, one with a strictly higher gas price comes before one with a
    lower gas price. The entries it leaves out under a limit are the
    lowest-priced ones: for any entry [a] of the queue that has not expired
    and any returned entry [b] with a lower gas price, [a] is returned too,
    and before [b]. When the limit admits the whole queue, every entry of
    the queue that has not expired is returned. The queue is a heap again
    afterwards. Nothing is promised about the order of equal gas prices. *)
Theorem ReapMaxTxs_gas_price_order (HashHex : tx.Transaction → string)
  (mp : tx.Mempool) (maxTxs now : Z) :
  tx.is_heap (tx.queue mp) = true →
  let entries := tx.reaped_entries mp maxTxs now in
  (tx.ReapMaxTxs HashHex mp maxTxs now).2 = map tx.Tx entries
  ∧ (∀ i j a b, entries !! i = Some a → entries !! j = Some b →
                tx.GasPrice a > tx.GasPrice b → (i < j)%nat)
  ∧ (∀ a b j, a ∈ tx.queue mp → now - tx.AddedAt a <= tx.MaxTxAge (tx.config mp) →
              entries !! j = Some b → tx.GasPrice a > tx.GasPrice b →
              ∃ i, entries !! i = Some a ∧ (i < j)%nat)
  ∧ (Z.of_nat (length (tx.queue mp))
       <= (if maxTxs <=? 0 then tx.MaxSize (tx.config mp) else maxTxs) →
     ∀ a, a ∈ tx.queue mp → now - tx.AddedAt a <= tx.MaxTxAge (tx.config mp) →
          a ∈ entries)
  ∧ tx.is_heap (tx.queue (tx.ReapMaxTxs HashHex mp maxTxs now).1) = true.
Proof.
  intros Hheap entries. apply is_heap_ordered in Hheap.
  unfold tx.ReapMaxTxs, tx.reaped_entries in *.
  set (limit := if maxTxs <=? 0 then tx.MaxSize (tx.config mp) else maxTxs) in *.
  destruct (reap_loop_sorted now limit (length (tx.queue mp)) mp [] Hheap)
    as [Hsorted Hq]; [constructor | intros a y Ha; by apply elem_of_nil in Ha |].
  pose proof (reap_loop_top now limit (length (tx.queue mp)) mp [] Hheap) as Htop.
  subst entries.
  destruct (tx.reap_loop (length (tx.queue mp)) now limit mp []) as [mp1 popped] eqn:Eloop.
  cbn [fst snd] in *. split_and!.
  - reflexivity.
  - by apply StronglySorted_gas_positions.
  - intros a b j Ha Hfresh Hb Hgt.
    assert (Hin : a ∈ popped).
    { apply (Htop ltac:(intros ? ? H; by apply elem_of_nil in H) a b Ha Hfresh);
        [by apply list_elem_of_lookup_2 in Hb | exact Hgt]. }
    apply list_elem_of_lookup in Hin as [i Hi]. exists i. split; [exact Hi|].
    by apply (StronglySorted_gas_positions popped Hsorted i j a b).
  - intros Hlimit a Ha Hfresh.
    destruct (reap_loop_complete now limit (length (tx.queue mp)) mp []) as [_ Hall];
      [lia | cbn; lia | exact Hheap |].
    rewrite Eloop in Hall. by apply Hall.
  - apply is_heap_ordered. by apply readd_ordered.
Qed.

(** The pool of capacity 3 with the heap slice [10; 5; 7], reaped with a
    limit of two: the entries with gas prices 10 and 7 are returned, the
    entry with gas price 5 is left out. *)
Lemma ReapMaxTxs_gas_price_order_witness :
  let mp := scenario.pool_10_5_7 in
  let entries := tx.reaped_entries mp 2 4 in
  (tx.ReapMaxTxs scenario.hash_by_sender mp 2 4).2 = map tx.Tx entries
  ∧ (∀ i j a b, entries !! i = Some a → entries !! j = Some b →
                tx.GasPrice a > tx.GasPrice b → (i < j)%nat)
  ∧ (∀ a b j, a ∈ tx.queue mp → 4 - tx.AddedAt a <= tx.MaxTxAge (tx.config mp) →
              entries !! j = Some b → tx.GasPrice a > tx.GasPrice b →
              ∃ i, entries !! i = Some a ∧ (i < j)%nat)
  ∧ (Z.of_nat (length (tx.queue mp))
       <= (if 2 <=? 0 then tx.MaxSize (tx.config mp) else 2) →
     ∀ a, a ∈ tx.queue mp → 4 - tx.AddedAt a <= tx.MaxTxAge (tx.config mp) →
          a ∈ entries)
  ∧ tx.is_heap (tx.queue (tx.ReapMaxTxs scenario.hash_by_sender mp 2 4).1) = true.
Proof.
  apply (ReapMaxTxs_gas_price_order scenario.hash_by_sender scenario.pool_10_5_7 2 4).
  vm_compute. reflexivity.
Defined.

(** C7, where the claim breaks. Three transactions with the same gas price
    10 are accepted in the order S1, S2, S3 (times 1, 2, 3). [ReapMaxTxs]
    returns S1, S3, S2: the later S3 comes before the earlier S2. *)
Lemma ReapMaxTxs_ties_not_fifo :
  (λ e, (tx.Hash e, tx.GasPrice e, tx.AddedAt e)) <$> tx.queue scenario.pool_ties
    = [("S1", 10, 1); ("S2", 10, 2); ("S3", 10, 3)]
  ∧ (λ e, (tx.Hash e, tx.GasPrice e, tx.AddedAt e)) <$> tx.reaped_entries scenario.pool_ties 0 4
    = [("S1", 10, 1); ("S3", 10, 3); ("S2", 10, 2)]
  ∧ tx.From <$> (tx.ReapMaxTxs scenario.hash_by_sender scenario.pool_ties 0 4).2
    = ["S1"; "S3"; "S2"].
Proof. split_and!; vm_compute; reflexivity. Qed.

(** C6. Where the claim breaks: a pool of capacity 3 that accepted gas prices
    10, 5 and 7 in this order has the heap slice [10; 5; 7]. [evictLowest]
    reads the last slot, 7, not the lowest gas price, 5. A new transaction
    with gas price 6 is rejected with [ErrMempoolFull] although the lowest
    gas price in the pool is below 6, and a new transaction with gas price 8
    evicts the entry with gas price 7 and leaves the one with 5 in the pool. *)
Theorem AddTx_full_pool_reads_last_slot :
  let mp := scenario.pool_10_5_7 in
  let add fee := tx.AddTx scenario.size100 scenario.hash_by_sender mp (scenario.paying "S4" fee) 4 in
  tx.GasPrice <$> tx.queue mp = [10; 5; 7]
  ∧ Z.of_nat (size (tx.txs mp)) = tx.MaxSize (tx.config mp)
  ∧ add 600 = (mp, Some ErrMempoolFull)
  ∧ (add 800).2 = None
  ∧ (λ kv, (kv.1, tx.GasPrice kv.2)) <$> map_to_list (tx.txs (add 800).1)
    = [("S1", 10); ("S2", 5); ("S4", 8)].
Proof. cbv zeta. split_and!; vm_compute; reflexivity. Qed.


(** ** crypto: regrouping bits *)

Lemma value_be_snoc base ds d : value_be base (ds ++ [d]) = value_be base ds * base + d.
Proof. unfold value_be. rewrite fold_left_app. reflexivity. Qed.

Lemma int64_congr z : ∃ q, int64 z = z - 2 ^ 64 * q.
Proof.
  unfold int64. exists ((z + 2 ^ 63) / 2 ^ 64).
  pose proof (Z.div_mod (z + 2 ^ 63) (2 ^ 64) ltac:(lia)). lia.
Qed.

Lemma maxv_ones toBits : 0 <= toBits → Z.shiftl 1 toBits - 1 = Z.ones toBits.
Proof. intros H. rewrite Z.shiftl_1_l, Z.ones_equiv. lia. Qed.

Lemma pow2_pos n : 0 <= n → 0 < 2 ^ n.
Proof. intros. apply Z.pow_pos_nonneg; lia. Qed.

(** The low [bits + fromBits] bits of the accumulator after one more value:
    the wrap-around of the shift only touches bits from 64 up. *)
Lemma acc_low_bits acc bits fromBits v :
  0 <= bits → 0 < fromBits → bits + fromBits <= 64 → 0 <= v < 2 ^ fromBits →
  Z.lor (int64 (Z.shiftl acc fromBits)) v mod 2 ^ (bits + fromBits)
  = (acc mod 2 ^ bits) * 2 ^ fromBits + v.
Proof.
  intros Hb Hf Hsum Hv.
  rewrite Z.shiftl_mul_pow2 by lia.
  destruct (int64_congr (acc * 2 ^ fromBits)) as [q Hq].
  set (y := int64 (acc * 2 ^ fromBits)) in *.
  assert (Hy : y = (acc - 2 ^ (64 - fromBits) * q) * 2 ^ fromBits).
  { rewrite Hq. replace (2 ^ 64) with (2 ^ (64 - fromBits) * 2 ^ fromBits).
    - ring.
    - rewrite <- Z.pow_add_r by lia. f_equal. lia. }
  assert (Hland : Z.land y v = 0).
  { apply Z.bits_inj'. intros n Hn. rewrite Z.land_spec, Z.bits_0.
    destruct (Z_lt_le_dec n fromBits) as [Hlt | Hge].
    - rewrite Hy, Z.mul_pow2_bits_low by lia. reflexivity.
    - rewrite (Z.bits_above_log2 v n); [apply andb_false_r | lia |].
      destruct (Z.eq_dec v 0) as [-> | Hv0]; [cbn; lia|].
      apply Z.log2_lt_pow2; [lia|].
      eapply Z.lt_le_trans; [apply Hv|]. apply Z.pow_le_mono_r; lia. }
  rewrite <- Z.lxor_lor by exact Hland.
  rewrite <- Z.add_nocarry_lxor by exact Hland.
  pose proof (pow2_pos bits Hb) as Hpb.
  pose proof (pow2_pos fromBits ltac:(lia)) as Hpf.
  rewrite Z.pow_add_r by lia.
  pose proof (Z.div_mod acc (2 ^ bits) ltac:(lia)) as Hdm.
  pose proof (Z.mod_pos_bound acc (2 ^ bits) Hpb) as Hmb.
  assert (H64 : 2 ^ 64 = 2 ^ (64 - bits - fromBits) * (2 ^ bits * 2 ^ fromBits)).
  { rewrite <- !Z.pow_add_r by lia. f_equal. lia. }
  symmetry. apply Z.mod_unique_pos with
    (q := acc / 2 ^ bits - 2 ^ (64 - bits - fromBits) * q).
  - nia.
  - rewrite Hq, H64. 
    set (A := acc / 2 ^ bits) in *. set (R := acc mod 2 ^ bits) in *.
    rewrite Hdm at 1. ring.
Qed.

Section regroup.

Variables fromBits toBits : Z.
Hypothesis Hfrom : 0 < fromBits.
Hypothesis Hto : 0 < toBits <= 8.
Hypothesis Hsum : fromBits + toBits <= 64.

Let maxv := Z.shiftl 1 toBits - 1.

(** The inner loop keeps the number that the digits written so far and the
    pending low bits of the accumulator stand for. *)
Lemma emit_spec fuel : ∀ acc bits result,
  0 <= bits → (Z.to_nat bits <= fuel)%nat →
  ∃ bits' result',
    crypto.emit fuel acc bits toBits maxv result = (bits', result')
    ∧ 0 <= bits' < toBits
    ∧ value_be (2 ^ toBits) result' * 2 ^ bits' + acc mod 2 ^ bits'
      = value_be (2 ^ toBits) result * 2 ^ bits + acc mod 2 ^ bits
    ∧ (digits_ok toBits result → digits_ok toBits result')
    ∧ toBits * Z.of_nat (length result') + bits'
      = toBits * Z.of_nat (length result) + bits.
Proof.
  induction fuel as [|fuel IH]; intros acc bits result Hb Hfuel.
  - assert (bits = 0) as -> by lia. cbn [crypto.emit].
    exists 0, result. split_and!; (reflexivity || lia || tauto).
  - cbn [crypto.emit].
    destruct (bits >=? toBits) eqn:E.
    + rewrite Z.geb_leb in E. apply Z.leb_le in E.
      set (bits1 := bits - toBits).
      set (d := crypto.u8 (Z.land (Z.shiftr acc bits1) maxv)).
      assert (Hd : d = (acc / 2 ^ bits1) mod 2 ^ toBits).
      { subst d maxv. unfold crypto.u8. rewrite maxv_ones by lia.
        rewrite Z.land_ones by lia. rewrite Z.shiftr_div_pow2 by (subst bits1; lia).
        apply Z.mod_small.
        pose proof (Z.mod_pos_bound (acc / 2 ^ bits1) (2 ^ toBits) (pow2_pos toBits ltac:(lia))).
        assert (2 ^ toBits <= 2 ^ 8) by (apply Z.pow_le_mono_r; lia).
        change (2 ^ 8) with 256 in *. lia. }
      destruct (IH acc bits1 (result ++ [d])) as (b' & r' & Hemit & Hb' & Hval & Hdig & Hlen);
        [subst bits1; lia | subst bits1; lia |].
      exists b', r'. split; [exact Hemit|]. split; [exact Hb'|].
      pose proof (pow2_pos bits1 ltac:(subst bits1; lia)) as Hp1.
      pose proof (pow2_pos toBits ltac:(lia)) as Hpt.
      split_and!.
      * rewrite Hval, value_be_snoc, Hd.
        replace (2 ^ bits) with (2 ^ bits1 * 2 ^ toBits)
          by (rewrite <- Z.pow_add_r by (subst bits1; lia); f_equal; subst bits1; lia).
        rewrite (Z.rem_mul_r acc (2 ^ bits1) (2 ^ toBits)) by lia. ring.
      * intros Hr. apply Hdig. apply Forall_app. split; [exact Hr|].
        constructor; [|constructor]. rewrite Hd. apply Z.mod_pos_bound. lia.
      * rewrite Hlen, length_app. cbn [length]. subst bits1. lia.
    + rewrite Z.geb_leb in E. apply Z.leb_gt in E.
      exists bits, result. split_and!; (reflexivity || lia || tauto).
Qed.

(** One value more: the number grows by one digit of [fromBits] bits. *)
Lemma convert_step_spec acc bits result v :
  0 <= bits < toBits → 0 <= v < 2 ^ fromBits →
  ∃ acc' bits' result',
    crypto.convert_step fromBits toBits maxv (acc, bits, result) v = (acc', bits', result')
    ∧ 0 <= bits' < toBits
    ∧ value_be (2 ^ toBits) result' * 2 ^ bits' + acc' mod 2 ^ bits'
      = (value_be (2 ^ toBits) result * 2 ^ bits + acc mod 2 ^ bits) * 2 ^ fromBits + v
    ∧ (digits_ok toBits result → digits_ok toBits result')
    ∧ toBits * Z.of_nat (length result') + bits'
      = toBits * Z.of_nat (length result) + bits + fromBits.
Proof.
  intros Hb Hv. unfold crypto.convert_step.
  set (acc' := Z.lor (int64 (Z.shiftl acc fromBits)) v).
  destruct (emit_spec (Z.to_nat (bits + fromBits)) acc' (bits + fromBits) result)
    as (b' & r' & Hemit & Hb' & Hval & Hdig & Hlen); [lia | lia |].
  rewrite Hemit. exists acc', b', r'. split; [reflexivity|]. split; [exact Hb'|].
  split_and!; [| exact Hdig | lia].
  rewrite Hval. subst acc'. rewrite acc_low_bits by lia.
  rewrite Z.pow_add_r by lia. ring.
Qed.

Lemma convert_fold_spec (data : list Z) : ∀ acc bits result,
  0 <= bits < toBits → Forall (λ v, 0 <= v < 2 ^ fromBits) data →
  ∃ acc' bits' result',
    fold_left (crypto.convert_step fromBits toBits maxv) data (acc, bits, result)
      = (acc', bits', result')
    ∧ 0 <= bits' < toBits
    ∧ value_be (2 ^ toBits) result' * 2 ^ bits' + acc' mod 2 ^ bits'
      = fold_left (λ a d, a * 2 ^ fromBits + d) data
          (value_be (2 ^ toBits) result * 2 ^ bits + acc mod 2 ^ bits)
    ∧ (digits_ok toBits result → digits_ok toBits result')
    ∧ toBits * Z.of_nat (length result') + bits'
      = toBits * Z.of_nat (length result) + bits + fromBits * Z.of_nat (length data).
Proof.
  induction data as [|v data IH]; intros acc bits result Hb Hall.
  - exists acc, bits, result. cbn. split_and!; (reflexivity || lia || tauto).
  - inversion Hall as [|? ? Hv Hrest]; subst. cbn [fold_left].
    destruct (convert_step_spec acc bits result v Hb Hv)
      as (a1 & b1 & r1 & -> & Hb1 & Hval1 & Hdig1 & Hlen1).
    destruct (IH a1 b1 r1 Hb1 Hrest) as (a2 & b2 & r2 & -> & Hb2 & Hval2 & Hdig2 & Hlen2).
    exists a2, b2, r2. split; [reflexivity|]. split; [exact Hb2|].
    split_and!.
    + rewrite Hval2, Hval1. reflexivity.
    + tauto.
    + rewrite Hlen2, Hlen1. cbn [length]. lia.
Qed.

(** When the bits of the input fill whole output digits, [convertBits]
    returns the digits of the same number in the other base. *)
Lemma convertBits_value (data : list Z) (pad : bool) :
  Forall (λ v, 0 <= v < 2 ^ fromBits) data →
  (fromBits * Z.of_nat (length data)) mod toBits = 0 →
  value_be (2 ^ toBits) (crypto.convertBits data fromBits toBits pad)
    = value_be (2 ^ fromBits) data
  ∧ digits_ok toBits (crypto.convertBits data fromBits toBits pad)
  ∧ toBits * Z.of_nat (length (crypto.convertBits data fromBits toBits pad))
    = fromBits * Z.of_nat (length data).
Proof.
  intros Hall Hmod. unfold crypto.convertBits. fold maxv.
  destruct (convert_fold_spec data 0 0 [] ltac:(lia) Hall)
    as (a & b & r & -> & Hb & Hval & Hdig & Hlen).
  cbn [length] in Hlen.
  assert (b = 0) as ->.
  { assert (Hb0 : b mod toBits = 0).
    { replace b with (fromBits * Z.of_nat (length data) + (- Z.of_nat (length r)) * toBits)
        by lia.
      rewrite Z.mod_add by lia. exact Hmod. }
    rewrite Z.mod_small in Hb0 by lia. exact Hb0. }
  replace (pad && (0 >? 0)) with false by (destruct pad; reflexivity).
  split_and!.
  - change (value_be (2 ^ toBits) []) with 0 in Hval.
    change (0 * 2 ^ 0 + 0 mod 2 ^ 0) with 0 in Hval.
    rewrite Z.pow_0_r, Z.mul_1_r, Z.mod_1_r, Z.add_0_r in Hval. exact Hval.
  - apply Hdig. constructor.
  - lia.
Qed.

End regroup.

(** A list of digits of fixed length is determined by its value. *)
Lemma value_be_inj (w : Z) : 0 <= w → ∀ l1 l2,
  length l1 = length l2 → digits_ok w l1 → digits_ok w l2 →
  value_be (2 ^ w) l1 = value_be (2 ^ w) l2 → l1 = l2.
Proof.
  intros Hw l1. induction l1 as [|d1 l1 IH] using rev_ind; intros l2 Hlen H1 H2 Hval.
  - destruct l2; [reflexivity | discriminate].
  - destruct l2 as [|x l2' _] using rev_ind.
    { rewrite length_app in Hlen. cbn in Hlen. lia. }
    rewrite !length_app in Hlen. cbn in Hlen.
    rewrite !value_be_snoc in Hval.
    apply Forall_app in H1 as [H1 Hd1]. apply Forall_app in H2 as [H2 Hd2].
    inversion Hd1 as [|? ? Hd1' _]; subst. inversion Hd2 as [|? ? Hd2' _]; subst.
    pose proof (pow2_pos w Hw) as Hp.
    assert (d1 = x) as ->.
    { apply (f_equal (λ z, z mod 2 ^ w)) in Hval. cbv beta in Hval.
      rewrite !(Z.add_comm (_ * 2 ^ w)), !Z.mod_add, !Z.mod_small in Hval by lia.
      exact Hval. }
    assert (Hv : value_be (2 ^ w) l1 = value_be (2 ^ w) l2') by nia.
    f_equal. apply IH; [lia | assumption | assumption | exact Hv].
Qed.

(** Twenty bytes regrouped into 5-bit values and back. *)
Lemma convertBits_roundtrip (h : list Z) :
  crypto.is_hash 20 h →
  let converted := crypto.convertBits h 8 5 true in
  length converted = 32%nat
  ∧ Forall (λ v, 0 <= v < 32) converted
  ∧ crypto.convertBits converted 5 8 false = h.
Proof.
  intros [Hlen Hbytes].
  destruct (convertBits_value 8 5 ltac:(lia) ltac:(lia) ltac:(lia) h true)
    as (Hv1 & Hd1 & Hl1); [exact Hbytes | rewrite Hlen; reflexivity |].
  cbv zeta. set (converted := crypto.convertBits h 8 5 true) in *.
  assert (Hl : length converted = 32%nat) by lia.
  destruct (convertBits_value 5 8 ltac:(lia) ltac:(lia) ltac:(lia) converted false)
    as (Hv2 & Hd2 & Hl2); [exact Hd1 | rewrite Hl; reflexivity |].
  split_and!; [exact Hl | exact Hd1 |].
  apply (value_be_inj 8 ltac:(lia)); [lia | exact Hd2 | exact Hbytes | congruence].
Qed.

(** ** crypto: the checksum is linear over exclusive-or *)

Lemma lxor_bits_eq a b : (∀ n, 0 <= n → Z.testbit a n = Z.testbit b n) → a = b.
Proof. apply Z.bits_inj'. Qed.

Ltac xor_bits :=
  apply lxor_bits_eq; intros ?n ?Hn;
  repeat (rewrite ?Z.lxor_spec, ?Z.land_spec, ?Z.bits_0);
  repeat match goal with |- context [Z.testbit ?a ?n] =>
    let b := fresh "b" in generalize (Z.testbit a n); intros b end;
  repeat match goal with b : bool |- _ => destruct b end; reflexivity.

Lemma land_lxor_distr a b m : Z.land (Z.lxor a b) m = Z.lxor (Z.land a m) (Z.land b m).
Proof. xor_bits. Qed.

Lemma lxor_cancel a : Z.lxor a (Z.lxor a 1) = 1.
Proof. rewrite <- Z.lxor_assoc, Z.lxor_nilpotent. reflexivity. Qed.

Lemma bit_test top i :
  0 <= i → (Z.land (Z.shiftr top i) 1 =? 1) = Z.testbit top i.
Proof.
  intros Hi. change 1 with (Z.ones 1) at 1. rewrite Z.land_ones by lia.
  rewrite Z.shiftr_div_pow2 by lia. change (2 ^ 1) with 2.
  rewrite <- Z.testbit_spec' by lia. destruct (Z.testbit top i); reflexivity.
Qed.

Lemma gen_mask_bits top :
  gen_mask top =
    Z.lxor (if Z.testbit top 0 then 0x3b6a57b2 else 0)
      (Z.lxor (if Z.testbit top 1 then 0x26508e6d else 0)
         (Z.lxor (if Z.testbit top 2 then 0x1ea119fa else 0)
            (Z.lxor (if Z.testbit top 3 then 0x3d4233dd else 0)
               (if Z.testbit top 4 then 0x2a1462b3 else 0)))).
Proof.
  unfold gen_mask. cbn [seq fold_left nth crypto.gen].
  rewrite !bit_test by lia.
  change (Z.of_nat 0) with 0. change (Z.of_nat 1) with 1. change (Z.of_nat 2) with 2.
  change (Z.of_nat 3) with 3. change (Z.of_nat 4) with 4.
  destruct (Z.testbit top 0), (Z.testbit top 1), (Z.testbit top 2),
    (Z.testbit top 3), (Z.testbit top 4); reflexivity.
Qed.

Lemma gen_mask_lxor t1 t2 :
  gen_mask (Z.lxor t1 t2) = Z.lxor (gen_mask t1) (gen_mask t2).
Proof.
  rewrite !gen_mask_bits, !Z.lxor_spec.
  destruct (Z.testbit t1 0), (Z.testbit t1 1), (Z.testbit t1 2),
    (Z.testbit t1 3), (Z.testbit t1 4),
    (Z.testbit t2 0), (Z.testbit t2 1), (Z.testbit t2 2),
    (Z.testbit t2 3), (Z.testbit t2 4); reflexivity.
Qed.

Lemma gen_mask_range top : 0 <= gen_mask top < 2 ^ 30.
Proof.
  rewrite gen_mask_bits.
  destruct (Z.testbit top 0), (Z.testbit top 1), (Z.testbit top 2),
    (Z.testbit top 3), (Z.testbit top 4); vm_compute; split; congruence.
Qed.

Lemma fold_xor_out (cond : nat → bool) (g : nat → Z) (l : list nat) : ∀ a,
  fold_left (λ c i, if cond i then Z.lxor c (g i) else c) l a
  = Z.lxor a (fold_left (λ c i, if cond i then Z.lxor c (g i) else c) l 0).
Proof.
  induction l as [|i l IH]; intros a; cbn [fold_left].
  - now rewrite Z.lxor_0_r.
  - rewrite IH. rewrite (IH (if cond i then _ else _)).
    destruct (cond i).
    + rewrite Z.lxor_0_l. now rewrite Z.lxor_assoc.
    + reflexivity.
Qed.

Lemma polymod_step_split chk v :
  crypto.polymod_step chk v
  = Z.lxor (Z.lxor (Z.shiftl (Z.land chk 0x1ffffff) 5) v) (gen_mask (Z.shiftr chk 25)).
Proof.
  unfold crypto.polymod_step, gen_mask.
  apply (fold_xor_out
           (λ i, Z.land (Z.shiftr (Z.shiftr chk 25) (Z.of_nat i)) 1 =? 1)
           (λ i, nth i crypto.gen 0)).
Qed.

Lemma polymod_step_lxor a b v w :
  crypto.polymod_step (Z.lxor a b) (Z.lxor v w)
  = Z.lxor (crypto.polymod_step a v) (crypto.polymod_step b w).
Proof.
  rewrite !polymod_step_split.
  rewrite land_lxor_distr, Z.shiftl_lxor, Z.shiftr_lxor, gen_mask_lxor.
  xor_bits.
Qed.

Lemma polymod_from_lxor vs : ∀ ws a b,
  length vs = length ws →
  polymod_from (Z.lxor a b) (zip_with Z.lxor vs ws)
  = Z.lxor (polymod_from a vs) (polymod_from b ws).
Proof.
  unfold polymod_from.
  induction vs as [|v vs IH]; intros [|w ws] a b Hlen; try discriminate; [reflexivity|].
  cbn [zip_with fold_left]. rewrite polymod_step_lxor. apply IH.
  cbn in Hlen. lia.
Qed.

Lemma lxor_range n a b :
  0 < n → 0 <= a < 2 ^ n → 0 <= b < 2 ^ n → 0 <= Z.lxor a b < 2 ^ n.
Proof.
  intros Hn Ha Hb. split; [apply Z.lxor_nonneg; lia|].
  destruct (Z.eq_dec (Z.lxor a b) 0) as [-> | Hne]; [apply Z.pow_pos_nonneg; lia|].
  apply Z.log2_lt_pow2; [pose proof (proj2 (Z.lxor_nonneg a b)); lia|].
  eapply Z.le_lt_trans; [apply Z.log2_lxor; lia|].
  assert (Hlog : ∀ x, 0 <= x < 2 ^ n → Z.log2 x < n).
  { intros x Hx. destruct (Z.eq_dec x 0) as [-> | ?]; [cbn; lia|].
    apply Z.log2_lt_pow2; lia. }
  pose proof (Hlog a Ha). pose proof (Hlog b Hb). lia.
Qed.

Lemma polymod_step_range chk v :
  0 <= v < 2 ^ 30 → 0 <= crypto.polymod_step chk v < 2 ^ 30.
Proof.
  intros Hv. rewrite polymod_step_split.
  apply lxor_range; [lia | | apply gen_mask_range].
  apply lxor_range; [lia | | exact Hv].
  change 0x1ffffff with (Z.ones 25). rewrite Z.land_ones by lia.
  rewrite Z.shiftl_mul_pow2 by lia.
  pose proof (Z.mod_pos_bound chk (2 ^ 25) ltac:(lia)).
  change (2 ^ 30) with (2 ^ 25 * 2 ^ 5). lia.
Qed.

Lemma land_shifted_low a n v : 0 <= n → 0 <= v < 2 ^ n → Z.land (a * 2 ^ n) v = 0.
Proof.
  intros Hn Hv.
  destruct (Z.eq_dec v 0) as [-> | Hv0]; [apply Z.land_0_r|].
  apply Z.bits_inj'. intros k Hk. rewrite Z.land_spec, Z.bits_0.
  destruct (Z_lt_le_dec k n) as [Hlt | Hge].
  - rewrite Z.mul_pow2_bits_low by lia. reflexivity.
  - rewrite (Z.bits_above_log2 v k); [apply andb_false_r | lia |].
    apply Z.log2_lt_pow2; [lia|].
    eapply Z.lt_le_trans; [apply Hv|]. apply Z.pow_le_mono_r; lia.
Qed.

(** Below 25 bits no generator is mixed in: the round appends 5 bits. *)
Lemma polymod_step_small chk v :
  0 <= chk < 2 ^ 25 → 0 <= v < 32 → crypto.polymod_step chk v = chk * 32 + v.
Proof.
  intros Hc Hv. rewrite polymod_step_split.
  change 0x1ffffff with (Z.ones 25). rewrite Z.land_ones by lia.
  rewrite Z.mod_small by lia.
  rewrite Z.shiftr_div_pow2 by lia. rewrite Z.div_small by lia.
  change (gen_mask 0) with 0. rewrite Z.lxor_0_r.
  rewrite Z.shiftl_mul_pow2 by lia.
  rewrite <- Z.add_nocarry_lxor by (apply land_shifted_low; [lia | exact Hv]).
  reflexivity.
Qed.

(** The six checksum values are the 5-bit groups of the 30-bit number. *)
Lemma polymod_of_groups pm :
  0 <= pm < 2 ^ 30 →
  polymod_from 0
    (map (λ i, crypto.u8 (Z.land (Z.shiftr pm (5 * (5 - Z.of_nat i))) 31)) (seq 0 6))
  = pm.
Proof.
  intros Hpm. cbn [seq map].
  assert (Hg : ∀ k, 0 <= k →
                crypto.u8 (Z.land (Z.shiftr pm k) 31) = (pm / 2 ^ k) mod 32).
  { intros k Hk. unfold crypto.u8. change 31 with (Z.ones 5).
    rewrite Z.land_ones by lia. rewrite Z.shiftr_div_pow2 by lia.
    change (2 ^ 5) with 32. apply Z.mod_small.
    pose proof (Z.mod_pos_bound (pm / 2 ^ k) 32 ltac:(lia)). lia. }
  rewrite !Hg by lia.
  change (5 * (5 - Z.of_nat 0)) with 25. change (5 * (5 - Z.of_nat 1)) with 20.
  change (5 * (5 - Z.of_nat 2)) with 15. change (5 * (5 - Z.of_nat 3)) with 10.
  change (5 * (5 - Z.of_nat 4)) with 5. change (5 * (5 - Z.of_nat 5)) with 0.
  change (2 ^ 30) with 1073741824 in Hpm.
  change (2 ^ 25) with 33554432. change (2 ^ 20) with 1048576.
  change (2 ^ 15) with 32768. change (2 ^ 10) with 1024. change (2 ^ 5) with 32.
  change (2 ^ 0) with 1.
  set (d0 := (pm / 33554432) mod 32). set (d1 := (pm / 1048576) mod 32).
  set (d2 := (pm / 32768) mod 32). set (d3 := (pm / 1024) mod 32).
  set (d4 := (pm / 32) mod 32). set (d5 := (pm / 1) mod 32).
  assert (H0 : 0 <= d0 < 32) by (apply Z.mod_pos_bound; lia).
  assert (H1 : 0 <= d1 < 32) by (apply Z.mod_pos_bound; lia).
  assert (H2 : 0 <= d2 < 32) by (apply Z.mod_pos_bound; lia).
  assert (H3 : 0 <= d3 < 32) by (apply Z.mod_pos_bound; lia).
  assert (H4 : 0 <= d4 < 32) by (apply Z.mod_pos_bound; lia).
  assert (H5 : 0 <= d5 < 32) by (apply Z.mod_pos_bound; lia).
  assert (Hp : 2 ^ 25 = 33554432) by reflexivity.
  unfold polymod_from. cbn [fold_left].
  rewrite (polymod_step_small 0 d0) by lia.
  rewrite (polymod_step_small (0 * 32 + d0) d1) by lia.
  rewrite (polymod_step_small ((0 * 32 + d0) * 32 + d1) d2) by lia.
  rewrite (polymod_step_small (((0 * 32 + d0) * 32 + d1) * 32 + d2) d3) by lia.
  rewrite (polymod_step_small ((((0 * 32 + d0) * 32 + d1) * 32 + d2) * 32 + d3) d4) by lia.
  rewrite (polymod_step_small
             (((((0 * 32 + d0) * 32 + d1) * 32 + d2) * 32 + d3) * 32 + d4) d5) by lia.
  subst d0 d1 d2 d3 d4 d5. rewrite Z.div_1_r.
  replace (pm / 1024) with (pm / 32 / 32) by (rewrite Z.div_div by lia; reflexivity).
  replace (pm / 32768) with (pm / 32 / 32 / 32) by (rewrite !Z.div_div by lia; reflexivity).
  replace (pm / 1048576) with (pm / 32 / 32 / 32 / 32)
    by (rewrite !Z.div_div by lia; reflexivity).
  replace (pm / 33554432) with (pm / 32 / 32 / 32 / 32 / 32)
    by (rewrite !Z.div_div by lia; reflexivity).
  set (q1 := pm / 32). set (q2 := q1 / 32). set (q3 := q2 / 32).
  set (q4 := q3 / 32). set (q5 := q4 / 32).
  pose proof (Z.div_mod pm 32 ltac:(lia)). pose proof (Z.mod_pos_bound pm 32 ltac:(lia)).
  pose proof (Z.div_mod q1 32 ltac:(lia)). pose proof (Z.mod_pos_bound q1 32 ltac:(lia)).
  pose proof (Z.div_mod q2 32 ltac:(lia)). pose proof (Z.mod_pos_bound q2 32 ltac:(lia)).
  pose proof (Z.div_mod q3 32 ltac:(lia)). pose proof (Z.mod_pos_bound q3 32 ltac:(lia)).
  pose proof (Z.div_mod q4 32 ltac:(lia)). pose proof (Z.mod_pos_bound q4 32 ltac:(lia)).
  assert (0 <= q5 < 32) by lia.
  rewrite (Z.mod_small q5 32) by lia. lia.
Qed.

Lemma polymod_from_app c l1 l2 :
  polymod_from c (l1 ++ l2) = polymod_from (polymod_from c l1) l2.
Proof. unfold polymod_from. apply fold_left_app. Qed.

Lemma bech32Polymod_from values : crypto.bech32Polymod values = polymod_from 1 values.
Proof. reflexivity. Qed.

(** The checksum that [bech32Checksum] appends verifies. *)
Lemma checksum_verifies (hrp : string) (data : list Z) :
  crypto.verifyBech32Checksum hrp (data ++ crypto.bech32Checksum hrp data) = true.
Proof.
  unfold crypto.verifyBech32Checksum, crypto.bech32Checksum.
  apply Z.eqb_eq. rewrite !bech32Polymod_from.
  rewrite !app_assoc. rewrite !polymod_from_app.
  set (s := polymod_from (polymod_from 1 (crypto.hrpExpand hrp)) data).
  set (p6 := polymod_from s (replicate 6 0)).
  assert (Hp6 : 0 <= p6 < 2 ^ 30).
  { subst p6. change (replicate 6 0) with (replicate 5 0 ++ [0]).
    rewrite polymod_from_app. apply polymod_step_range. lia. }
  set (cs := map _ (seq 0 6)).
  replace s with (Z.lxor s 0) at 1 by apply Z.lxor_0_r.
  replace cs with (zip_with Z.lxor (replicate 6 0) cs).
  2:{ subst cs. cbn [seq map replicate zip_with]. now rewrite !Z.lxor_0_l. }
  rewrite polymod_from_lxor by reflexivity.
  assert (Hpm : crypto.bech32Polymod ((crypto.hrpExpand hrp ++ data) ++ replicate 6 0) = p6).
  { rewrite bech32Polymod_from, !polymod_from_app. reflexivity. }
  subst cs. rewrite polymod_of_groups; rewrite Hpm.
  - apply lxor_cancel.
  - apply lxor_range; lia.
Qed.

(** ** crypto: strings and the charset *)

Lemma below_forallb (P : Z → bool) (n : nat) :
  forallb P (below n) = true → ∀ v, 0 <= v < Z.of_nat n → P v = true.
Proof.
  intros H v Hv. rewrite forallb_forall in H. apply H.
  unfold below. apply in_map_iff. exists (Z.to_nat v). split; [lia|].
  apply in_seq. lia.
Qed.

Lemma charset_byte_spec v :
  0 <= v < 32 →
  0 <= charset_byte v < 128
  ∧ crypto.IndexByte crypto.Bech32Charset (crypto.u8 (charset_byte v)) = v
  ∧ crypto.IndexByte crypto.Bech32Charset (charset_byte v) = v.
Proof.
  intros Hv.
  pose proof (below_forallb
    (λ v, (0 <=? charset_byte v) && (charset_byte v <? 128)
          && (crypto.IndexByte crypto.Bech32Charset (crypto.u8 (charset_byte v)) =? v)
          && (crypto.IndexByte crypto.Bech32Charset (charset_byte v) =? v)) 32
    ltac:(vm_compute; reflexivity) v Hv) as H.
  cbv beta in H. rewrite !andb_true_iff in H. destruct H as [[[H1 H2] H3] H4].
  apply Z.leb_le in H1. apply Z.ltb_lt in H2. apply Z.eqb_eq in H3, H4. lia.
Qed.

(** An ASCII byte is either outside the charset or the byte of its index. *)
Lemma IndexByte_ascii b :
  0 <= b < 128 →
  crypto.IndexByte crypto.Bech32Charset b < 0
  ∨ (0 <= crypto.IndexByte crypto.Bech32Charset b < 32
     ∧ charset_byte (crypto.IndexByte crypto.Bech32Charset b) = b).
Proof.
  intros Hb.
  pose proof (below_forallb
    (λ b, let i := crypto.IndexByte crypto.Bech32Charset b in
          (i <? 0) || ((0 <=? i) && (i <? 32) && (charset_byte i =? b))) 128
    ltac:(vm_compute; reflexivity) b Hb) as H.
  cbv beta zeta in H. apply orb_true_iff in H as [H | H].
  - left. by apply Z.ltb_lt.
  - right. rewrite !andb_true_iff in H. destruct H as [[H1 H2] H3].
    apply Z.leb_le in H1. apply Z.ltb_lt in H2. apply Z.eqb_eq in H3. lia.
Qed.

Lemma byte_of_ascii_range c : 0 <= crypto.byte_of_ascii c < 256.
Proof.
  unfold crypto.byte_of_ascii. pose proof (N_ascii_bounded c). lia.
Qed.

Lemma byte_of_ascii_inj c1 c2 :
  crypto.byte_of_ascii c1 = crypto.byte_of_ascii c2 → c1 = c2.
Proof.
  unfold crypto.byte_of_ascii. intros H. apply Z2N.inj_iff in H; try lia.
  rewrite !N2Z.id in H. rewrite <- (ascii_N_embedding c1), <- (ascii_N_embedding c2).
  now rewrite H.
Qed.

Lemma string_of_list_ascii_app l1 l2 :
  string_of_list_ascii (l1 ++ l2) = string_of_list_ascii l1 +:+ string_of_list_ascii l2.
Proof. induction l1 as [|a l1 IH]; cbn; [reflexivity | now rewrite IH]. Qed.

Lemma length_string_of_list_ascii l : String.length (string_of_list_ascii l) = length l.
Proof. induction l as [|a l IH]; cbn; [reflexivity | now rewrite IH]. Qed.

Lemma get_list_ascii i : ∀ s, String.get i s = list_ascii_of_string s !! i.
Proof.
  induction i as [|i IH]; intros [|a s]; cbn; try reflexivity. apply IH.
Qed.

Lemma prefix_app (p : string) (l : list ascii) :
  String.prefix p (string_of_list_ascii (list_ascii_of_string p ++ l)) = true.
Proof.
  induction p as [|a p IH]; cbn.
  - now destruct (string_of_list_ascii l).
  - destruct (ascii_dec a a); [exact IH | contradiction].
Qed.

Lemma prefix_changed (i : nat) (c : ascii) (l : list ascii) :
  (i < 5)%nat →
  list_ascii_of_string crypto.AddressPrefix !! i ≠ Some c →
  String.prefix crypto.AddressPrefix
    (string_of_list_ascii (<[i := c]> (list_ascii_of_string crypto.AddressPrefix ++ l)))
  = false.
Proof.
  intros Hi Hc.
  destruct i as [|[|[|[|[|i]]]]]; [| | | | | lia];
    cbn -[ascii_dec] in *;
    repeat (destruct (ascii_dec _ _) as [?Heq|]; [|reflexivity]); congruence.
Qed.

(** ** crypto: decoding the characters of an address *)

Lemma decode_rune_ascii b rest : b < 128 → crypto.decode_rune (b :: rest) = (b, 1%nat).
Proof.
  intros Hb. unfold crypto.decode_rune.
  destruct (b <? 128) eqn:E; [reflexivity | apply Z.ltb_ge in E; lia].
Qed.

(** A byte from 128 up that is followed by an ASCII byte, or by nothing,
    starts no UTF-8 encoding. *)
Lemma decode_rune_high b rest :
  128 <= b →
  match rest with [] => True | b1 :: _ => b1 < 128 end →
  crypto.decode_rune (b :: rest) = (0xFFFD, 1%nat).
Proof.
  intros Hb Hrest. unfold crypto.decode_rune, crypto.is_cont.
  destruct (b <? 128) eqn:E; [apply Z.ltb_lt in E; lia|].
  destruct rest as [|b1 rest].
  - repeat (destruct (_ && _)); reflexivity.
  - assert (H1 : (128 <=? b1) = false) by (apply Z.leb_gt; exact Hrest).
    assert (H2 : (160 <=? b1) = false) by (apply Z.leb_gt; lia).
    assert (H3 : (144 <=? b1) = false) by (apply Z.leb_gt; lia).
    rewrite H1. cbn [andb].
    destruct ((194 <=? b) && (b <=? 223)); [reflexivity|].
    destruct ((224 <=? b) && (b <=? 239)).
    { destruct rest; [reflexivity|]. destruct (b =? 224); rewrite ?H1, ?H2; reflexivity. }
    destruct ((240 <=? b) && (b <=? 244)); [|reflexivity].
    destruct rest as [|b2 [|b3 rest]]; try reflexivity.
    destruct (b =? 240); rewrite ?H1, ?H3; reflexivity.
Qed.

Lemma decode_loop_nil fuel i decoded : crypto.decode_loop fuel [] i decoded = Some decoded.
Proof. destruct fuel; reflexivity. Qed.

(** Charset symbols decode to their values, one byte each. *)
Lemma decode_loop_symbols (vs : list Z) : ∀ fuel rest i decoded,
  Forall (λ v, 0 <= v < 32) vs →
  (i + length vs <= length decoded)%nat →
  crypto.decode_loop (length vs + fuel) (map charset_byte vs ++ rest) i decoded
  = crypto.decode_loop fuel rest (i + length vs)
      (take i decoded ++ vs ++ drop (i + length vs) decoded).
Proof.
  induction vs as [|v vs IH]; intros fuel rest i decoded Hall Hlen.
  - cbn [length map app Nat.add]. rewrite Nat.add_0_r, take_drop. reflexivity.
  - inversion Hall as [|? ? Hv Hrest]; subst. cbn [length] in Hlen.
    destruct (charset_byte_spec v Hv) as (Hb & Hidx & _).
    cbn [length map app Nat.add crypto.decode_loop].
    rewrite decode_rune_ascii by lia. rewrite Hidx.
    destruct (v <? 0) eqn:E; [apply Z.ltb_lt in E; lia|].
    cbn [drop]. rewrite ?drop_0. unfold crypto.u8 at 1. rewrite ?Z.mod_small by lia.
    rewrite IH by (rewrite ?length_insert; assumption || lia).
    replace (i + 1 + length vs)%nat with (i + S (length vs))%nat by lia.
    f_equal.
    rewrite drop_insert_lt by lia.
    replace (i + 1)%nat with (S i) by lia.
    rewrite (take_S_r _ i v) by (apply list_lookup_insert_eq; lia).
    rewrite take_insert_ge by lia.
    rewrite <- !app_assoc. reflexivity.
Qed.

Lemma decode_loop_all_symbols (vs : list Z) :
  Forall (λ v, 0 <= v < 32) vs →
  crypto.decode_loop (length vs) (map charset_byte vs) 0 (replicate (length vs) 0) = Some vs.
Proof.
  intros Hall.
  pose proof (decode_loop_symbols vs 0 [] 0 (replicate (length vs) 0) Hall) as H.
  rewrite app_nil_r, Nat.add_0_r in H. rewrite H by (rewrite length_replicate; lia).
  rewrite decode_loop_nil. cbn [take Nat.add app].
  rewrite drop_ge by (rewrite length_replicate; lia). now rewrite app_nil_r.
Qed.

(** [ValidateAddress] on a string made of the prefix and 38 more characters
    comes down to the decoding loop and the checksum. *)
Lemma ValidateAddress_shape (X : list ascii) :
  length X = 38%nat →
  crypto.ValidateAddress
    (string_of_list_ascii (list_ascii_of_string crypto.AddressPrefix ++ X))
  = match crypto.decode_loop 38 (map crypto.byte_of_ascii X) 0 (replicate 38 0) with
    | None => Some (ErrNew "invalid character in address")
    | Some decoded =>
        if negb (crypto.verifyBech32Checksum crypto.AddressPrefix decoded)
        then Some (ErrNew "invalid address checksum") else None
    end.
Proof.
  intros HX. unfold crypto.ValidateAddress.
  rewrite prefix_app. cbn [negb].
  rewrite length_string_of_list_ascii, length_app, HX.
  change (length (list_ascii_of_string crypto.AddressPrefix)) with 5%nat.
  change (String.length crypto.AddressPrefix) with 5%nat.
  change (5 + 38 =? 5 + crypto.AddressLength)%nat with true. cbn [negb].
  unfold crypto.bytes_of_string. rewrite list_ascii_of_string_of_list_ascii.
  rewrite map_app.
  rewrite (drop_app_length' _ _ 5) by reflexivity.
  rewrite length_map, HX. reflexivity.
Qed.

Lemma checksum_values hrp data :
  length (crypto.bech32Checksum hrp data) = 6%nat
  ∧ Forall (λ v, 0 <= v < 32) (crypto.bech32Checksum hrp data).
Proof.
  unfold crypto.bech32Checksum. split; [reflexivity|].
  apply Forall_forall. intros v Hv. apply list_elem_of_In, in_map_iff in Hv as (i & <- & _).
  unfold crypto.u8. change 31 with (Z.ones 5). rewrite Z.land_ones by lia.
  pose proof (Z.mod_pos_bound (Z.shiftr (Z.lxor (crypto.bech32Polymod
    (crypto.hrpExpand hrp ++ data ++ replicate 6 0)) 1) (5 * (5 - Z.of_nat i))) (2 ^ 5)
    ltac:(lia)) as Hm.
  change (2 ^ 5) with 32 in *. rewrite Z.mod_small by lia. exact Hm.
Qed.

(** The characters of an encoded address. *)
Lemma AddressFromHash_chars (h : list Z) :
  crypto.is_hash 20 h →
  let converted := crypto.convertBits h 8 5 true in
  let combined := converted ++ crypto.bech32Checksum crypto.AddressPrefix converted in
  crypto.AddressFromHash h
    = string_of_list_ascii
        (list_ascii_of_string crypto.AddressPrefix ++ map crypto.charset_at combined)
  ∧ length combined = 38%nat
  ∧ Forall (λ v, 0 <= v < 32) combined.
Proof.
  intros Hh. destruct (convertBits_roundtrip h Hh) as (Hlen & Hsmall & _).
  destruct (checksum_values crypto.AddressPrefix (crypto.convertBits h 8 5 true))
    as [Hclen Hcsmall].
  cbv zeta. split_and!.
  - unfold crypto.AddressFromHash. rewrite string_of_list_ascii_app.
    now rewrite string_of_list_ascii_of_string.
  - rewrite length_app, Hlen, Hclen. reflexivity.
  - apply Forall_app. split; assumption.
Qed.

Lemma map_charset_byte vs :
  map crypto.byte_of_ascii (map crypto.charset_at vs) = map charset_byte vs.
Proof. rewrite map_map. reflexivity. Qed.

(** ** crypto: one changed value is caught by the checksum *)

Lemma error_syndrome_nonzero (k : nat) (e : Z) :
  (k < 38)%nat → 1 <= e < 32 → error_syndrome k e ≠ 0.
Proof.
  intros Hk He.
  assert (Htab : forallb (λ k, forallb (λ e, (e =? 0) || negb (error_syndrome k e =? 0))
                                 (below 32)) (seq 0 38) = true)
    by (vm_compute; reflexivity).
  rewrite forallb_forall in Htab.
  specialize (Htab k ltac:(apply in_seq; lia)).
  pose proof (below_forallb _ 32 Htab e ltac:(lia)) as H. cbv beta in H.
  apply orb_true_iff in H as [H | H].
  - apply Z.eqb_eq in H. lia.
  - apply negb_true_iff, Z.eqb_neq in H. exact H.
Qed.

Lemma zip_xor_zeros (l : list Z) : zip_with Z.lxor l (replicate (length l) 0) = l.
Proof.
  induction l as [|x l IH]; cbn; [reflexivity|]. now rewrite Z.lxor_0_r, IH.
Qed.

Lemma zip_xor_error (l : list Z) : ∀ k e v,
  l !! k = Some v →
  zip_with Z.lxor l (<[k := e]> (replicate (length l) 0)) = <[k := Z.lxor v e]> l.
Proof.
  induction l as [|x l IH]; intros [|k] e v Hk; try discriminate; cbn in *.
  - inversion Hk; subst. now rewrite zip_xor_zeros.
  - rewrite Z.lxor_0_r. f_equal. by apply IH.
Qed.

Lemma map_insert {A B} (f : A → B) (l : list A) : ∀ i x,
  map f (<[i := x]> l) = <[i := f x]> (map f l).
Proof.
  induction l as [|a l IH]; intros [|i] x; cbn; try reflexivity. now rewrite IH.
Qed.

Lemma single_error_detected (combined : list Z) (k : nat) (v idx : Z) :
  length combined = 38%nat →
  combined !! k = Some v →
  0 <= v < 32 → 0 <= idx < 32 → idx ≠ v →
  crypto.verifyBech32Checksum crypto.AddressPrefix combined = true →
  crypto.verifyBech32Checksum crypto.AddressPrefix (<[k := idx]> combined) = false.
Proof.
  intros Hlen Hk Hv Hidx Hne Hok.
  unfold crypto.verifyBech32Checksum in *. apply Z.eqb_eq in Hok. apply Z.eqb_neq.
  rewrite bech32Polymod_from in *.
  set (H := crypto.hrpExpand crypto.AddressPrefix) in *.
  set (e := Z.lxor v idx).
  assert (He : 1 <= e < 32).
  { pose proof (lxor_range 5 v idx ltac:(lia) ltac:(lia) ltac:(lia)) as Hr.
    change (2 ^ 5) with 32 in Hr.
    assert (e ≠ 0) by (subst e; intros H0; apply Z.lxor_eq in H0; congruence).
    subst e. lia. }
  assert (Hzip : H ++ <[k := idx]> combined
                 = zip_with Z.lxor (H ++ combined)
                     (replicate 11 0 ++ <[k := e]> (replicate 38 0))).
  { rewrite zip_with_app by reflexivity.
    change (replicate 11 0) with (replicate (length H) 0). rewrite zip_xor_zeros.
    replace (replicate 38 0) with (replicate (length combined) 0) by (now rewrite Hlen).
    rewrite (zip_xor_error combined k e v Hk).
    subst e. rewrite <- Z.lxor_assoc, Z.lxor_nilpotent, Z.lxor_0_l. reflexivity. }
  rewrite Hzip. replace 1 with (Z.lxor 1 0) at 1 by reflexivity.
  rewrite polymod_from_lxor
    by (rewrite !length_app, length_insert, !length_replicate, Hlen; reflexivity).
  rewrite Hok. fold (error_syndrome k e).
  assert (Hk38 : (k < 38)%nat) by (apply lookup_lt_Some in Hk; lia).
  pose proof (error_syndrome_nonzero k e Hk38 He) as Hs.
  intros Heq. apply Hs.
  apply (f_equal (Z.lxor 1)) in Heq.
  rewrite <- Z.lxor_assoc in Heq. exact Heq.
Qed.

(** ** crypto: encoded addresses *)

Lemma ValidateAddress_encoded (h : list Z) :
  crypto.is_hash 20 h → crypto.ValidateAddress (crypto.AddressFromHash h) = None.
Proof.
  intros Hh. destruct (AddressFromHash_chars h Hh) as (Hchars & Hlen & Hsmall).
  rewrite Hchars. rewrite ValidateAddress_shape by (rewrite length_map; exact Hlen).
  rewrite map_charset_byte. rewrite <- Hlen at 1 2.
  rewrite decode_loop_all_symbols by exact Hsmall.
  now rewrite checksum_verifies.
Qed.

Lemma IndexByte_symbols (vs : list Z) :
  Forall (λ v, 0 <= v < 32) vs →
  map (λ b, crypto.u8 (crypto.IndexByte crypto.Bech32Charset b)) (map charset_byte vs) = vs.
Proof.
  induction 1 as [|v vs Hv Hall IH]; cbn [map]; [reflexivity|].
  destruct (charset_byte_spec v Hv) as (_ & _ & ->).
  unfold crypto.u8 at 1. rewrite Z.mod_small by lia. now rewrite IH.
Qed.

Lemma DecodeAddress_encoded (h : list Z) :
  crypto.is_hash 20 h → crypto.DecodeAddress (crypto.AddressFromHash h) = crypto.Ok h.
Proof.
  intros Hh. unfold crypto.DecodeAddress. rewrite ValidateAddress_encoded by exact Hh.
  destruct (AddressFromHash_chars h Hh) as (Hchars & Hlen & Hsmall).
  destruct (convertBits_roundtrip h Hh) as (Hclen & Hcsmall & Hback).
  rewrite Hchars. unfold crypto.bytes_of_string.
  rewrite list_ascii_of_string_of_list_ascii, map_app.
  change (String.length crypto.AddressPrefix) with 5%nat.
  rewrite (drop_app_length' _ _ 5) by reflexivity.
  rewrite map_charset_byte, length_map, Hlen.
  rewrite map_app, (take_app_length' _ _ (38 - 6)) by (rewrite length_map, Hclen; reflexivity).
  rewrite IndexByte_symbols by exact Hcsmall.
  now rewrite Hback.
Qed.

Lemma ValidateAddress_changed (h : list Z) (i : nat) (c : ascii) :
  crypto.is_hash 20 h →
  (i < String.length (crypto.AddressFromHash h))%nat →
  String.get i (crypto.AddressFromHash h) ≠ Some c →
  crypto.ValidateAddress (crypto.set_char (crypto.AddressFromHash h) i c) ≠ None.
Proof.
  intros Hh Hi Hget.
  pose proof (ValidateAddress_encoded h Hh) as Hvalid.
  destruct (AddressFromHash_chars h Hh) as (Hchars & Hlen & Hsmall).
  set (combined := crypto.convertBits h 8 5 true
                   ++ crypto.bech32Checksum crypto.AddressPrefix (crypto.convertBits h 8 5 true))
    in *.
  set (P := list_ascii_of_string crypto.AddressPrefix) in *.
  rewrite Hchars in Hi, Hget, Hvalid |- *.
  rewrite get_list_ascii, list_ascii_of_string_of_list_ascii in Hget.
  rewrite length_string_of_list_ascii, length_app, length_map, Hlen in Hi.
  change (length P) with 5%nat in Hi.
  unfold crypto.set_char. rewrite list_ascii_of_string_of_list_ascii.
  destruct (decide (i < 5)%nat) as [Hlt | Hge].
  - (* a character of the prefix *)
    rewrite lookup_app_l in Hget by exact Hlt.
    unfold crypto.ValidateAddress. rewrite prefix_changed by assumption.
    discriminate.
  - (* a data or checksum character *)
    set (k := (i - 5)%nat).
    assert (Hk : (k < 38)%nat) by (subst k; lia).
    rewrite (insert_app_r_alt P _ i c) by (change (length P) with 5%nat; lia).
    change (length P) with 5%nat. fold k.
    rewrite lookup_app_r in Hget by (change (length P) with 5%nat; lia).
    change (length P) with 5%nat in Hget. fold k in Hget.
    destruct (lookup_lt_is_Some_2 combined k ltac:(lia)) as [v Hv].
    assert (Hvs : 0 <= v < 32).
    { rewrite Forall_forall in Hsmall. apply Hsmall. by eapply list_elem_of_lookup_2. }
    assert (Hc : c ≠ crypto.charset_at v).
    { intros ->. apply Hget. rewrite list_lookup_fmap. 
      change (fmap crypto.charset_at (combined !! k)) with
        (crypto.charset_at <$> (combined !! k)). now rewrite Hv. }
    rewrite ValidateAddress_shape by (rewrite length_insert, length_map; exact Hlen).
    rewrite ValidateAddress_shape in Hvalid by (rewrite length_map; exact Hlen).
    rewrite map_charset_byte in Hvalid. rewrite <- Hlen in Hvalid at 1 2.
    rewrite decode_loop_all_symbols in Hvalid by exact Hsmall.
    assert (Hok : crypto.verifyBech32Checksum crypto.AddressPrefix combined = true).
    { destruct (crypto.verifyBech32Checksum crypto.AddressPrefix combined);
        [reflexivity | discriminate]. }
    rewrite map_insert, map_charset_byte.
    set (b := crypto.byte_of_ascii c).
    pose proof (byte_of_ascii_range c) as Hb. fold b in Hb.
    (* the bytes before the changed one decode as before *)
    assert (Hsplit : ∀ b', <[k := b']> (map charset_byte combined)
                      = map charset_byte (take k combined)
                        ++ b' :: map charset_byte (drop (S k) combined)).
    { intros b'. rewrite insert_take_drop by (rewrite length_map; lia).
      change (@map Z Z) with (@fmap list _ Z Z). now rewrite fmap_take, fmap_drop. }
    assert (Hstep : crypto.decode_loop 38 (<[k := b]> (map charset_byte combined)) 0
                      (replicate 38 0)
                    = crypto.decode_loop (38 - k)
                        (b :: map charset_byte (drop (S k) combined)) k
                        (take k combined ++ drop k (replicate 38 0))).
    { rewrite Hsplit.
      pose proof (decode_loop_symbols (take k combined) (38 - k)
                    (b :: map charset_byte (drop (S k) combined)) 0 (replicate 38 0)) as Hd.
      rewrite length_take, Hlen in Hd.
      replace (k `min` 38)%nat with k in Hd by lia.
      replace (k + (38 - k))%nat with 38%nat in Hd by lia.
      rewrite Hd; [reflexivity | by apply Forall_take | rewrite length_replicate; lia]. }
    destruct (Z_lt_le_dec b 128) as [Hascii | Hhigh].
    + destruct (IndexByte_ascii b ltac:(lia)) as [Hout | [Hin Hsym]].
      * (* an ASCII character outside the charset *)
        rewrite Hstep. destruct (38 - k)%nat as [|fuel] eqn:Ef; [lia|].
        cbn [crypto.decode_loop]. rewrite decode_rune_ascii by exact Hascii.
        unfold crypto.u8 at 1. rewrite Z.mod_small by lia.
        apply Z.ltb_lt in Hout. rewrite Hout. discriminate.
      * (* another charset symbol: the checksum fails *)
        set (idx := crypto.IndexByte crypto.Bech32Charset b) in *.
        assert (Hne : idx ≠ v).
        { intros ->. apply Hc. apply byte_of_ascii_inj. symmetry. exact Hsym. }
        rewrite <- Hsym. rewrite <- (map_insert charset_byte).
        replace 38%nat with (length (<[k := idx]> combined))
          by (rewrite length_insert; exact Hlen).
        rewrite decode_loop_all_symbols.
        -- rewrite (single_error_detected combined k v idx) by assumption. discriminate.
        -- apply Forall_insert; [exact Hsmall | exact Hin].
    + (* a byte from 128 up: no valid character *)
      rewrite Hstep. destruct (38 - k)%nat as [|fuel] eqn:Ef; [lia|].
      cbn [crypto.decode_loop].
      rewrite decode_rune_high; [| exact Hhigh |].
      * change (crypto.IndexByte crypto.Bech32Charset (crypto.u8 65533)) with (-1).
        discriminate.
      * destruct (drop (S k) combined) as [|v1 rest] eqn:Ed; [exact I|].
        cbn [map]. assert (Hv1 : 0 <= v1 < 32).
        { pose proof (Forall_drop _ (S k) _ Hsmall) as Hd. rewrite Ed in Hd.
          by inversion Hd. }
        destruct (charset_byte_spec v1 Hv1) as (? & _). lia.
Qed.

(** C8. For every 20-byte hash [h]: decoding the address encoded from [h]
    gives [h] again, and replacing any single character of the encoded
    address by a different one makes [ValidateAddress] fail. *)
Theorem address_roundtrip_and_single_change (h : list Z) (i : nat) (c : ascii) :
  crypto.is_hash 20 h →
  (i < String.length (crypto.AddressFromHash h))%nat →
  String.get i (crypto.AddressFromHash h) ≠ Some c →
  crypto.DecodeAddress (crypto.AddressFromHash h) = crypto.Ok h
  ∧ crypto.ValidateAddress (crypto.set_char (crypto.AddressFromHash h) i c) ≠ None.
Proof.
  intros Hh Hi Hget. split.
  - by apply DecodeAddress_encoded.
  - by apply ValidateAddress_changed.
Qed.

Lemma address_roundtrip_and_single_change_witness :
  crypto.DecodeAddress (crypto.AddressFromHash scenario.sample_hash) = crypto.Ok scenario.sample_hash
  ∧ crypto.ValidateAddress (crypto.set_char (crypto.AddressFromHash scenario.sample_hash) 7 "q") ≠ None.
Proof.
  apply (address_roundtrip_and_single_change scenario.sample_hash 7 "q"%char).
  - split; [reflexivity|]. unfold scenario.sample_hash. repeat constructor; lia.
  - vm_compute. lia.
  - vm_compute. discriminate.
Defined.

(* ===================================================================== *)
(** * Further properties of the code *)
(* ===================================================================== *)

(** ** pow: the reward schedule *)

Lemma CalculateBlockReward_value (d : pow.RewardDistributor) (height : Z) :
  0 < pow.halving d → 0 <= pow.baseReward d → 0 <= height →
  pow.CalculateBlockReward d height
  = Done (Z.max (pow.minReward d) (pow.baseReward d / 2 ^ (height / pow.halving d))).
Proof.
  intros Hh Hb Hheight. unfold pow.CalculateBlockReward.
  destruct (pow.halving d =? 0) eqn:E; [apply Z.eqb_eq in E; lia|].
  f_equal.
  assert (Hk : 0 <= height / pow.halving d) by (apply Z.div_pos; lia).
  pose proof (halving_loop_max (pow.minReward d) (Z.to_nat (height / pow.halving d))
                (pow.baseReward d) Hb) as Hloop.
  rewrite Z2Nat.id in Hloop by exact Hk.
  rewrite <- Hloop.
  destruct (_ <? _) eqn:Hlt.
  - apply Z.ltb_lt in Hlt. lia.
  - apply Z.ltb_ge in Hlt. lia.
Qed.

(** X1. The block reward never grows with the height: for heights
    [h1 <= h2] the reward at [h2] is at most the reward at [h1]; it never
    drops below [minReward] and never exceeds the larger of [baseReward] and
    [minReward]. *)
Theorem CalculateBlockReward_never_grows (d : pow.RewardDistributor) (h1 h2 : Z) :
  0 < pow.halving d → 0 <= pow.baseReward d → 0 <= h1 → h1 <= h2 →
  ∃ r1 r2,
    pow.CalculateBlockReward d h1 = Done r1
    ∧ pow.CalculateBlockReward d h2 = Done r2
    ∧ r2 <= r1
    ∧ pow.minReward d <= r2
    ∧ r1 <= Z.max (pow.minReward d) (pow.baseReward d).
Proof.
  intros Hh Hb H1 H12.
  rewrite !CalculateBlockReward_value by lia.
  eexists _, _. split; [reflexivity|]. split; [reflexivity|].
  set (q1 := h1 / pow.halving d). set (q2 := h2 / pow.halving d).
  assert (Hq1 : 0 <= q1) by (apply Z.div_pos; lia).
  assert (Hq : q1 <= q2) by (apply Z.div_le_mono; lia).
  assert (Hp1 : 0 < 2 ^ q1) by (apply Z.pow_pos_nonneg; lia).
  assert (Hpow : 2 ^ q1 <= 2 ^ q2) by (apply Z.pow_le_mono_r; lia).
  assert (Hdiv : pow.baseReward d / 2 ^ q2 <= pow.baseReward d / 2 ^ q1).
  { apply Z.div_le_compat_l; lia. }
  assert (Hle : pow.baseReward d / 2 ^ q1 <= pow.baseReward d).
  { apply Z.div_le_upper_bound; nia. }
  split_and!; lia.
Qed.

Lemma CalculateBlockReward_never_grows_witness :
  ∃ r1 r2,
    pow.CalculateBlockReward scenario.default_rewards 2100000 = Done r1
    ∧ pow.CalculateBlockReward scenario.default_rewards 5000000 = Done r2
    ∧ r2 <= r1
    ∧ pow.minReward scenario.default_rewards <= r2
    ∧ r1 <= Z.max (pow.minReward scenario.default_rewards)
                  (pow.baseReward scenario.default_rewards).
Proof.
  apply (CalculateBlockReward_never_grows scenario.default_rewards 2100000 5000000);
    simpl; lia.
Defined.

(** X2. The reward halves at [NextHalving]. For a non-zero interval,
    [NextHalving(h)] is the first multiple of the interval above [h]; the
    block reward is the same at every height from [h] up to it, and at
    [NextHalving(h)] the reward is half of that (rounded down), but not
    less than [minReward]. The multiplication is in [uint64], hence the
    bound on [h + halving]. *)
Theorem reward_halves_at_NextHalving (d : pow.RewardDistributor) (h : Z) :
  0 < pow.halving d → 0 <= pow.baseReward d → 0 <= pow.minReward d →
  0 <= h → h + pow.halving d < 2 ^ 64 →
  ∃ n r,
    pow.NextHalving d h = Done n
    ∧ h < n <= h + pow.halving d
    ∧ n mod pow.halving d = 0
    ∧ pow.HalvingsOccurred d n = Done (h / pow.halving d + 1)
    ∧ pow.CalculateBlockReward d h = Done r
    ∧ (∀ h', h <= h' < n → pow.CalculateBlockReward d h' = Done r)
    ∧ pow.CalculateBlockReward d n = Done (Z.max (pow.minReward d) (r / 2)).
Proof.
  intros Hh Hb Hm H0 Hlt. unfold pow.NextHalving, pow.HalvingsOccurred.
  destruct (pow.halving d =? 0) eqn:E; [apply Z.eqb_eq in E; lia|].
  set (q := h / pow.halving d).
  assert (Hq : 0 <= q) by (apply Z.div_pos; lia).
  assert (Hdm : h = pow.halving d * q + h mod pow.halving d)
    by (apply Z.div_mod; lia).
  assert (Hmod : 0 <= h mod pow.halving d < pow.halving d)
    by (apply Z.mod_pos_bound; lia).
  assert (Hq1 : q + 1 < 2 ^ 64) by nia.
  rewrite (u64_small (q + 1)) by lia.
  rewrite u64_small by nia.
  assert (Hn : (q + 1) * pow.halving d / pow.halving d = q + 1) by (apply Z.div_mul; lia).
  eexists _, _. split; [reflexivity|].
  split; [nia|]. split; [apply Z.mod_mul; lia|].
  split; [by rewrite Hn|].
  split; [apply CalculateBlockReward_value; lia|].
  split.
  - intros h' [Hh1 Hh2]. rewrite CalculateBlockReward_value by lia.
    assert (Hq' : h' / pow.halving d = q).
    { symmetry. apply (Z.div_unique h' (pow.halving d) q (h' - pow.halving d * q)); nia. }
    fold q. by rewrite Hq'.
  - rewrite CalculateBlockReward_value by nia. rewrite Hn. fold q. f_equal.
    assert (Hp : 0 < 2 ^ q) by (apply Z.pow_pos_nonneg; lia).
    rewrite Z.pow_add_r by lia. rewrite <- Z.div_div by lia.
    change (2 ^ 1) with 2.
    set (x := pow.baseReward d / 2 ^ q).
    assert (Hx : 0 <= x) by (apply Z.div_pos; lia).
    assert (Hx2 : x / 2 <= x) by (apply Z.div_le_upper_bound; lia).
    assert (Hmin2 : pow.minReward d / 2 <= pow.minReward d)
      by (apply Z.div_le_upper_bound; lia).
    destruct (Z.max_spec (pow.minReward d) x) as [[Hc ->]|[Hc ->]]; lia.
Qed.

Lemma reward_halves_at_NextHalving_witness :
  ∃ n r,
    pow.NextHalving scenario.default_rewards 5000000 = Done n
    ∧ 5000000 < n <= 5000000 + pow.halving scenario.default_rewards
    ∧ n mod pow.halving scenario.default_rewards = 0
    ∧ pow.HalvingsOccurred scenario.default_rewards n
      = Done (5000000 / pow.halving scenario.default_rewards + 1)
    ∧ pow.CalculateBlockReward scenario.default_rewards 5000000 = Done r
    ∧ (∀ h', 5000000 <= h' < n → pow.CalculateBlockReward scenario.default_rewards h' = Done r)
    ∧ pow.CalculateBlockReward scenario.default_rewards n
      = Done (Z.max (pow.minReward scenario.default_rewards) (r / 2)).
Proof.
  apply (reward_halves_at_NextHalving scenario.default_rewards 5000000);
    simpl; lia.
Defined.

(** X3. [DistributeReward] never returns. It takes the write lock of [d.mu]
    and, still holding it, calls [CalculateBlockReward], whose [RLock] on the
    same mutex waits for the release that only the return of
    [DistributeReward] would bring. Whatever the calling goroutine holds,
    and for every distributor, height and fee, the call blocks, although the
    reward calculation called on its own returns. *)
Theorem DistributeReward_never_returns (h : pow.Holding) (d : pow.RewardDistributor)
  (height fees now : Z) :
  pow.DistributeReward h d height fees now = pow.BlocksForever
  ∧ pow.CalculateBlockReward_locked pow.HoldsNothing d height
    = pow.Returns (pow.CalculateBlockReward d height).
Proof. split; [destruct h; reflexivity | reflexivity]. Qed.


(** ** Arithmetic modulo 2^64 and sums over maps *)

Lemma u64_congr (a b k : Z) : a = b + k * 2 ^ 64 → u64 a = u64 b.
Proof. intros ->. unfold u64. apply Z_mod_plus_full. Qed.

Lemma u64_decompose (z : Z) : ∃ k, u64 z = z + k * 2 ^ 64.
Proof.
  exists (- (z / 2 ^ 64)). unfold u64.
  pose proof (Z.div_mod z (2 ^ 64)) as H. lia.
Qed.

Lemma u64_u64 (z : Z) : u64 (u64 z) = u64 z.
Proof. unfold u64. apply Z.mod_mod. lia. Qed.

Lemma u64_add_l (a b : Z) : u64 (u64 a + b) = u64 (a + b).
Proof. unfold u64. apply Zplus_mod_idemp_l. Qed.

Lemma u64_add_r (a b : Z) : u64 (a + u64 b) = u64 (a + b).
Proof. unfold u64. apply Zplus_mod_idemp_r. Qed.

Lemma msum_empty {A : Type} (f : A → Z) : msum f ∅ = 0.
Proof. unfold msum. apply map_fold_empty. Qed.

Lemma msum_insert_None {A : Type} (f : A → Z) (m : gmap string A) (k : string) (a : A) :
  m !! k = None → msum f (<[k := a]> m) = f a + msum f m.
Proof.
  intros H. unfold msum. rewrite map_fold_insert_L; [reflexivity | | exact H].
  intros. lia.
Qed.

Lemma msum_delete {A : Type} (f : A → Z) (m : gmap string A) (k : string) (b : A) :
  m !! k = Some b → msum f (delete k m) = msum f m - f b.
Proof.
  intros H. rewrite <- (insert_delete_id m k b H) at 2.
  rewrite msum_insert_None by apply lookup_delete_eq. lia.
Qed.

Lemma msum_insert_Some {A : Type} (f : A → Z) (m : gmap string A) (k : string) (a b : A) :
  m !! k = Some b → msum f (<[k := a]> m) = msum f m - f b + f a.
Proof.
  intros H. rewrite <- (insert_delete_eq m).
  rewrite msum_insert_None by apply lookup_delete_eq.
  rewrite (msum_delete f m k b H). lia.
Qed.

(** The sum after an insertion, whatever was stored under the key. *)
Lemma msum_insert {A : Type} (f : A → Z) (m : gmap string A) (k : string) (a : A) :
  msum f (<[k := a]> m) = msum f m - default 0 (f <$> m !! k) + f a.
Proof.
  destruct (m !! k) as [b|] eqn:E; cbn.
  - now apply msum_insert_Some.
  - rewrite msum_insert_None by exact E. lia.
Qed.

Lemma msum_nonneg {A : Type} (f : A → Z) (m : gmap string A) :
  map_Forall (λ _ a, 0 <= f a) m → 0 <= msum f m.
Proof.
  unfold msum. revert m.
  apply (map_fold_weak_ind (λ r m, map_Forall (λ _ a, 0 <= f a) m → 0 <= r)).
  - intros _. lia.
  - intros i x m r Hi IH Hall.
    apply map_Forall_insert in Hall as [Hx Hm]; [|exact Hi].
    specialize (IH Hm). lia.
Qed.

(** A fold that adds in [uint64] gives the sum, wrapped once. *)
Lemma wrapped_fold_sum {A : Type} (f : A → Z) (F : A → Z → Z) (m : gmap string A) (t0 : Z) :
  (∀ a t, F a t = u64 (t + f a)) →
  u64 (map_fold (λ _ a t, F a t) t0 m) = u64 (t0 + msum f m).
Proof.
  intros HF. unfold msum.
  apply (map_fold_weak_ind
           (λ r m, u64 r = u64 (t0 + map_fold (λ _ a acc, f a + acc) 0 m))).
  - rewrite map_fold_empty. f_equal. lia.
  - intros i x m' r Hi IH.
    rewrite map_fold_insert_L; [| intros; lia | exact Hi].
    rewrite HF, u64_u64, <- u64_add_l, IH, u64_add_l. f_equal. lia.
Qed.

Lemma wrapped_fold_range {A : Type} (F : A → Z → Z) (m : gmap string A) (t0 : Z) :
  (∀ a t, 0 <= F a t < 2 ^ 64) → 0 <= t0 < 2 ^ 64 →
  0 <= map_fold (λ _ a t, F a t) t0 m < 2 ^ 64.
Proof.
  intros HF Ht0.
  apply (map_fold_weak_ind (λ r _, 0 <= r < 2 ^ 64)); [exact Ht0|].
  intros. apply HF.
Qed.


(** ** state: holdings and total supply *)

Lemma add_account_supply_range (asset : string) (a : state.Account) (t : Z) :
  0 <= state.add_account_supply asset a t < 2 ^ 64.
Proof.
  unfold state.add_account_supply. cbv zeta.
  destruct (asset =? "GYDS")%string.
  - apply (wrapped_fold_range (λ delegated t, u64 (t + delegated))).
    + intros. apply u64_range.
    + apply u64_range.
  - apply u64_range.
Qed.

Lemma add_account_supply_spec (asset : string) (a : state.Account) (t : Z) :
  state.add_account_supply asset a t = u64 (t + holdings asset a).
Proof.
  rewrite <- (u64_small (state.add_account_supply asset a t))
    by apply add_account_supply_range.
  unfold state.add_account_supply, holdings. cbv zeta.
  destruct (asset =? "GYDS")%string.
  - rewrite (wrapped_fold_sum id (λ delegated t, u64 (t + delegated)))
      by (intros; reflexivity).
    rewrite u64_add_l, <- Z.add_assoc, u64_add_l. f_equal. lia.
  - rewrite u64_u64. f_equal. lia.
Qed.

(** [TotalSupply] is the sum of the holdings, wrapped once: the order in
    which Go ranges over the maps does not show. *)
Lemma TotalSupply_sum (s : state.StateDB) (asset : string) :
  state.StateDB_TotalSupply s asset = u64 (msum (holdings asset) (state.accounts s)).
Proof.
  unfold state.StateDB_TotalSupply.
  rewrite <- (u64_small (map_fold _ 0 (state.accounts s))).
  - rewrite (wrapped_fold_sum (holdings asset) (state.add_account_supply asset))
      by (intros; apply add_account_supply_spec).
    f_equal.
  - apply (wrapped_fold_range (state.add_account_supply asset)).
    + intros. apply add_account_supply_range.
    + lia.
Qed.

Lemma holdings_NewAccount (asset address : string) :
  holdings asset (state.NewAccount address) = 0.
Proof.
  unfold holdings, state.NewAccount, state.balance_of. cbn.
  rewrite lookup_empty, msum_empty. cbn. destruct (asset =? "GYDS")%string; lia.
Qed.

Lemma balance_of_insert (m : gmap string Z) (asset asset' : string) (x : Z) :
  state.balance_of (<[asset := x]> m) asset'
  = if decide (asset = asset') then x else state.balance_of m asset'.
Proof.
  unfold state.balance_of. destruct (decide (asset = asset')) as [->|Hne].
  - now rewrite lookup_insert_eq.
  - now rewrite lookup_insert_ne.
Qed.

Lemma holdings_SetBalance (asset asset' : string) (a : state.Account) (x : Z) :
  holdings asset' (state.SetBalance a asset x)
  = if decide (asset = asset')
    then holdings asset' a - state.GetBalance a asset + x
    else holdings asset' a.
Proof.
  unfold holdings, state.SetBalance, state.with_balances, state.GetBalance. cbn.
  rewrite balance_of_insert. destruct (decide (asset = asset')) as [->|Hne]; lia.
Qed.

Lemma update_balance_sum (s : state.StateDB) (address asset asset' : string)
  (f : Z → Z) (acc : state.Account) :
  state.accounts s !! address = Some acc →
  msum (holdings asset') (state.accounts (state.update_balance s address asset f))
  = msum (holdings asset') (state.accounts s)
    + (if decide (asset = asset')
       then f (state.GetBalance acc asset) - state.GetBalance acc asset
       else 0).
Proof.
  intros H. unfold state.update_balance. rewrite H. cbn.
  rewrite (msum_insert_Some _ _ _ _ acc H), holdings_SetBalance.
  destruct (decide (asset = asset')); lia.
Qed.

(** X4. Every call of [StateDB.Transfer], whether it succeeds or fails,
    leaves the total supply of every asset as it was: [TotalSupply] before
    and after are equal, also when the balances wrap around and when a failed
    call has created the receiver. *)
Theorem Transfer_conserves_supply (s : state.StateDB) (from to asset : string)
  (amount : Z) (asset' : string) :
  state.StateDB_TotalSupply (state.Transfer s from to asset amount).1 asset'
  = state.StateDB_TotalSupply s asset'.
Proof.
  rewrite !TotalSupply_sum. unfold state.Transfer.
  destruct (state.accounts s !! from) as [sender|] eqn:Hf; [|reflexivity].
  set (s1 := match state.accounts s !! to with
             | Some _ => s
             | None => state.with_accounts s (<[to := state.NewAccount to]> (state.accounts s))
             end).
  assert (Hs1 : msum (holdings asset') (state.accounts s1)
                = msum (holdings asset') (state.accounts s)).
  { unfold s1. destruct (state.accounts s !! to) eqn:Ht; [reflexivity|].
    cbn. rewrite msum_insert_None by exact Ht. rewrite holdings_NewAccount. lia. }
  assert (Hf1 : state.accounts s1 !! from = Some sender).
  { unfold s1. destruct (state.accounts s !! to) eqn:Ht; [exact Hf|].
    cbn. rewrite lookup_insert_ne; [exact Hf|]. intros ->. congruence. }
  assert (Ht1 : is_Some (state.accounts s1 !! to)).
  { unfold s1. destruct (state.accounts s !! to) eqn:Ht.
    - rewrite Ht. by eexists.
    - cbn. rewrite lookup_insert_eq. by eexists. }
  destruct (_ <? _); cbn [fst].
  - now rewrite Hs1.
  - cbn [state.mark_dirty state.accounts].
    set (s2 := state.update_balance s1 from asset (λ b, u64 (b - amount))).
    assert (Ht2 : is_Some (state.accounts s2 !! to)).
    { unfold s2, state.update_balance. rewrite Hf1. cbn.
      destruct (decide (from = to)) as [->|Hne].
      - rewrite lookup_insert_eq. by eexists.
      - now rewrite lookup_insert_ne. }
    destruct Ht2 as [r Hr].
    rewrite (update_balance_sum s2 to asset asset' _ r Hr).
    unfold s2. rewrite (update_balance_sum s1 from asset asset' _ sender Hf1).
    rewrite Hs1. destruct (decide (asset = asset')) as [_|_]; [|f_equal; lia].
    destruct (u64_decompose (state.GetBalance sender asset - amount)) as [k1 ->].
    destruct (u64_decompose (state.GetBalance r asset + amount)) as [k2 ->].
    apply (u64_congr _ _ (k1 + k2)). lia.
Qed.


(** ** state: what [Transfer] leaves alone *)

Lemma StateDB_GetBalance_lookup (s : state.StateDB) (address asset : string) :
  state.StateDB_GetBalance s address asset
  = default 0 ((λ a, state.GetBalance a asset) <$> state.accounts s !! address).
Proof.
  unfold state.StateDB_GetBalance, state.GetAccount.
  destruct (state.accounts s !! address) as [a|]; cbn; [now rewrite Copy_id | reflexivity].
Qed.

Lemma update_balance_lookup (s : state.StateDB) (address asset : string) (f : Z → Z)
  (other : string) :
  state.accounts (state.update_balance s address asset f) !! other
  = if decide (address = other)
    then (λ acc, state.SetBalance acc asset (f (state.GetBalance acc asset)))
           <$> state.accounts s !! address
    else state.accounts s !! other.
Proof.
  unfold state.update_balance.
  destruct (state.accounts s !! address) as [acc|] eqn:E; cbn.
  - destruct (decide (address = other)) as [->|Hne].
    + now rewrite lookup_insert_eq.
    + now rewrite lookup_insert_ne.
  - destruct (decide (address = other)) as [->|Hne]; [exact E | reflexivity].
Qed.

Lemma update_balance_assets_root (s : state.StateDB) (address asset : string) (f : Z → Z) :
  state.assets (state.update_balance s address asset f) = state.assets s
  ∧ state.root (state.update_balance s address asset f) = state.root s.
Proof.
  unfold state.update_balance. destruct (state.accounts s !! address); by split.
Qed.

(** The accounts after a call of [Transfer], address by address. *)
Lemma Transfer_accounts (s : state.StateDB) (from to asset : string) (amount : Z)
  (addr : string) :
  addr ≠ from → addr ≠ to →
  state.accounts (state.Transfer s from to asset amount).1 !! addr
  = state.accounts s !! addr.
Proof.
  intros Hf Ht. unfold state.Transfer.
  destruct (state.accounts s !! from) as [sender|] eqn:E; [|reflexivity].
  set (s1 := match state.accounts s !! to with
             | Some _ => s
             | None => state.with_accounts s (<[to := state.NewAccount to]> (state.accounts s))
             end).
  assert (H1 : state.accounts s1 !! addr = state.accounts s !! addr).
  { unfold s1. destruct (state.accounts s !! to); [reflexivity|].
    cbn. now rewrite lookup_insert_ne. }
  destruct (_ <? _); cbn [fst]; [exact H1|].
  cbn [state.mark_dirty state.accounts].
  rewrite !update_balance_lookup.
  destruct (decide (to = addr)); [congruence|].
  destruct (decide (from = addr)); [congruence|]. exact H1.
Qed.

(** X5. [Transfer] touches nothing but the balance of [asset] in the two
    accounts. Whatever the outcome of the call: every account other than
    [from] and [to] is as before; every balance of every other asset is as
    before; no account disappears, and every account keeps its nonce, its
    staked amount and its delegations; assets and root are untouched. *)
Theorem Transfer_frame (s : state.StateDB) (from to asset : string) (amount : Z) :
  let s' := (state.Transfer s from to asset amount).1 in
  (∀ addr, addr ≠ from → addr ≠ to → state.accounts s' !! addr = state.accounts s !! addr)
  ∧ (∀ addr asset', asset' ≠ asset →
       state.StateDB_GetBalance s' addr asset' = state.StateDB_GetBalance s addr asset')
  ∧ (∀ addr acc, state.accounts s !! addr = Some acc →
       ∃ acc', state.accounts s' !! addr = Some acc'
         ∧ state.Nonce acc' = state.Nonce acc
         ∧ state.Staked acc' = state.Staked acc
         ∧ state.Delegated acc' = state.Delegated acc)
  ∧ state.assets s' = state.assets s
  ∧ state.root s' = state.root s.
Proof.
  cbv zeta. split; [intros; now apply Transfer_accounts|].
  unfold state.Transfer.
  destruct (state.accounts s !! from) as [sender|] eqn:Hf.
  2:{ cbn [fst]. split_and!; try reflexivity.
      intros addr acc H. exists acc. by split_and!. }
  set (s1 := match state.accounts s !! to with
             | Some _ => s
             | None => state.with_accounts s (<[to := state.NewAccount to]> (state.accounts s))
             end).
  assert (H1 : ∀ addr,
             state.accounts s1 !! addr = state.accounts s !! addr
             ∨ (state.accounts s !! addr = None
                ∧ state.accounts s1 !! addr = Some (state.NewAccount addr))).
  { intros addr. unfold s1. destruct (state.accounts s !! to) eqn:Ht; [by left|].
    cbn. destruct (decide (to = addr)) as [<-|Hne].
    - right. rewrite lookup_insert_eq. by split.
    - left. now rewrite lookup_insert_ne. }
  assert (Ha1 : state.assets s1 = state.assets s ∧ state.root s1 = state.root s).
  { unfold s1. destruct (state.accounts s !! to); by split. }
  assert (Hb1 : ∀ addr asset',
             state.StateDB_GetBalance s1 addr asset' = state.StateDB_GetBalance s addr asset').
  { intros addr asset'. rewrite !StateDB_GetBalance_lookup.
    destruct (H1 addr) as [->|[-> ->]]; reflexivity. }
  destruct (_ <? _); cbn [fst].
  - split_and!; try tauto.
    + intros. apply Hb1.
    + intros addr acc H. destruct (H1 addr) as [E|[E _]]; [|congruence].
      exists acc. rewrite E. by split_and!.
  - set (f1 := λ b : Z, u64 (b - amount)). set (f2 := λ b : Z, u64 (b + amount)).
    assert (Hshape : ∀ addr, ∃ g : state.Account → state.Account,
               state.accounts
                 (state.mark_dirty
                    (state.mark_dirty
                       (state.update_balance (state.update_balance s1 from asset f1) to asset f2)
                       from) to) !! addr
               = g <$> state.accounts s1 !! addr
               ∧ (∀ a, state.Nonce (g a) = state.Nonce a
                       ∧ state.Staked (g a) = state.Staked a
                       ∧ state.Delegated (g a) = state.Delegated a
                       ∧ ∀ asset', asset' ≠ asset →
                           state.GetBalance (g a) asset' = state.GetBalance a asset')).
    { intros addr. cbn [state.mark_dirty state.accounts].
      rewrite !update_balance_lookup.
      destruct (decide (to = addr)) as [<-|Hnt].
      - destruct (decide (from = to)) as [->|Hnf].
        + eexists (λ a, state.SetBalance (state.SetBalance a asset _) asset _).
          split.
          * destruct (state.accounts s1 !! to); cbn; reflexivity.
          * intros a. split_and!; try reflexivity.
            intros asset' Hne. rewrite !GetBalance_SetBalance_ne by congruence. reflexivity.
        + eexists (λ a, state.SetBalance a asset _). split; [reflexivity|].
          intros a. split_and!; try reflexivity.
          intros asset' Hne. now rewrite GetBalance_SetBalance_ne by congruence.
      - destruct (decide (from = addr)) as [<-|Hnf].
        + eexists (λ a, state.SetBalance a asset _). split; [reflexivity|].
          intros a. split_and!; try reflexivity.
          intros asset' Hne. now rewrite GetBalance_SetBalance_ne by congruence.
        + exists id. split; [now rewrite option_fmap_id|].
          intros a. by split_and!. }
    split_and!; try tauto.
    + intros addr asset' Hne. rewrite <- Hb1. rewrite !StateDB_GetBalance_lookup.
      destruct (Hshape addr) as (g & -> & Hg).
      destruct (state.accounts s1 !! addr) as [a|]; cbn; [|reflexivity].
      now apply Hg.
    + intros addr acc H. destruct (Hshape addr) as (g & -> & Hg).
      destruct (H1 addr) as [E|[E _]]; [|congruence].
      rewrite E, H. cbn. exists (g acc). split; [reflexivity|].
      destruct (Hg acc) as (? & ? & ? & _). by split_and!.
    + cbn [state.mark_dirty state.assets].
      rewrite !(proj1 (update_balance_assets_root _ _ _ _)). tauto.
    + cbn [state.mark_dirty state.root].
      rewrite !(proj2 (update_balance_assets_root _ _ _ _)). tauto.
Qed.

(** X6. A transfer of an account to itself changes no balance: for an
    existing account whose balance covers [amount], [Transfer(a, a, asset,
    amount)] succeeds, and afterwards every balance of every address is what
    it was (the amount is subtracted and added back on the same account). *)
Theorem Transfer_to_self_keeps_balances (s : state.StateDB) (a asset : string)
  (amount : Z) (sender : state.Account) :
  state.accounts s !! a = Some sender →
  0 <= amount → amount <= state.GetBalance sender asset →
  state.GetBalance sender asset < 2 ^ 64 →
  ∃ s', state.Transfer s a a asset amount = (s', None)
    ∧ (∀ addr asset',
         state.StateDB_GetBalance s' addr asset' = state.StateDB_GetBalance s addr asset')
    ∧ state.dirty s' !! a = Some true.
Proof.
  intros Hs H0 Hle Hlt. unfold state.Transfer. rewrite Hs.
  destruct (_ <? _) eqn:E; [apply Z.ltb_lt in E; lia|].
  eexists. split; [reflexivity|]. split.
  - intros addr asset'. rewrite !StateDB_GetBalance_lookup.
    cbn [state.mark_dirty state.accounts]. rewrite !update_balance_lookup.
    destruct (decide (a = addr)) as [<-|Hne]; [|reflexivity].
    rewrite Hs. cbn. rewrite decide_True by reflexivity. cbn.
    destruct (decide (asset = asset')) as [<-|Hna].
    + rewrite !GetBalance_SetBalance. rewrite (u64_small (_ - _)) by lia.
      rewrite u64_small by lia. lia.
    + now rewrite !GetBalance_SetBalance_ne by exact Hna.
  - cbn. apply lookup_insert_eq.
Qed.

Lemma Transfer_to_self_keeps_balances_witness :
  ∃ s', state.Transfer (scenario.funded 1000) "A" "A" "GYDS" 100 = (s', None)
    ∧ (∀ addr asset',
         state.StateDB_GetBalance s' addr asset'
         = state.StateDB_GetBalance (scenario.funded 1000) addr asset')
    ∧ state.dirty s' !! "A" = Some true.
Proof.
  apply (Transfer_to_self_keeps_balances (scenario.funded 1000) "A" "GYDS" 100
           (state.SetBalance (state.NewAccount "A") "GYDS" 1000)).
  - vm_compute. reflexivity.
  - lia.
  - vm_compute. discriminate.
  - vm_compute. reflexivity.
Defined.

(** ** state: storing, reading and deleting accounts *)

(** [SetAccount] followed by [GetAccount] gives the account back, and
    [DeleteAccount] makes it absent; neither changes what is stored under
    another address; both mark the address dirty; the balance of a deleted
    account reads as zero. *)
Lemma SetAccount_GetAccount_DeleteAccount (s : state.StateDB) (address : string)
  (account : state.Account) :
  state.GetAccount (state.SetAccount s address account) address = Some account
  ∧ state.GetAccount (state.DeleteAccount s address) address = None
  ∧ (∀ asset, state.StateDB_GetBalance (state.DeleteAccount s address) address asset = 0)
  ∧ (∀ asset, state.StateDB_GetBalance (state.SetAccount s address account) address asset
              = state.GetBalance account asset)
  ∧ (∀ other, other ≠ address →
       state.GetAccount (state.SetAccount s address account) other = state.GetAccount s other
       ∧ state.GetAccount (state.DeleteAccount s address) other = state.GetAccount s other)
  ∧ state.dirty (state.SetAccount s address account) !! address = Some true
  ∧ state.dirty (state.DeleteAccount s address) !! address = Some true.
Proof.
  unfold state.StateDB_GetBalance, state.GetAccount, state.SetAccount, state.DeleteAccount.
  cbn. rewrite !lookup_insert_eq, lookup_delete_eq. cbn. rewrite !Copy_id.
  split_and!; try reflexivity.
  intros other Hne. rewrite lookup_insert_ne, lookup_delete_ne by congruence. by split.
Qed.


(** ** state: staking and delegating on an account *)

Lemma holdings_with_staked (asset : string) (a : state.Account) (x : Z) :
  holdings asset (state.with_staked a x)
  = holdings asset a + (if (asset =? "GYDS")%string then x - state.Staked a else 0).
Proof.
  unfold holdings, state.with_staked. cbn. destruct (asset =? "GYDS")%string; lia.
Qed.

Lemma holdings_with_delegated (asset : string) (a : state.Account) (d : gmap string Z) :
  holdings asset (state.with_delegated a d)
  = holdings asset a
    + (if (asset =? "GYDS")%string then msum id d - msum id (state.Delegated a) else 0).
Proof.
  unfold holdings, state.with_delegated. cbn. destruct (asset =? "GYDS")%string; lia.
Qed.

Lemma msum_id_insert (m : gmap string Z) (k : string) (x : Z) :
  msum id (<[k := x]> m) = msum id m - state.balance_of m k + x.
Proof.
  rewrite msum_insert. unfold state.balance_of.
  destruct (m !! k); reflexivity.
Qed.

(** [Stake] followed by [Unstake] of the same amount gives back what was
    there. *)
Lemma Stake_Unstake_roundtrip (a : state.Account) (amount : Z) :
  0 <= amount → amount <= state.GetBalance a "GYDS" → state.GetBalance a "GYDS" < 2 ^ 64 →
  0 <= state.Staked a → state.Staked a + amount < 2 ^ 64 →
  ∃ a1 a2,
    state.Stake a amount = (a1, true)
    ∧ state.GetBalance a1 "GYDS" = state.GetBalance a "GYDS" - amount
    ∧ state.Staked a1 = state.Staked a + amount
    ∧ state.Unstake a1 amount = (a2, true)
    ∧ (∀ asset, state.GetBalance a2 asset = state.GetBalance a asset)
    ∧ state.Staked a2 = state.Staked a
    ∧ state.Nonce a2 = state.Nonce a
    ∧ state.Delegated a2 = state.Delegated a
    ∧ (∀ more, state.GetBalance a "GYDS" < more → state.Stake a more = (a, false)).
Proof.
  intros H0 Hle Hlt Hs Hs2.
  unfold state.Stake.
  destruct (state.GetBalance a "GYDS" <? amount) eqn:E; [apply Z.ltb_lt in E; lia|].
  eexists _, _. split; [reflexivity|].
  split.
  { change (state.GetBalance (state.with_staked ?x ?y) "GYDS")
      with (state.GetBalance x "GYDS").
    rewrite GetBalance_SetBalance. apply u64_small. lia. }
  split.
  { cbn. apply u64_small. lia. }
  unfold state.Unstake.
  cbn [state.Staked state.with_staked state.SetBalance state.with_balances].
  rewrite (u64_small (state.Staked a + amount)) by lia.
  destruct (state.Staked a + amount <? amount) eqn:E2; [apply Z.ltb_lt in E2; lia|].
  split; [reflexivity|].
  split_and!.
  - intros asset. destruct (decide (asset = "GYDS")) as [->|Hne].
    + rewrite GetBalance_SetBalance.
      unfold state.GetBalance at 1. cbn. rewrite balance_of_insert.
      rewrite decide_True by reflexivity.
      rewrite (u64_small (_ - _)) by lia. rewrite u64_small by lia. lia.
    + rewrite GetBalance_SetBalance_ne by congruence.
      unfold state.GetBalance. cbn. rewrite balance_of_insert.
      now rewrite decide_False by congruence.
  - cbn. rewrite u64_small by lia. lia.
  - reflexivity.
  - reflexivity.
  - intros more Hmore. apply Z.ltb_lt in Hmore. now rewrite Hmore.
Qed.


(** X7. [Stake], [Unstake], [Account.Delegate] and [Account.Undelegate] only
    move GYDS between the balance, the staked amount and the delegations of
    the account: for every account and every amount, what the account holds
    in GYDS as [TotalSupply] counts it (balance + staked + delegated, in
    [uint64]) is the same before and after, and a call that reports [false]
    has changed nothing. [Unstake] undoes [Stake]: for an amount that the
    GYDS balance covers (and a staked amount that does not wrap), [Stake]
    followed by [Unstake] of the same amount restores every balance and the
    staked amount. *)
Theorem staking_keeps_holdings (a : state.Account) (validator : string) (amount : Z) :
  u64 (holdings "GYDS" (state.Stake a amount).1) = u64 (holdings "GYDS" a)
  ∧ u64 (holdings "GYDS" (state.Unstake a amount).1) = u64 (holdings "GYDS" a)
  ∧ u64 (holdings "GYDS" (state.Delegate a validator amount).1) = u64 (holdings "GYDS" a)
  ∧ u64 (holdings "GYDS" (state.Undelegate a validator amount).1) = u64 (holdings "GYDS" a)
  ∧ ((state.Stake a amount).2 = false → (state.Stake a amount).1 = a)
  ∧ ((state.Unstake a amount).2 = false → (state.Unstake a amount).1 = a)
  ∧ ((state.Delegate a validator amount).2 = false → (state.Delegate a validator amount).1 = a)
  ∧ ((state.Undelegate a validator amount).2 = false
     → (state.Undelegate a validator amount).1 = a)
  ∧ (0 <= amount → amount <= state.GetBalance a "GYDS" →
     state.GetBalance a "GYDS" < 2 ^ 64 →
     0 <= state.Staked a → state.Staked a + amount < 2 ^ 64 →
     let staked := (state.Stake a amount).1 in
     let unstaked := (state.Unstake staked amount).1 in
     (state.Stake a amount).2 = true
     ∧ state.GetBalance staked "GYDS" = state.GetBalance a "GYDS" - amount
     ∧ state.Staked staked = state.Staked a + amount
     ∧ (state.Unstake staked amount).2 = true
     ∧ (∀ asset, state.GetBalance unstaked asset = state.GetBalance a asset)
     ∧ state.Staked unstaked = state.Staked a).
Proof.
  split_and!.
  9:{ intros H0 Hle Hlt Hs Hs2. cbv zeta.
      destruct (Stake_Unstake_roundtrip a amount H0 Hle Hlt Hs Hs2)
        as (a1 & a2 & -> & Hb1 & Hs1 & Hu & Hb2 & Hst2 & _).
      cbn [fst snd]. rewrite Hu. cbn [fst snd]. by split_and!. }
  all: unfold state.Stake, state.Unstake, state.Delegate, state.Undelegate.
  - destruct (_ <? _); cbn [fst]; [reflexivity|].
    rewrite holdings_with_staked, holdings_SetBalance, decide_True by reflexivity. cbn.
    destruct (u64_decompose (state.GetBalance a "GYDS" - amount)) as [k1 ->].
    destruct (u64_decompose (state.Staked a + amount)) as [k2 ->].
    apply (u64_congr _ _ (k1 + k2)). lia.
  - destruct (_ <? _); cbn [fst]; [reflexivity|].
    rewrite holdings_SetBalance, holdings_with_staked, decide_True by reflexivity. cbn.
    change (state.GetBalance (state.with_staked a ?x) "GYDS")
      with (state.GetBalance a "GYDS").
    destruct (u64_decompose (state.GetBalance a "GYDS" + amount)) as [k1 ->].
    destruct (u64_decompose (state.Staked a - amount)) as [k2 ->].
    apply (u64_congr _ _ (k1 + k2)). lia.
  - destruct (_ <? _); cbn [fst]; [reflexivity|].
    rewrite holdings_with_delegated, holdings_SetBalance, decide_True by reflexivity. cbn.
    rewrite msum_id_insert.
    destruct (u64_decompose (state.GetBalance a "GYDS" - amount)) as [k1 ->].
    destruct (u64_decompose (state.balance_of (state.Delegated a) validator + amount))
      as [k2 ->].
    apply (u64_congr _ _ (k1 + k2)). lia.
  - destruct (_ <? _); cbn [fst]; [reflexivity|].
    rewrite holdings_SetBalance, holdings_with_delegated, decide_True by reflexivity. cbn.
    change (state.GetBalance (state.with_delegated a ?x) "GYDS")
      with (state.GetBalance a "GYDS").
    rewrite msum_id_insert.
    destruct (u64_decompose (state.GetBalance a "GYDS" + amount)) as [k1 ->].
    destruct (u64_decompose (state.balance_of (state.Delegated a) validator - amount))
      as [k2 ->].
    apply (u64_congr _ _ (k1 + k2)). lia.
  - destruct (_ <? _); cbn; [reflexivity | discriminate].
  - destruct (_ <? _); cbn; [reflexivity | discriminate].
  - destruct (_ <? _); cbn; [reflexivity | discriminate].
  - destruct (_ <? _); cbn; [reflexivity | discriminate].
Qed.


(** ** tx: what [Verify] does not look at *)

(** X8. [Transaction.Verify] never looks inside the signature, and never
    at the public key, the nonce, the fee, the timestamp or the data: a
    transaction with a non-empty signature gets the same verdict after its
    signature is replaced by any other non-empty byte string and those
    fields by arbitrary values. *)
Theorem Verify_ignores_signature_content (t : tx.Transaction) (sig pub data : list Z)
  (fee nonce timestamp : Z) :
  tx.Signature t ≠ [] → sig ≠ [] →
  tx.Verify {| tx.Type_ := tx.Type_ t; tx.From := tx.From t; tx.To := tx.To t;
               tx.Amount := tx.Amount t; tx.Asset := tx.Asset t; tx.Fee := fee;
               tx.Nonce := nonce; tx.Timestamp := timestamp; tx.Data := data;
               tx.Signature := sig; tx.PubKey := pub |}
  = tx.Verify t.
Proof.
  intros Ht Hsig. unfold tx.Verify. cbn.
  destruct sig as [|b sig]; [congruence|].
  destruct (tx.Signature t) as [|b' sig']; [congruence|]. reflexivity.
Qed.

Lemma Verify_ignores_signature_content_witness :
  tx.Verify {| tx.Type_ := tx.Type_ scenario.tx_ok; tx.From := tx.From scenario.tx_ok;
               tx.To := tx.To scenario.tx_ok; tx.Amount := tx.Amount scenario.tx_ok;
               tx.Asset := tx.Asset scenario.tx_ok; tx.Fee := 0; tx.Nonce := 77;
               tx.Timestamp := 5; tx.Data := [1; 2]; tx.Signature := [0];
               tx.PubKey := [9] |}
  = tx.Verify scenario.tx_ok.
Proof.
  apply (Verify_ignores_signature_content scenario.tx_ok [0] [9] [1; 2] 0 77 5).
  - vm_compute. discriminate.
  - discriminate.
Defined.

(** ** tx: the map and the queue of the mempool *)

Lemma fold_Push_elem_of (l : list (string * tx.MempoolTx)) : ∀ q e,
  e ∈ fold_left (λ q kv, tx.heap_Push q kv.2) l q ↔ e ∈ q ∨ e ∈ l.*2.
Proof.
  induction l as [|kv l IH]; intros q e; cbn [fold_left].
  - cbn. rewrite elem_of_nil. tauto.
  - rewrite IH, heap_Push_elem_of. rewrite fmap_cons, elem_of_cons. tauto.
Qed.

Lemma fold_Push_length (l : list (string * tx.MempoolTx)) : ∀ q,
  length (fold_left (λ q kv, tx.heap_Push q kv.2) l q) = (length q + length l)%nat.
Proof.
  induction l as [|kv l IH]; intros q; cbn [fold_left].
  - cbn. lia.
  - rewrite IH, heap_Push_length. cbn. lia.
Qed.

Lemma rebuildQueue_elem_of (mp : tx.Mempool) (e : tx.MempoolTx) :
  e ∈ tx.queue (tx.rebuildQueue mp) ↔ ∃ h, tx.txs mp !! h = Some e.
Proof.
  unfold tx.rebuildQueue. cbn [tx.queue tx.with_queue].
  rewrite fold_Push_elem_of. change (tx.heap_Init []) with (@nil tx.MempoolTx).
  rewrite elem_of_nil, list_elem_of_fmap. split.
  - intros [[]|([h e'] & -> & Hin)]. exists h. by apply elem_of_map_to_list.
  - intros [h Hh]. right. exists (h, e). split; [reflexivity|].
    by apply elem_of_map_to_list.
Qed.

Lemma rebuildQueue_length (mp : tx.Mempool) :
  length (tx.queue (tx.rebuildQueue mp)) = size (tx.txs mp).
Proof.
  unfold tx.rebuildQueue. cbn [tx.queue tx.with_queue].
  rewrite fold_Push_length. change (tx.heap_Init []) with (@nil tx.MempoolTx).
  cbn. apply length_map_to_list.
Qed.

(** What [evictLowest] does when it evicts, and that it changes nothing
    when it does not. *)
Lemma evictLowest_inv (mp mp1 : tx.Mempool) (g : Z) (b : bool) :
  tx.evictLowest mp g = (mp1, b) →
  (b = false ∧ mp1 = mp)
  ∨ (b = true
     ∧ ∃ lowest, tx.queue mp !! (length (tx.queue mp) - 1)%nat = Some lowest
         ∧ tx.GasPrice lowest < g
         ∧ mp1 = tx.rebuildQueue (tx.with_txs mp (delete (tx.Hash lowest) (tx.txs mp)))).
Proof.
  unfold tx.evictLowest. intros H.
  destruct (_ =? _)%nat; [left; by inversion H|].
  destruct (_ !! _) as [lowest|] eqn:El; [|left; by inversion H].
  destruct (_ >=? _) eqn:Eg; [left; by inversion H|].
  right. inversion H; subst. split; [reflexivity|].
  exists lowest. rewrite Z.geb_leb in Eg. apply Z.leb_gt in Eg. by split_and!.
Qed.

(** The entry that [AddTx] builds for a transaction. *)
Lemma AddTx_success_inv (Size : tx.Transaction → Z) (HashHex : tx.Transaction → string)
  (mp mp' : tx.Mempool) (t : tx.Transaction) (now : Z) :
  tx.AddTx Size HashHex mp t now = (mp', None) →
  ∃ mp1 accepted,
    tx.Verify t = None
    ∧ Size t <= tx.MaxTxSize (tx.config mp)
    ∧ tx.MinGasPrice (tx.config mp) <= tx.Fee t / Size t
    ∧ tx.txs mp !! HashHex t = None
    ∧ ((mp1 = mp ∧ Z.of_nat (size (tx.txs mp)) < tx.MaxSize (tx.config mp))
       ∨ (tx.MaxSize (tx.config mp) <= Z.of_nat (size (tx.txs mp))
          ∧ tx.evictLowest mp (tx.Fee t / Size t) = (mp1, accepted) ∧ accepted = true))
    ∧ default 0 (tx.nonces mp1 !! tx.From t) <= tx.Nonce t
    ∧ let mtx := {| tx.Tx := t; tx.Hash := HashHex t; tx.AddedAt := now;
                    tx.GasPrice := tx.Fee t / Size t;
                    tx.Priority := int64 (tx.Fee t / Size t) |} in
      mp' = tx.with_nonces
              (tx.with_queue (tx.with_txs mp1 (<[HashHex t := mtx]> (tx.txs mp1)))
                 (tx.heap_Push (tx.queue mp1) mtx))
              (<[tx.From t := u64 (tx.Nonce t + 1)]> (tx.nonces mp1)).
Proof.
  unfold tx.AddTx. intros H.
  destruct (tx.Verify t) eqn:Ev; [by inversion H|].
  destruct (_ >? _) eqn:Es; [by inversion H|].
  destruct (_ <? _) eqn:Eg; [by inversion H|].
  destruct (tx.txs mp !! HashHex t) eqn:Ed; [by inversion H|].
  rewrite Z.gtb_ltb in Es. apply Z.ltb_ge in Es. apply Z.ltb_ge in Eg.
  destruct (_ >=? _) eqn:Ef.
  - rewrite Z.geb_leb in Ef. apply Z.leb_le in Ef.
    destruct (tx.evictLowest mp (tx.Fee t / Size t)) as [mp1 accepted] eqn:Ee.
    destruct accepted; cbn [negb] in H; [|by inversion H].
    destruct (_ <? _) eqn:En; [by inversion H|]. apply Z.ltb_ge in En.
    exists mp1, true. inversion H; subst. split_and!; try done. right. by split_and!.
  - rewrite Z.geb_leb in Ef. apply Z.leb_gt in Ef. cbn [negb] in H.
    destruct (_ <? _) eqn:En; [by inversion H|]. apply Z.ltb_ge in En.
    exists mp, true. inversion H; subst. split_and!; try done. left. by split.
Qed.

(** X9. An accepted transaction is in the pool: when [AddTx] returns no
    error, the transaction passed [Verify], the size and the gas-price
    checks, it was not in the pool before, [GetTx] and [HasTx] find it under
    its hash afterwards, the queue holds an entry for it with gas price
    [Fee / Size], the pool has grown by at most one, and the next nonce
    recorded for its sender is its nonce plus one. *)
Theorem AddTx_success_stores (Size : tx.Transaction → Z) (HashHex : tx.Transaction → string)
  (mp mp' : tx.Mempool) (t : tx.Transaction) (now : Z) :
  tx.AddTx Size HashHex mp t now = (mp', None) →
  tx.Verify t = None
  ∧ Size t <= tx.MaxTxSize (tx.config mp)
  ∧ tx.MinGasPrice (tx.config mp) <= tx.Fee t / Size t
  ∧ tx.HasTx mp (HashHex t) = false
  ∧ tx.GetTx mp' (HashHex t) = Some t
  ∧ tx.HasTx mp' (HashHex t) = true
  ∧ (∃ mtx, mtx ∈ tx.queue mp' ∧ tx.Tx mtx = t ∧ tx.Hash mtx = HashHex t
            ∧ tx.GasPrice mtx = tx.Fee t / Size t ∧ tx.AddedAt mtx = now)
  ∧ tx.Mempool_Size mp' <= tx.Mempool_Size mp + 1
  ∧ tx.nonces mp' !! tx.From t = Some (u64 (tx.Nonce t + 1)).
Proof.
  intros H. apply AddTx_success_inv in H
    as (mp1 & accepted & Hv & Hs & Hg & Hd & Hfull & Hn & ->).
  unfold tx.GetTx, tx.HasTx, tx.Mempool_Size.
  cbn [tx.with_nonces tx.with_queue tx.with_txs tx.txs tx.queue tx.nonces].
  rewrite !lookup_insert_eq, Hd. cbn.
  split_and!; try done.
  - eexists. split; [apply heap_Push_elem_of; by right|]. by split_and!.
  - assert (Hsize : (size (tx.txs mp1) <= size (tx.txs mp))%nat).
    { destruct Hfull as [[-> _]|(_ & He & _)]; [lia|].
      apply evictLowest_inv in He as [[_ ->]|(_ & lowest & _ & _ & ->)]; [lia|].
      cbn. apply map_subseteq_size, delete_subseteq. }
    pose proof (map_size_insert (HashHex t)
                  {| tx.Tx := t; tx.Hash := HashHex t; tx.AddedAt := now;
                     tx.GasPrice := tx.Fee t / Size t;
                     tx.Priority := int64 (tx.Fee t / Size t) |} (tx.txs mp1)) as Hi.
    destruct (tx.txs mp1 !! HashHex t); rewrite Hi; cbn; lia.
Qed.

Lemma AddTx_success_stores_witness :
  let mp := tx.NewMempool (scenario.pool_config 3) in
  let t := scenario.paying "S1" 1000 in
  let mp' := (tx.AddTx scenario.size100 scenario.hash_by_sender mp t 1).1 in
  tx.Verify t = None
  ∧ scenario.size100 t <= tx.MaxTxSize (tx.config mp)
  ∧ tx.MinGasPrice (tx.config mp) <= tx.Fee t / scenario.size100 t
  ∧ tx.HasTx mp (scenario.hash_by_sender t) = false
  ∧ tx.GetTx mp' (scenario.hash_by_sender t) = Some t
  ∧ tx.HasTx mp' (scenario.hash_by_sender t) = true
  ∧ (∃ mtx, mtx ∈ tx.queue mp' ∧ tx.Tx mtx = t ∧ tx.Hash mtx = scenario.hash_by_sender t
            ∧ tx.GasPrice mtx = tx.Fee t / scenario.size100 t ∧ tx.AddedAt mtx = 1)
  ∧ tx.Mempool_Size mp' <= tx.Mempool_Size mp + 1
  ∧ tx.nonces mp' !! tx.From t = Some (u64 (tx.Nonce t + 1)).
Proof.
  cbv zeta.
  apply (AddTx_success_stores scenario.size100 scenario.hash_by_sender
           (tx.NewMempool (scenario.pool_config 3)) _ (scenario.paying "S1" 1000) 1).
  vm_compute. reflexivity.
Defined.


Lemma evictLowest_config_nonces (mp : tx.Mempool) (g : Z) :
  tx.config (tx.evictLowest mp g).1 = tx.config mp
  ∧ tx.nonces (tx.evictLowest mp g).1 = tx.nonces mp.
Proof.
  destruct (tx.evictLowest mp g) as [mp1 b] eqn:E.
  apply evictLowest_inv in E as [[_ ->]|(_ & lowest & _ & _ & ->)]; by split.
Qed.

(** X10. After a transaction of a sender was accepted, the pool accepts no
    transaction of the same sender whose nonce is not above the accepted one
    (so an accepted transaction cannot be replaced by one with the same
    nonce and a higher fee): every such [AddTx] returns an error. The nonce
    is a [uint64], hence the bound that keeps [Nonce + 1] from wrapping. *)
Theorem AddTx_rejects_stale_nonce (Size : tx.Transaction → Z)
  (HashHex : tx.Transaction → string) (mp mp' : tx.Mempool) (t t' : tx.Transaction)
  (now now' : Z) :
  tx.AddTx Size HashHex mp t now = (mp', None) →
  tx.From t' = tx.From t →
  0 <= tx.Nonce t → tx.Nonce t + 1 < 2 ^ 64 →
  tx.Nonce t' <= tx.Nonce t →
  ∃ e, (tx.AddTx Size HashHex mp' t' now').2 = Some e.
Proof.
  intros H Hfrom H0 Hw Hle.
  apply AddTx_success_inv in H as (mp0 & acc0 & _ & _ & _ & _ & _ & _ & ->).
  assert (Hn : tx.nonces
                 (tx.with_nonces
                    (tx.with_queue
                       (tx.with_txs mp0
                          (<[HashHex t := {| tx.Tx := t; tx.Hash := HashHex t;
                                             tx.AddedAt := now;
                                             tx.GasPrice := tx.Fee t / Size t;
                                             tx.Priority := int64 (tx.Fee t / Size t) |}]>
                             (tx.txs mp0)))
                       (tx.heap_Push (tx.queue mp0)
                          {| tx.Tx := t; tx.Hash := HashHex t; tx.AddedAt := now;
                             tx.GasPrice := tx.Fee t / Size t;
                             tx.Priority := int64 (tx.Fee t / Size t) |}))
                    (<[tx.From t := u64 (tx.Nonce t + 1)]> (tx.nonces mp0)))
               !! tx.From t = Some (u64 (tx.Nonce t + 1))).
  { cbn. apply lookup_insert_eq. }
  set (mp' := tx.with_nonces _ _) in *. clearbody mp'.
  unfold tx.AddTx.
  destruct (tx.Verify t'); [by eexists|].
  destruct (_ >? _); [by eexists|].
  destruct (_ <? _); [by eexists|].
  destruct (tx.txs mp' !! HashHex t'); [by eexists|].
  assert (Hstale : ∀ mp1, tx.nonces mp1 = tx.nonces mp' →
            (tx.Nonce t' <? default 0 (tx.nonces mp1 !! tx.From t')) = true).
  { intros mp1 ->. rewrite Hfrom, Hn. cbn. rewrite u64_small by lia.
    apply Z.ltb_lt. lia. }
  destruct (_ >=? _).
  - pose proof (evictLowest_config_nonces mp' (tx.Fee t' / Size t')) as [_ Hnon].
    destruct (tx.evictLowest mp' (tx.Fee t' / Size t')) as [mp1 accepted].
    cbn [fst] in Hnon.
    destruct accepted; cbn [negb]; [|by eexists].
    rewrite (Hstale mp1 Hnon). by eexists.
  - cbn [negb]. rewrite (Hstale mp' eq_refl). by eexists.
Qed.

Lemma AddTx_rejects_stale_nonce_witness :
  ∃ e, (tx.AddTx scenario.size100 scenario.hash_by_route scenario.pool_full_S1
          (scenario.signed_transfer "transfer" "S1" "Q" 1 900 5) 2).2 = Some e.
Proof.
  apply (AddTx_rejects_stale_nonce scenario.size100 scenario.hash_by_route
           (tx.NewMempool (scenario.pool_config 1)) scenario.pool_full_S1
           (scenario.signed_transfer "transfer" "S1" "R" 1 500 5)
           (scenario.signed_transfer "transfer" "S1" "Q" 1 900 5) 1 2).
  - vm_compute. reflexivity.
  - reflexivity.
  - vm_compute. discriminate.
  - vm_compute. reflexivity.
  - vm_compute. discriminate.
Defined.

(** X11. A rejected transaction can still cost another one its place: when
    the pool is full, the last slot of the queue has a lower gas price than
    the new transaction, and the nonce of the new transaction is below the
    one recorded for its sender, [AddTx] first evicts the entry of the last
    slot and only then returns [ErrNonceTooLow]. The pool has lost the
    evicted transaction and has not gained the new one. *)
Theorem AddTx_evicts_then_rejects (Size : tx.Transaction → Z)
  (HashHex : tx.Transaction → string) (mp : tx.Mempool) (t : tx.Transaction) (now : Z)
  (lowest : tx.MempoolTx) :
  tx.Verify t = None →
  Size t <= tx.MaxTxSize (tx.config mp) →
  tx.MinGasPrice (tx.config mp) <= tx.Fee t / Size t →
  tx.txs mp !! HashHex t = None →
  tx.MaxSize (tx.config mp) <= Z.of_nat (size (tx.txs mp)) →
  tx.queue mp !! (length (tx.queue mp) - 1)%nat = Some lowest →
  tx.GasPrice lowest < tx.Fee t / Size t →
  tx.Nonce t < default 0 (tx.nonces mp !! tx.From t) →
  ∃ mp', tx.AddTx Size HashHex mp t now = (mp', Some ErrNonceTooLow)
    ∧ tx.txs mp' = delete (tx.Hash lowest) (tx.txs mp)
    ∧ tx.HasTx mp' (tx.Hash lowest) = false
    ∧ tx.HasTx mp' (HashHex t) = false.
Proof.
  intros Hv Hs Hg Hd Hfull Hl Hgas Hn. unfold tx.AddTx.
  rewrite Hv.
  destruct (_ >? _) eqn:E1; [rewrite Z.gtb_ltb in E1; apply Z.ltb_lt in E1; lia|].
  destruct (_ <? _) eqn:E2; [apply Z.ltb_lt in E2; lia|].
  rewrite Hd.
  destruct (_ >=? _) eqn:E3; [|rewrite Z.geb_leb in E3; apply Z.leb_gt in E3; lia].
  unfold tx.evictLowest.
  destruct (length (tx.queue mp) =? 0)%nat eqn:E4.
  { apply Nat.eqb_eq in E4. apply lookup_lt_Some in Hl. lia. }
  rewrite Hl.
  destruct (tx.GasPrice lowest >=? tx.Fee t / Size t) eqn:E5.
  { rewrite Z.geb_leb in E5. apply Z.leb_le in E5. lia. }
  cbn [negb tx.rebuildQueue tx.with_queue tx.with_txs tx.nonces tx.txs].
  apply Z.ltb_lt in Hn. rewrite Hn.
  eexists. split; [reflexivity|]. cbn [tx.txs]. split; [reflexivity|].
  unfold tx.HasTx. cbn. split; apply bool_decide_eq_false_2.
  - rewrite lookup_delete_eq. by intros [? ?].
  - intros [x Hx]. apply lookup_delete_Some in Hx as [_ Hx]. congruence.
Qed.

Lemma AddTx_evicts_then_rejects_witness :
  ∃ mp', tx.AddTx scenario.size100 scenario.hash_by_route scenario.pool_full_S1
           (scenario.signed_transfer "transfer" "S1" "Q" 1 900 0) 2
         = (mp', Some ErrNonceTooLow)
    ∧ tx.txs mp' = delete "S1>R" (tx.txs scenario.pool_full_S1)
    ∧ tx.HasTx mp' "S1>R" = false
    ∧ tx.HasTx mp' "S1>Q" = false.
Proof.
  apply (AddTx_evicts_then_rejects scenario.size100 scenario.hash_by_route
           scenario.pool_full_S1 (scenario.signed_transfer "transfer" "S1" "Q" 1 900 0) 2
           {| tx.Tx := scenario.signed_transfer "transfer" "S1" "R" 1 500 5;
              tx.Hash := "S1>R"; tx.AddedAt := 1; tx.GasPrice := 5; tx.Priority := 5 |}).
  - vm_compute. reflexivity.
  - vm_compute. discriminate.
  - vm_compute. discriminate.
  - vm_compute. reflexivity.
  - vm_compute. discriminate.
  - vm_compute. reflexivity.
  - vm_compute. reflexivity.
  - vm_compute. reflexivity.
Defined.

(** ** tx: reaping, removing and confirming *)

(** [heap.Pop] on a non-empty queue, whatever its order. *)
Lemma heap_Pop_some (q : list tx.MempoolTx) :
  (0 < length q)%nat →
  ∃ x q', tx.heap_Pop q = Some (x, q')
    ∧ x ∈ q
    ∧ length q' = (length q - 1)%nat
    ∧ (∀ y, y ∈ q' → y ∈ q).
Proof.
  intros Hlen. unfold tx.heap_Pop.
  set (n := (length q - 1)%nat).
  set (q1 := tx.down n (tx.Swap q 0 n) 0 n).
  assert (Hlen1 : length q1 = length q).
  { unfold q1. rewrite down_length, Swap_length. reflexivity. }
  assert (Hin : ∀ y, y ∈ q1 ↔ y ∈ q).
  { intros y. unfold q1. rewrite down_elem_of by (rewrite Swap_length; lia).
    apply Swap_elem_of; lia. }
  destruct (lookup_lt_is_Some_2 q1 n ltac:(lia)) as [x Hx].
  rewrite Hx. exists x, (take n q1). split; [reflexivity|]. split_and!.
  - apply Hin. by apply list_elem_of_lookup_2 in Hx.
  - rewrite length_take. lia.
  - intros y Hy. apply Hin. apply elem_of_take in Hy as (k & Hk & _).
    by apply list_elem_of_lookup_2 in Hk.
Qed.

(** The entries that the first loop of [ReapMaxTxs] collects depend on the
    queue and the configuration only, not on [mp.txs]. *)
Lemma reap_loop_ignores_txs (now maxTxs : Z) fuel :
  ∀ (mp mp' : tx.Mempool) (acc : list tx.MempoolTx),
  tx.queue mp = tx.queue mp' → tx.config mp = tx.config mp' →
  (tx.reap_loop fuel now maxTxs mp acc).2 = (tx.reap_loop fuel now maxTxs mp' acc).2.
Proof.
  induction fuel as [|fuel IH]; intros mp mp' acc Hq Hc; [reflexivity|].
  cbn [tx.reap_loop]. rewrite <- Hq, <- Hc.
  destruct (_ && _); [|reflexivity].
  destruct (tx.heap_Pop (tx.queue mp)) as [[mtx q']|]; [|reflexivity].
  destruct (_ >? _); apply IH; cbn; by rewrite ?Hc.
Qed.

(** X12. [RemoveTx] takes a transaction out of the map but not out of the
    queue: afterwards [HasTx] and [GetTx] no longer find it, yet
    [ReapMaxTxs] returns exactly the transactions it would have returned
    without the removal, the removed one among them if it was due. *)
Theorem ReapMaxTxs_ignores_RemoveTx (HashHex : tx.Transaction → string) (mp : tx.Mempool)
  (hash : string) (maxTxs now : Z) :
  tx.HasTx (tx.RemoveTx mp hash) hash = false
  ∧ tx.GetTx (tx.RemoveTx mp hash) hash = None
  ∧ tx.queue (tx.RemoveTx mp hash) = tx.queue mp
  ∧ (tx.ReapMaxTxs HashHex (tx.RemoveTx mp hash) maxTxs now).2
    = (tx.ReapMaxTxs HashHex mp maxTxs now).2.
Proof.
  unfold tx.HasTx, tx.GetTx, tx.RemoveTx. cbn [tx.with_txs tx.txs tx.queue].
  rewrite lookup_delete_eq. split_and!; try reflexivity.
  unfold tx.ReapMaxTxs. cbn [tx.queue tx.config tx.with_txs].
  set (limit := if maxTxs <=? 0 then tx.MaxSize (tx.config mp) else maxTxs).
  pose proof (reap_loop_ignores_txs now limit (length (tx.queue mp))
                (tx.with_txs mp (delete hash (tx.txs mp))) mp [] eq_refl eq_refl) as H.
  destruct (tx.reap_loop _ _ _ (tx.with_txs mp _) _) as [m1 p1].
  destruct (tx.reap_loop _ _ _ mp _) as [m2 p2].
  cbn in H. subst. reflexivity.
Qed.

Lemma reap_loop_config (now maxTxs : Z) fuel : ∀ (mp : tx.Mempool) (acc : list tx.MempoolTx),
  tx.config (tx.reap_loop fuel now maxTxs mp acc).1 = tx.config mp.
Proof.
  induction fuel as [|fuel IH]; intros mp acc; [reflexivity|].
  cbn [tx.reap_loop].
  destruct (_ && _); [|reflexivity].
  destruct (tx.heap_Pop (tx.queue mp)) as [[mtx q']|]; [|reflexivity].
  destruct (_ >? _); rewrite IH; reflexivity.
Qed.

Lemma reap_loop_bounds (now maxTxs : Z) fuel : ∀ (mp : tx.Mempool) (acc : list tx.MempoolTx),
  Z.of_nat (length acc) <= Z.max 0 maxTxs →
  let r := (tx.reap_loop fuel now maxTxs mp acc).2 in
  Z.of_nat (length r) <= Z.max 0 maxTxs
  ∧ (length r <= length acc + length (tx.queue mp))%nat
  ∧ (∀ y, y ∈ r → y ∈ acc
                  ∨ (y ∈ tx.queue mp ∧ now - tx.AddedAt y <= tx.MaxTxAge (tx.config mp))).
Proof.
  induction fuel as [|fuel IH]; intros mp acc Hacc; cbv zeta.
  { cbn. split_and!; [lia | lia | tauto]. }
  cbn [tx.reap_loop].
  destruct (_ && _) eqn:Econd; [|cbn; split_and!; [lia | lia | tauto]].
  apply andb_prop in Econd as [Hlt Hlen]. apply Z.ltb_lt in Hlt. apply Nat.ltb_lt in Hlen.
  destruct (heap_Pop_some _ Hlen) as (x & q' & -> & Hx & Hq' & Hsub).
  destruct (now - tx.AddedAt x >? tx.MaxTxAge (tx.config mp)) eqn:Eexp.
  - destruct (IH (tx.with_txs (tx.with_queue mp q') (delete (tx.Hash x) (tx.txs mp))) acc Hacc)
      as (H1 & H2 & H3).
    cbn [tx.queue tx.with_txs tx.with_queue tx.config] in *.
    split_and!; [exact H1 | lia |].
    intros y Hy. destruct (H3 y Hy) as [?|[? ?]]; [by left|]. right. split; [|done].
    by apply Hsub.
  - rewrite Z.gtb_ltb in Eexp. apply Z.ltb_ge in Eexp.
    destruct (IH (tx.with_queue mp q') (acc ++ [x])) as (H1 & H2 & H3).
    { rewrite length_app. cbn. lia. }
    cbn [tx.queue tx.with_txs tx.with_queue tx.config] in *.
    rewrite length_app in H2. cbn in H2.
    split_and!; [exact H1 | lia |].
    intros y Hy. destruct (H3 y Hy) as [Hin|[? ?]].
    + apply elem_of_app in Hin as [?|Hin]; [by left|].
      apply list_elem_of_singleton in Hin as ->. right. by split.
    + right. split; [|done]. by apply Hsub.
Qed.

(** X13. [ReapMaxTxs] returns at most [maxTxs] transactions (at most
    [MaxSize] when [maxTxs] is not positive) and never more than the queue
    holds; every returned transaction comes from an entry of the queue that
    has not expired at the time of the call. *)
Theorem ReapMaxTxs_bounds (HashHex : tx.Transaction → string) (mp : tx.Mempool)
  (maxTxs now : Z) :
  let reaped := (tx.ReapMaxTxs HashHex mp maxTxs now).2 in
  let limit := if maxTxs <=? 0 then tx.MaxSize (tx.config mp) else maxTxs in
  Z.of_nat (length reaped) <= Z.max 0 limit
  ∧ (length reaped <= length (tx.queue mp))%nat
  ∧ (∀ t, t ∈ reaped →
       ∃ mtx, mtx ∈ tx.queue mp ∧ tx.Tx mtx = t
              ∧ now - tx.AddedAt mtx <= tx.MaxTxAge (tx.config mp)).
Proof.
  cbv zeta. unfold tx.ReapMaxTxs.
  set (limit := if maxTxs <=? 0 then tx.MaxSize (tx.config mp) else maxTxs).
  destruct (reap_loop_bounds now limit (length (tx.queue mp)) mp []) as (H1 & H2 & H3).
  { cbn. lia. }
  destruct (tx.reap_loop (length (tx.queue mp)) now limit mp []) as [mp1 popped].
  cbn [fst snd] in *. rewrite length_map. split_and!; [exact H1 | exact H2 |].
  intros t Ht. apply list_elem_of_fmap in Ht as (mtx & -> & Hin).
  destruct (H3 mtx Hin) as [Hnil|[Hq Hfresh]]; [by apply elem_of_nil in Hnil|].
  exists mtx. by split_and!.
Qed.


Lemma fold_delete_lookup (HashHex : tx.Transaction → string) (l : list tx.Transaction) :
  ∀ (m : gmap string tx.MempoolTx) (h : string),
  fold_left (λ m t, delete (HashHex t) m) l m !! h
  = if decide (h ∈ HashHex <$> l) then None else m !! h.
Proof.
  induction l as [|t l IH]; intros m h; cbn [fold_left].
  - rewrite decide_False; [reflexivity|]. cbn. apply not_elem_of_nil.
  - rewrite IH, fmap_cons. destruct (decide (HashHex t = h)) as [<-|Hne].
    + rewrite lookup_delete_eq.
      rewrite (decide_True (P := HashHex t ∈ HashHex t :: _))
        by (apply elem_of_cons; by left).
      by destruct (decide _).
    + rewrite lookup_delete_ne by exact Hne.
      destruct (decide (h ∈ HashHex <$> l)) as [Hin|Hnin].
      * rewrite decide_True; [reflexivity|]. apply elem_of_cons. by right.
      * rewrite decide_False; [reflexivity|].
        intros Hin. apply elem_of_cons in Hin as [?|?]; [congruence | contradiction].
Qed.

Lemma fold_delete_subseteq (HashHex : tx.Transaction → string) (l : list tx.Transaction)
  (m : gmap string tx.MempoolTx) :
  fold_left (λ m t, delete (HashHex t) m) l m ⊆ m.
Proof.
  apply map_subseteq_spec. intros h e. rewrite fold_delete_lookup.
  by destruct (decide _).
Qed.

(** X14. [Update] takes the confirmed transactions out of the map and out
    of the queue: afterwards no confirmed transaction is in the pool, every
    other entry is where it was, the queue is a heap made of exactly the
    entries that are left (as many as the map holds), and the recorded
    nonces are untouched. *)
Theorem Update_removes_confirmed (HashHex : tx.Transaction → string) (mp : tx.Mempool)
  (confirmedTxs : list tx.Transaction) :
  let mp' := tx.Update HashHex mp confirmedTxs in
  (∀ t, t ∈ confirmedTxs →
     tx.HasTx mp' (HashHex t) = false ∧ tx.GetTx mp' (HashHex t) = None)
  ∧ (∀ h, (∀ t, t ∈ confirmedTxs → HashHex t ≠ h) → tx.txs mp' !! h = tx.txs mp !! h)
  ∧ (∀ e, e ∈ tx.queue mp' ↔ ∃ h, tx.txs mp' !! h = Some e)
  ∧ length (tx.queue mp') = size (tx.txs mp')
  ∧ tx.is_heap (tx.queue mp') = true
  ∧ tx.nonces mp' = tx.nonces mp.
Proof.
  cbv zeta. unfold tx.Update.
  set (m' := fold_left (λ m t, delete (HashHex t) m) confirmedTxs (tx.txs mp)).
  split_and!.
  - intros t Ht. unfold tx.HasTx, tx.GetTx. cbn [tx.rebuildQueue tx.with_queue tx.with_txs tx.txs].
    unfold m'. rewrite fold_delete_lookup.
    rewrite decide_True by (apply list_elem_of_fmap; by exists t). cbn.
    by split.
  - intros h Hh. cbn [tx.rebuildQueue tx.with_queue tx.with_txs tx.txs].
    unfold m'. rewrite fold_delete_lookup.
    rewrite decide_False; [reflexivity|].
    intros Hin. apply list_elem_of_fmap in Hin as (t & -> & Ht). by apply (Hh t).
  - intros e. rewrite rebuildQueue_elem_of. reflexivity.
  - rewrite rebuildQueue_length. reflexivity.
  - apply is_heap_ordered, rebuildQueue_ordered.
  - reflexivity.
Qed.

(** ** tx: the pool stays consistent *)

Lemma values_NoDup (m : gmap string tx.MempoolTx) :
  (∀ h e, m !! h = Some e → tx.Hash e = h) → NoDup (map_to_list m).*2.
Proof.
  intros HK. apply NoDup_fmap_2_strong; [|apply NoDup_map_to_list].
  intros [k1 e1] [k2 e2] H1 H2 Heq. cbn in Heq. subst e2.
  apply elem_of_map_to_list in H1, H2.
  pose proof (HK _ _ H1). pose proof (HK _ _ H2). congruence.
Qed.

Lemma values_elem_of (m : gmap string tx.MempoolTx) (e : tx.MempoolTx) :
  e ∈ (map_to_list m).*2 ↔ ∃ h, m !! h = Some e.
Proof.
  rewrite list_elem_of_fmap. split.
  - intros ([h e'] & -> & Hin). exists h. by apply elem_of_map_to_list.
  - intros [h Hh]. exists (h, e). split; [reflexivity|]. by apply elem_of_map_to_list.
Qed.

(** A duplicate-free list of exactly the entries of the map is as long as
    the map is large, and a list of that length that holds every entry of
    the map is duplicate-free. *)
Lemma entries_length (m : gmap string tx.MempoolTx) (l : list tx.MempoolTx) :
  (∀ h e, m !! h = Some e → tx.Hash e = h) →
  NoDup l → (∀ e, e ∈ l ↔ ∃ h, m !! h = Some e) → length l = size m.
Proof.
  intros HK Hnd Hin.
  rewrite <- (length_map_to_list m), <- (length_fmap snd).
  apply Permutation_length, NoDup_Permutation; [exact Hnd | by apply values_NoDup|].
  intros e. by rewrite Hin, values_elem_of.
Qed.

Lemma entries_NoDup (m : gmap string tx.MempoolTx) (l : list tx.MempoolTx) :
  (∀ h e, m !! h = Some e → tx.Hash e = h) →
  (∀ e, (∃ h, m !! h = Some e) → e ∈ l) → length l = size m → NoDup l.
Proof.
  intros HK Hin Hlen.
  assert (Hperm : (map_to_list m).*2 ≡ₚ l).
  { apply submseteq_length_Permutation.
    - apply NoDup_submseteq; [by apply values_NoDup|].
      intros e He. apply Hin. by apply values_elem_of.
    - rewrite length_fmap, length_map_to_list. lia. }
  rewrite <- Hperm. by apply values_NoDup.
Qed.

Lemma rebuildQueue_consistent (HashHex : tx.Transaction → string) (mp : tx.Mempool)
  (m : gmap string tx.MempoolTx) :
  pool_consistent HashHex mp → m ⊆ tx.txs mp →
  pool_consistent HashHex (tx.rebuildQueue (tx.with_txs mp m)).
Proof.
  intros (HK & _ & _ & _ & Hsize) Hsub. split_and!.
  - intros h e He. cbn in He. apply HK.
    by apply (lookup_weaken _ _ _ _ He Hsub).
  - intros e. rewrite rebuildQueue_elem_of. reflexivity.
  - rewrite rebuildQueue_length. reflexivity.
  - apply rebuildQueue_ordered.
  - cbn. apply map_subseteq_size in Hsub. lia.
Qed.

Lemma evictLowest_consistent (HashHex : tx.Transaction → string) (mp mp1 : tx.Mempool)
  (g : Z) :
  pool_consistent HashHex mp →
  tx.evictLowest mp g = (mp1, true) →
  pool_consistent HashHex mp1
  ∧ tx.txs mp1 ⊆ tx.txs mp
  ∧ (size (tx.txs mp1) < size (tx.txs mp))%nat.
Proof.
  intros Hc He.
  apply evictLowest_inv in He as [[? _]|(_ & lowest & Hl & _ & ->)]; [discriminate|].
  split; [apply rebuildQueue_consistent; [exact Hc | apply delete_subseteq]|].
  cbn. split; [apply delete_subseteq|].
  destruct Hc as (HK & HQ & _ & _ & _).
  apply list_elem_of_lookup_2 in Hl. apply HQ in Hl as [h Hh].
  destruct (HK _ _ Hh) as [-> _]. rewrite map_size_delete_Some by (by eexists).
  assert (size (tx.txs mp) ≠ 0%nat); [|lia].
  intros Hz. apply map_size_empty_inv in Hz. rewrite Hz in Hh.
  by rewrite lookup_empty in Hh.
Qed.

(** [heap.Pop] on a duplicate-free heap takes out one entry and keeps the
    others, each once. *)
Lemma heap_Pop_perm (q : list tx.MempoolTx) :
  (0 < length q)%nat → tx.heap_ordered q → NoDup q →
  ∃ x q', tx.heap_Pop q = Some (x, q') ∧ tx.heap_ordered q' ∧ q ≡ₚ x :: q'.
Proof.
  intros Hlen Hheap Hnd.
  destruct (heap_Pop_spec q Hlen Hheap) as (x & q' & Hpop & _ & Hq' & Hl & _ & _ & Hall).
  exists x, q'. split_and!; [exact Hpop | exact Hq' |].
  apply submseteq_length_Permutation.
  - apply NoDup_submseteq; [exact Hnd|]. intros y Hy.
    apply elem_of_cons. destruct (Hall y Hy); [by left | by right].
  - cbn. lia.
Qed.

(** The first loop of [ReapMaxTxs] keeps the entries of the map and those
    of the queue and the popped list in step. *)
Lemma reap_loop_consistent (HashHex : tx.Transaction → string) (now maxTxs : Z) fuel :
  ∀ (mp : tx.Mempool) (acc : list tx.MempoolTx),
  (∀ h e, tx.txs mp !! h = Some e → tx.Hash e = h ∧ HashHex (tx.Tx e) = h) →
  NoDup (tx.queue mp ++ acc) →
  (∀ e, e ∈ tx.queue mp ++ acc ↔ ∃ h, tx.txs mp !! h = Some e) →
  tx.heap_ordered (tx.queue mp) →
  let r := tx.reap_loop fuel now maxTxs mp acc in
  (∀ h e, tx.txs r.1 !! h = Some e → tx.Hash e = h ∧ HashHex (tx.Tx e) = h)
  ∧ NoDup (tx.queue r.1 ++ r.2)
  ∧ (∀ e, e ∈ tx.queue r.1 ++ r.2 ↔ ∃ h, tx.txs r.1 !! h = Some e)
  ∧ tx.heap_ordered (tx.queue r.1)
  ∧ tx.txs r.1 ⊆ tx.txs mp
  ∧ tx.config r.1 = tx.config mp.
Proof.
  induction fuel as [|fuel IH]; intros mp acc HK Hnd Hin Hheap; [by split_and!|].
  cbn [tx.reap_loop]. cbv zeta.
  destruct (_ && _) eqn:Econd; [|by split_and!].
  apply andb_prop in Econd as [_ Hlen]. apply Nat.ltb_lt in Hlen.
  assert (Hndq : NoDup (tx.queue mp)) by (apply NoDup_app in Hnd; tauto).
  destruct (heap_Pop_perm _ Hlen Hheap Hndq) as (x & q' & -> & Hq' & Hperm).
  rewrite Hperm in Hnd.
  assert (Hin' : ∀ e, e ∈ (x :: q') ++ acc ↔ ∃ h, tx.txs mp !! h = Some e).
  { intros e. rewrite <- Hin. by rewrite Hperm. }
  clear Hin Hperm.
  destruct (_ >? _).
  - set (mp' := tx.with_txs (tx.with_queue mp q') (delete (tx.Hash x) (tx.txs mp))).
    cbn in Hnd. apply NoDup_cons in Hnd as [Hx Hnd].
    destruct (IH mp' acc) as (H1 & H2 & H3 & H4 & H5 & H6); cbn.
    + intros h e He. apply lookup_delete_Some in He as [_ He]. by apply HK.
    + exact Hnd.
    + intros e. split.
      * intros He. destruct (proj1 (Hin' e)) as [h Hh].
        { cbn. apply elem_of_cons. by right. }
        exists h. apply lookup_delete_Some. split; [|exact Hh].
        intros Heq. destruct (proj1 (Hin' x)) as [hx Hhx].
        { cbn. apply elem_of_cons. by left. }
        destruct (HK _ _ Hh) as [Hke _]. destruct (HK _ _ Hhx) as [Hkx _].
        assert (e = x) by congruence. subst e. contradiction.
      * intros [h Hh]. apply lookup_delete_Some in Hh as [Hne Hh].
        pose proof (proj2 (Hin' e) (ex_intro _ h Hh)) as Hc. cbn in Hc.
        apply elem_of_cons in Hc as [-> | Hc]; [|exact Hc].
        destruct (HK _ _ Hh) as [Hke _]. congruence.
    + exact Hq'.
    + split_and!; [exact H1 | exact H2 | exact H3 | exact H4 | | exact H6].
      etransitivity; [exact H5 | apply delete_subseteq].
  - set (mp' := tx.with_queue mp q').
    assert (Hp : (x :: q') ++ acc ≡ₚ q' ++ acc ++ [x]).
    { cbn. rewrite app_assoc. apply Permutation_cons_append. }
    destruct (IH mp' (acc ++ [x])) as (H1 & H2 & H3 & H4 & H5 & H6); cbn.
    + exact HK.
    + rewrite <- Hp. exact Hnd.
    + intros e. rewrite <- Hp. apply Hin'.
    + exact Hq'.
    + by split_and!.
Qed.

(** The second loop pushes back every entry that is still in the map. *)
Lemma readd_entries (HashHex : tx.Transaction → string) (l : list tx.MempoolTx) :
  ∀ mp : tx.Mempool,
  (∀ a, a ∈ l → tx.txs mp !! HashHex (tx.Tx a) = Some a) →
  let mp' := tx.readd HashHex mp (map tx.Tx l) in
  tx.txs mp' = tx.txs mp
  ∧ tx.config mp' = tx.config mp
  ∧ length (tx.queue mp') = (length (tx.queue mp) + length l)%nat
  ∧ (∀ e, e ∈ tx.queue mp' ↔ e ∈ tx.queue mp ∨ e ∈ l).
Proof.
  unfold tx.readd. induction l as [|a l IH]; intros mp Hl; cbn [map fold_left].
  - cbn. split_and!; [reflexivity | reflexivity | lia |].
    intros e. rewrite elem_of_nil. tauto.
  - rewrite (Hl a) by (apply elem_of_cons; by left).
    destruct (IH (tx.with_queue mp (tx.heap_Push (tx.queue mp) a))) as (H1 & H2 & H3 & H4).
    { intros b Hb. cbn. apply Hl, elem_of_cons. by right. }
    cbv zeta in *. rewrite H1, H2, H3. cbn. rewrite heap_Push_length.
    split_and!; [reflexivity | reflexivity | lia |].
    intros e. rewrite H4. cbn. rewrite heap_Push_elem_of, elem_of_cons. tauto.
Qed.

Lemma ReapMaxTxs_consistent (HashHex : tx.Transaction → string) (mp : tx.Mempool)
  (maxTxs now : Z) :
  pool_consistent HashHex mp →
  pool_consistent HashHex (tx.ReapMaxTxs HashHex mp maxTxs now).1.
Proof.
  intros (HK & HQ & Hlen & Hheap & Hsize). unfold tx.ReapMaxTxs.
  set (limit := if maxTxs <=? 0 then tx.MaxSize (tx.config mp) else maxTxs).
  assert (Hnd : NoDup (tx.queue mp)).
  { apply (entries_NoDup (tx.txs mp)); [by intros h e [? _]%HK | by intros e ?%HQ | exact Hlen]. }
  pose proof (reap_loop_consistent HashHex now limit (length (tx.queue mp)) mp []) as H.
  cbv zeta in H. rewrite app_nil_r in H. specialize (H HK Hnd HQ Hheap).
  destruct (tx.reap_loop (length (tx.queue mp)) now limit mp []) as [mp1 popped].
  cbn [fst snd] in *. destruct H as (HK1 & Hnd1 & HQ1 & Hheap1 & Hsub & Hcfg).
  destruct (readd_entries HashHex popped mp1) as (Ht & Hc & Hl & He).
  { intros a Ha. destruct (proj1 (HQ1 a)) as [h Hh]; [apply elem_of_app; by right|].
    destruct (HK1 _ _ Hh) as [_ ->]. exact Hh. }
  cbv zeta in *. split_and!.
  - rewrite Ht. exact HK1.
  - intros e. rewrite He, Ht, <- HQ1, elem_of_app. reflexivity.
  - rewrite Hl, Ht, <- length_app.
    apply entries_length; [by intros h e [? _]%HK1 | exact Hnd1 | exact HQ1].
  - by apply readd_ordered.
  - rewrite Ht, Hc, Hcfg. apply map_subseteq_size in Hsub. lia.
Qed.

(** X15. The map and the queue of the mempool stay in step, and the pool
    stays within [MaxSize], as long as [RemoveTx] is not used. The pool that
    [NewMempool] makes is consistent (every entry stored under its own hash,
    the queue a heap of exactly the entries of the map, each once, at most
    [MaxSize] entries), and [AddTx], [Update], [cleanup] and [ReapMaxTxs]
    keep it so, whatever they return. [RemoveTx] of a transaction of the
    pool does not: the entry stays in the queue. When such a stale entry is
    in the last slot of the queue of a full pool and has a lower gas price
    than a new transaction, [AddTx] evicts nothing and accepts the new
    transaction, and the pool holds more than [MaxSize] transactions. *)
Theorem pool_stays_consistent (Size : tx.Transaction → Z) (HashHex : tx.Transaction → string) :
  (∀ cfg, 0 <= tx.MaxSize cfg → pool_consistent HashHex (tx.NewMempool cfg))
  ∧ (∀ mp t now, pool_consistent HashHex mp →
       pool_consistent HashHex (tx.AddTx Size HashHex mp t now).1)
  ∧ (∀ mp confirmedTxs, pool_consistent HashHex mp →
       pool_consistent HashHex (tx.Update HashHex mp confirmedTxs))
  ∧ (∀ mp now, pool_consistent HashHex mp → pool_consistent HashHex (tx.cleanup mp now))
  ∧ (∀ mp maxTxs now, pool_consistent HashHex mp →
       pool_consistent HashHex (tx.ReapMaxTxs HashHex mp maxTxs now).1)
  ∧ (∀ mp hash e, pool_consistent HashHex mp → tx.txs mp !! hash = Some e →
       e ∈ tx.queue (tx.RemoveTx mp hash)
       ∧ (∀ h, tx.txs (tx.RemoveTx mp hash) !! h ≠ Some e)
       ∧ ¬ pool_consistent HashHex (tx.RemoveTx mp hash))
  ∧ (∀ mp t now lowest,
       tx.Verify t = None →
       Size t <= tx.MaxTxSize (tx.config mp) →
       tx.MinGasPrice (tx.config mp) <= tx.Fee t / Size t →
       tx.txs mp !! HashHex t = None →
       default 0 (tx.nonces mp !! tx.From t) <= tx.Nonce t →
       tx.MaxSize (tx.config mp) <= Z.of_nat (size (tx.txs mp)) →
       tx.queue mp !! (length (tx.queue mp) - 1)%nat = Some lowest →
       tx.txs mp !! tx.Hash lowest = None →
       tx.GasPrice lowest < tx.Fee t / Size t →
       ∃ mp', tx.AddTx Size HashHex mp t now = (mp', None)
         ∧ size (tx.txs mp') = S (size (tx.txs mp))
         ∧ tx.MaxSize (tx.config mp') < Z.of_nat (size (tx.txs mp'))).
Proof.
  split_and!.
  - intros cfg Hmax. unfold tx.NewMempool.
    change (tx.heap_Init []) with (@nil tx.MempoolTx). split_and!; cbn.
    + intros h e He. by rewrite lookup_empty in He.
    + intros e. rewrite elem_of_nil. split; [tauto|].
      intros [h Hh]. by rewrite lookup_empty in Hh.
    + by rewrite map_size_empty.
    + apply heap_ordered_nil.
    + rewrite map_size_empty. exact Hmax.
  - intros mp t now Hc.
    destruct (tx.AddTx Size HashHex mp t now) as [mp' [e|]] eqn:E; cbn [fst].
    + (* an error: the pool is as before, or after an eviction *)
      unfold tx.AddTx in E.
      destruct (tx.Verify t); [by inversion E; subst|].
      destruct (_ >? _); [by inversion E; subst|].
      destruct (_ <? _); [by inversion E; subst|].
      destruct (tx.txs mp !! HashHex t); [by inversion E; subst|].
      destruct (_ >=? _).
      * destruct (tx.evictLowest mp (tx.Fee t / Size t)) as [mp1 accepted] eqn:Ee.
        destruct accepted; cbn [negb] in E.
        -- destruct (_ <? _); inversion E; subst.
           by apply (evictLowest_consistent HashHex mp mp' _ Hc Ee).
        -- apply evictLowest_inv in Ee as [[_ ->]|[? _]]; [|discriminate].
           by inversion E; subst.
      * cbn [negb] in E. destruct (_ <? _); inversion E; subst. exact Hc.
    + apply AddTx_success_inv in E
        as (mp1 & accepted & _ & _ & _ & Hd & Hfull & _ & ->).
      set (mtx := {| tx.Tx := t; tx.Hash := HashHex t; tx.AddedAt := now;
                     tx.GasPrice := tx.Fee t / Size t;
                     tx.Priority := int64 (tx.Fee t / Size t) |}).
      assert (H1 : pool_consistent HashHex mp1 ∧ tx.txs mp1 !! HashHex t = None
                   ∧ Z.of_nat (size (tx.txs mp1)) < tx.MaxSize (tx.config mp1)).
      { destruct Hfull as [[-> Hlt]|(Hge & Ee & ->)]; [by split_and!|].
        pose proof (evictLowest_config_nonces mp (tx.Fee t / Size t)) as [Hcfg _].
        rewrite Ee in Hcfg. cbn [fst] in Hcfg.
        destruct (evictLowest_consistent HashHex mp mp1 _ Hc Ee) as (Hc1 & Hsub & Hlt).
        split; [exact Hc1|]. split.
        - destruct (tx.txs mp1 !! HashHex t) eqn:El; [|reflexivity].
          apply (lookup_weaken _ _ _ _ El) in Hsub. congruence.
        - rewrite Hcfg. destruct Hc as (_ & _ & _ & _ & Hsize). lia. }
      destruct H1 as ((HK & HQ & Hlen & Hheap & _) & Hfresh & Hlt).
      split_and!; cbn [tx.with_nonces tx.with_queue tx.with_txs tx.txs tx.queue tx.config].
      * intros h e He. apply lookup_insert_Some in He as [[<- <-]|[_ He]]; [by split|].
        by apply HK.
      * intros e. rewrite heap_Push_elem_of, HQ. split.
        -- intros [[h Hh]| ->].
           ++ exists h. rewrite lookup_insert_ne; [exact Hh|]. intros <-. congruence.
           ++ exists (HashHex t). apply lookup_insert_eq.
        -- intros [h Hh]. apply lookup_insert_Some in Hh as [[_ <-]|[_ Hh]].
           ++ by right.
           ++ left. by exists h.
      * rewrite heap_Push_length, map_size_insert_None by exact Hfresh. by rewrite Hlen.
      * by apply heap_Push_ordered.
      * rewrite map_size_insert_None by exact Hfresh. lia.
  - intros mp confirmedTxs Hc. unfold tx.Update.
    apply rebuildQueue_consistent; [exact Hc | apply fold_delete_subseteq].
  - intros mp now Hc. unfold tx.cleanup.
    apply rebuildQueue_consistent; [exact Hc | apply map_filter_subseteq].
  - intros mp maxTxs now Hc. by apply ReapMaxTxs_consistent.
  - intros mp hash e (HK & HQ & _) He.
    assert (Hq : e ∈ tx.queue (tx.RemoveTx mp hash)).
    { cbn. apply HQ. by exists hash. }
    assert (Hm : ∀ h, tx.txs (tx.RemoveTx mp hash) !! h ≠ Some e).
    { intros h Hh. cbn in Hh. apply lookup_delete_Some in Hh as [Hne Hh].
      destruct (HK _ _ He) as [H1 _]. destruct (HK _ _ Hh) as [H2 _]. congruence. }
    split_and!; [exact Hq | exact Hm |].
    intros (_ & HQ' & _). apply HQ' in Hq as [h Hh]. by apply (Hm h).
  - intros mp t now lowest Hv Hs Hg Hd Hn Hfull Hl Hstale Hlow.
    unfold tx.AddTx. rewrite Hv.
    destruct (Size t >? tx.MaxTxSize (tx.config mp)) eqn:E1;
      [rewrite Z.gtb_ltb in E1; apply Z.ltb_lt in E1; lia|].
    destruct (tx.Fee t / Size t <? tx.MinGasPrice (tx.config mp)) eqn:E2;
      [apply Z.ltb_lt in E2; lia|].
    rewrite Hd.
    destruct (Z.of_nat (size (tx.txs mp)) >=? tx.MaxSize (tx.config mp)) eqn:E3;
      [|rewrite Z.geb_leb in E3; apply Z.leb_gt in E3; lia].
    unfold tx.evictLowest.
    pose proof (lookup_lt_Some _ _ _ Hl) as Hlt.
    destruct (length (tx.queue mp) =? 0)%nat eqn:E4; [apply Nat.eqb_eq in E4; lia|].
    rewrite Hl.
    destruct (tx.GasPrice lowest >=? tx.Fee t / Size t) eqn:E5;
      [rewrite Z.geb_leb in E5; apply Z.leb_le in E5; lia|].
    rewrite (delete_id _ _ Hstale). cbn [negb].
    cbn [tx.rebuildQueue tx.with_txs tx.with_queue tx.nonces tx.txs tx.config].
    destruct (tx.Nonce t <? default 0 (tx.nonces mp !! tx.From t)) eqn:E6;
      [apply Z.ltb_lt in E6; lia|].
    eexists. split; [reflexivity|].
    cbn [tx.with_nonces tx.with_queue tx.with_txs tx.txs tx.config].
    rewrite map_size_insert_None by exact Hd. split; [reflexivity|].
    cbn. lia.
Qed.

(** The pool of capacity 1 with the stale entry of ["S1"] in the last slot
    of its queue accepts ["S3"] next to ["S2"]. *)
Lemma pool_stays_consistent_witness :
  ∃ mp', tx.AddTx scenario.size100 scenario.hash_by_sender scenario.pool_stale_S1
           (scenario.paying "S3" 600) 3 = (mp', None)
    ∧ size (tx.txs mp') = S (size (tx.txs scenario.pool_stale_S1))
    ∧ tx.MaxSize (tx.config mp') < Z.of_nat (size (tx.txs mp')).
Proof.
  destruct (pool_stays_consistent scenario.size100 scenario.hash_by_sender)
    as (_ & _ & _ & _ & _ & _ & H).
  apply (H scenario.pool_stale_S1 (scenario.paying "S3" 600) 3
           (tx.Build_MempoolTx (scenario.paying "S1" 500) "S1" 1 5 5)).
  - reflexivity.
  - vm_compute. discriminate.
  - vm_compute. discriminate.
  - vm_compute. reflexivity.
  - vm_compute. discriminate.
  - vm_compute. discriminate.
  - vm_compute. reflexivity.
  - vm_compute. reflexivity.
  - vm_compute. reflexivity.
Defined.


(** ** chain: storing blocks *)

Lemma process_all_frame (l : list tx.Transaction) : ∀ (c c' : chain.Chain) (r : option error),
  chain.process_all c l = (c', r) →
  chain.blocks c' = chain.blocks c
  ∧ chain.heights c' = chain.heights c
  ∧ chain.latestHeight c' = chain.latestHeight c
  ∧ chain.latestHash c' = chain.latestHash c.
Proof.
  induction l as [|t l IH]; intros c c' r H; cbn [chain.process_all] in H.
  - by inversion H; subst.
  - destruct (chain.processTransaction c t) as [c1 [e|]] eqn:E.
    + inversion H; subst.
      destruct (processTransaction_frame _ _ _ _ E) as (? & ? & ? & ? & _). by split_and!.
    + destruct (processTransaction_frame _ _ _ _ E) as (Hb & Hh & Hl & Hs & _).
      destruct (IH _ _ _ H) as (? & ? & ? & ?). split_and!; congruence.
Qed.

(** What a successful [AddBlock] went through. *)
Lemma AddBlock_success_inv (TxHash : tx.Transaction → list Z) (Sum256 : list Z → list Z)
  (EncodeToString : list Z → string) (BlockHash : chain.Block → string)
  (c c' : chain.Chain) (block : chain.Block) (now : Z) :
  chain.AddBlock TxHash Sum256 EncodeToString BlockHash c block now = (c', None) →
  ∃ c1,
    chain.Verify TxHash Sum256 EncodeToString block now = None
    ∧ (chain.Height (chain.Header_ block) > 0 →
       is_Some (chain.blocks c !! chain.ParentHash (chain.Header_ block)))
    ∧ chain.blocks c !! BlockHash block = None
    ∧ chain.process_all c (chain.Transactions block) = (c1, None)
    ∧ chain.blocks c' = <[BlockHash block := block]> (chain.blocks c)
    ∧ chain.heights c' = <[chain.Height (chain.Header_ block) := BlockHash block]> (chain.heights c)
    ∧ chain.latestHeight c'
      = (if chain.Height (chain.Header_ block) >? chain.latestHeight c
         then chain.Height (chain.Header_ block) else chain.latestHeight c)
    ∧ chain.latestHash c'
      = (if chain.Height (chain.Header_ block) >? chain.latestHeight c
         then BlockHash block else chain.latestHash c)
    ∧ chain.stateDB c' = chain.stateDB c1.
Proof.
  unfold chain.AddBlock. intros H.
  destruct (chain.Verify _ _ _ block now) eqn:Ev; [by inversion H|].
  destruct (_ && _) eqn:Ep; [by inversion H|].
  destruct (bool_decide (is_Some (chain.blocks c !! BlockHash block))) eqn:Ed;
    [by inversion H|].
  destruct (chain.process_all c (chain.Transactions block)) as [c1 [e|]] eqn:Ea;
    [by inversion H|].
  destruct (process_all_frame _ _ _ _ Ea) as (Hb & Hh & Hl & Hs).
  inversion H; subst; clear H. cbn. exists c1. rewrite Hb, Hh, Hl, Hs.
  split_and!; try reflexivity.
  - intros Hpos. apply andb_false_iff in Ep as [Ep|Ep].
    + rewrite Z.gtb_ltb in Ep. apply Z.ltb_ge in Ep. lia.
    + apply negb_false_iff, bool_decide_eq_true_1 in Ep. exact Ep.
  - apply bool_decide_eq_false_1 in Ed.
    destruct (chain.blocks c !! BlockHash block); [|reflexivity].
    exfalso. apply Ed. by eexists.
Qed.

(** X16. A block that [AddBlock] accepts is stored: it is found under its
    hash and under its height, every block stored before is still there,
    the chain height is the larger of the old height and the block's (so it
    never drops), and the state is the one that applying the block's
    transactions in order gave. The block passed [Verify], its parent was
    known unless its height is 0, and its hash was new. *)
Theorem AddBlock_success_stores (TxHash : tx.Transaction → list Z) (Sum256 : list Z → list Z)
  (EncodeToString : list Z → string) (BlockHash : chain.Block → string)
  (c c' : chain.Chain) (block : chain.Block) (now : Z) :
  chain.AddBlock TxHash Sum256 EncodeToString BlockHash c block now = (c', None) →
  chain.GetBlock c' (BlockHash block) = (Some block, None)
  ∧ chain.GetBlockByHeight c' (chain.Height (chain.Header_ block)) = (Some block, None)
  ∧ (∀ h b, chain.GetBlock c h = (Some b, None) → chain.GetBlock c' h = (Some b, None))
  ∧ chain.latestHeight c'
    = Z.max (chain.latestHeight c) (chain.Height (chain.Header_ block))
  ∧ (∃ c1, chain.process_all c (chain.Transactions block) = (c1, None)
           ∧ chain.stateDB c' = chain.stateDB c1)
  ∧ chain.Verify TxHash Sum256 EncodeToString block now = None
  ∧ (chain.Height (chain.Header_ block) > 0 →
     ∃ parent, chain.GetBlock c (chain.ParentHash (chain.Header_ block)) = (Some parent, None))
  ∧ chain.GetBlock c (BlockHash block) = (None, Some (ErrNew "block not found")).
Proof.
  intros H. apply AddBlock_success_inv in H
    as (c1 & Hv & Hp & Hd & Ha & Hb & Hh & Hl & _ & Hs).
  unfold chain.GetBlock, chain.GetBlockByHeight. rewrite Hb, Hh, Hl, Hd.
  rewrite !lookup_insert_eq. split_and!; try done.
  - intros h b Hg. destruct (chain.blocks c !! h) as [b'|] eqn:E; [|discriminate].
    inversion Hg; subst.
    rewrite lookup_insert_ne by (intros <-; congruence). by rewrite E.
  - destruct (_ >? _) eqn:E.
    + rewrite Z.gtb_ltb in E. apply Z.ltb_lt in E. lia.
    + rewrite Z.gtb_ltb in E. apply Z.ltb_ge in E. lia.
  - by exists c1.
  - intros Hpos. destruct (Hp Hpos) as [parent Hparent]. exists parent.
    by rewrite Hparent.
Qed.

Lemma AddBlock_success_stores_witness :
  let TxHash (t : tx.Transaction) : list Z := [tx.Nonce t] in
  let Sum256 (l : list Z) : list Z := l in
  let EncodeToString (l : list Z) : string := "" in
  let BlockHash (b : chain.Block) : string := "h0" in
  let block := {| chain.Header_ := scenario.header_at 0 "" "";
                  chain.Transactions := [scenario.tx_ok];
                  chain.Validator := "V"; chain.Signature := [1] |} in
  let c := scenario.chain_A1000 in
  let c' := (chain.AddBlock TxHash Sum256 EncodeToString BlockHash c block 0).1 in
  chain.GetBlock c' (BlockHash block) = (Some block, None)
  ∧ chain.GetBlockByHeight c' (chain.Height (chain.Header_ block)) = (Some block, None)
  ∧ (∀ h b, chain.GetBlock c h = (Some b, None) → chain.GetBlock c' h = (Some b, None))
  ∧ chain.latestHeight c'
    = Z.max (chain.latestHeight c) (chain.Height (chain.Header_ block))
  ∧ (∃ c1, chain.process_all c (chain.Transactions block) = (c1, None)
           ∧ chain.stateDB c' = chain.stateDB c1)
  ∧ chain.Verify TxHash Sum256 EncodeToString block 0 = None
  ∧ (chain.Height (chain.Header_ block) > 0 →
     ∃ parent, chain.GetBlock c (chain.ParentHash (chain.Header_ block)) = (Some parent, None))
  ∧ chain.GetBlock c (BlockHash block) = (None, Some (ErrNew "block not found")).
Proof.
  cbv zeta.
  apply (AddBlock_success_stores (λ t, [tx.Nonce t]) (λ l, l) (λ _, "") (λ _, "h0")
           scenario.chain_A1000 _
           {| chain.Header_ := scenario.header_at 0 "" "";
              chain.Transactions := [scenario.tx_ok];
              chain.Validator := "V"; chain.Signature := [1] |} 0).
  vm_compute. reflexivity.
Defined.

(** X17. Adding the same block a second time is refused and changes
    nothing: after a successful [AddBlock], every later [AddBlock] of that
    block returns [ErrDuplicateBlock] and leaves the chain, state included,
    as it is. *)
Theorem AddBlock_twice_is_duplicate (TxHash : tx.Transaction → list Z)
  (Sum256 : list Z → list Z) (EncodeToString : list Z → string)
  (BlockHash : chain.Block → string) (c c' : chain.Chain) (block : chain.Block)
  (now now' : Z) :
  chain.AddBlock TxHash Sum256 EncodeToString BlockHash c block now = (c', None) →
  now <= now' →
  chain.AddBlock TxHash Sum256 EncodeToString BlockHash c' block now'
  = (c', Some ErrDuplicateBlock).
Proof.
  intros H Hnow. apply AddBlock_success_inv in H
    as (c1 & Hv & Hp & Hd & _ & Hb & _).
  unfold chain.AddBlock.
  assert (Hv' : chain.Verify TxHash Sum256 EncodeToString block now' = None).
  { unfold chain.Verify in *.
    destruct (chain.Validate (chain.Header_ block) now) eqn:E1; [discriminate|].
    assert (E2 : chain.Validate (chain.Header_ block) now' = None).
    { unfold chain.Validate in *.
      destruct (chain.Timestamp (chain.Header_ block) >? now + 15) eqn:Et; [discriminate|].
      rewrite Z.gtb_ltb in Et. apply Z.ltb_ge in Et.
      destruct (chain.Timestamp (chain.Header_ block) >? now' + 15) eqn:Et'.
      - rewrite Z.gtb_ltb in Et'. apply Z.ltb_lt in Et'. lia.
      - exact E1. }
    rewrite E2. exact Hv. }
  rewrite Hv', Hb.
  destruct (_ && _) eqn:Ep.
  { apply andb_true_iff in Ep as [Epos Epar].
    rewrite Z.gtb_ltb in Epos. apply Z.ltb_lt in Epos.
    apply negb_true_iff, bool_decide_eq_false_1 in Epar.
    exfalso. apply Epar. destruct (Hp ltac:(lia)) as [parent Hparent].
    destruct (decide (BlockHash block = chain.ParentHash (chain.Header_ block))) as [<-|Hne].
    - rewrite lookup_insert_eq. by eexists.
    - rewrite lookup_insert_ne by exact Hne. by eexists. }
  rewrite lookup_insert_eq.
  rewrite bool_decide_eq_true_2 by (by eexists). reflexivity.
Qed.

Lemma AddBlock_twice_is_duplicate_witness :
  let block := {| chain.Header_ := scenario.header_at 0 "" "";
                  chain.Transactions := [scenario.tx_ok];
                  chain.Validator := "V"; chain.Signature := [1] |} in
  let add c now := chain.AddBlock (λ t, [tx.Nonce t]) (λ l, l) (λ _, "") (λ _, "h0")
                     c block now in
  add (add scenario.chain_A1000 0).1 7 = ((add scenario.chain_A1000 0).1, Some ErrDuplicateBlock).
Proof.
  cbv zeta.
  apply (AddBlock_twice_is_duplicate (λ t, [tx.Nonce t]) (λ l, l) (λ _, "") (λ _, "h0")
           scenario.chain_A1000 _
           {| chain.Header_ := scenario.header_at 0 "" "";
              chain.Transactions := [scenario.tx_ok];
              chain.Validator := "V"; chain.Signature := [1] |} 0 7).
  - vm_compute. reflexivity.
  - lia.
Defined.


(** ** chain: the transaction root *)

Lemma pair_level_length (Sum256 : list Z → list Z) (n : nat) : ∀ l : list (list Z),
  (length l <= n)%nat → length (chain.pair_level Sum256 l) = (length l / 2)%nat.
Proof.
  induction n as [|n IH]; intros l Hl.
  - destruct l; [reflexivity | cbn in Hl; lia].
  - destruct l as [|a [|b rest]]; [reflexivity | reflexivity |].
    cbn [chain.pair_level length]. rewrite IH by (cbn in Hl; lia).
    change (S (S (length rest))) with (1 * 2 + length rest)%nat.
    rewrite Nat.div_add_l by lia. lia.
Qed.

(** The recursion of [merkleRoot] never runs out of the fuel that the
    length of the list gives it. *)
Lemma merkleRoot_rec_fuel (Sum256 : list Z → list Z) (f1 : nat) :
  ∀ (f2 : nat) (l : list (list Z)),
  (length l <= f1)%nat → (length l <= f2)%nat →
  chain.merkleRoot_rec Sum256 f1 l = chain.merkleRoot_rec Sum256 f2 l.
Proof.
  induction f1 as [|f1 IH]; intros f2 l H1 H2.
  - destruct l; [|cbn in H1; lia]. by destruct f2.
  - destruct l as [|a [|b rest]].
    + by destruct f2.
    + by destruct f2.
    + destruct f2 as [|f2]; [cbn in H2; lia|].
      cbn [chain.merkleRoot_rec].
      set (level := if Nat.even (length (a :: b :: rest)) then a :: b :: rest
                    else (a :: b :: rest) ++ [List.last (a :: b :: rest) []]).
      assert (Hlevel : (length (chain.pair_level Sum256 level) <= S (length rest))%nat).
      { rewrite (pair_level_length Sum256 (length level)) by lia.
        unfold level. destruct (Nat.even _) eqn:E.
        - cbn [length]. apply Nat.Div0.div_le_upper_bound. lia.
        - rewrite length_app. cbn [length].
          apply Nat.Div0.div_le_upper_bound.
          destruct rest as [|r rest']; [cbn in E; discriminate|]. cbn [length]. lia. }
      cbn [length] in H1, H2. apply IH; lia.
Qed.

Lemma last_snoc (A : Type) (l : list A) (x d : A) : List.last (l ++ [x]) d = x.
Proof. apply List.last_last. Qed.

Lemma merkleRoot_rec_step (Sum256 : list Z → list Z) (fuel : nat) (a b : list Z)
  (rest : list (list Z)) :
  chain.merkleRoot_rec Sum256 (S fuel) (a :: b :: rest)
  = chain.merkleRoot_rec Sum256 fuel
      (chain.pair_level Sum256
         (if Nat.even (length (a :: b :: rest)) then a :: b :: rest
          else (a :: b :: rest) ++ [List.last (a :: b :: rest) []])).
Proof. reflexivity. Qed.

Lemma merkleRoot_odd_duplicate (Sum256 : list Z → list Z) (l : list (list Z)) (x : list Z) :
  Nat.even (length l) = true → l ≠ [] →
  chain.merkleRoot Sum256 (l ++ [x]) = chain.merkleRoot Sum256 (l ++ [x; x]).
Proof.
  intros Heven Hne. unfold chain.merkleRoot.
  destruct l as [|a [|b rest]]; [congruence | cbn in Heven; discriminate |].
  cbn [app].
  set (L1 := a :: b :: rest ++ [x]). set (L2 := a :: b :: rest ++ [x; x]).
  assert (Hlen1 : length L1 = S (S (S (length rest)))).
  { unfold L1. cbn [length]. rewrite length_app. cbn. lia. }
  assert (Hlen2 : length L2 = S (S (S (S (length rest))))).
  { unfold L2. cbn [length]. rewrite length_app. cbn. lia. }
  assert (Hodd : Nat.even (length L1) = false).
  { rewrite Hlen1, Nat.even_succ, <- Nat.negb_even. cbn [length] in Heven.
    by rewrite Heven. }
  assert (Heven2 : Nat.even (length L2) = true).
  { rewrite Hlen2. exact Heven. }
  assert (Hlast : L1 ++ [List.last L1 []] = L2).
  { unfold L1, L2.
    change (a :: b :: rest ++ [x]) with ((a :: b :: rest) ++ [x]).
    rewrite last_snoc, <- app_assoc. reflexivity. }
  rewrite Hlen1, Hlen2. unfold L1 at 1. unfold L2 at 1.
  rewrite !merkleRoot_rec_step. fold L1 L2. rewrite Hodd, Heven2, Hlast.
  assert (Hpl : (length (chain.pair_level Sum256 L2) <= S (S (length rest)))%nat).
  { rewrite (pair_level_length Sum256 (length L2)) by lia.
    rewrite Hlen2. apply Nat.Div0.div_le_upper_bound. lia. }
  apply merkleRoot_rec_fuel; lia.
Qed.

Lemma verify_all_app (l1 l2 : list tx.Transaction) :
  chain.verify_all (l1 ++ l2)
  = match chain.verify_all l1 with
    | Some e => Some e
    | None => chain.verify_all l2
    end.
Proof.
  induction l1 as [|t l1 IH]; [reflexivity|]. cbn [app chain.verify_all].
  destruct (tx.Verify t); [reflexivity | exact IH].
Qed.

(** X18. Repeating the last transaction of a block with an odd number of
    transactions (three or more) does not change the transaction root:
    [merkleRoot] pairs the last hash with itself anyway. The block with the
    repeated transaction therefore passes [Block.Verify] under the very
    same header whenever the original does, although it holds one
    transaction more. *)
Theorem CalculateTxRoot_odd_duplicate (TxHash : tx.Transaction → list Z)
  (Sum256 : list Z → list Z) (EncodeToString : list Z → string)
  (b b' : chain.Block) (txs : list tx.Transaction) (t : tx.Transaction) (now : Z) :
  Nat.even (length txs) = true → txs ≠ [] →
  chain.Transactions b = txs ++ [t] →
  chain.Transactions b' = txs ++ [t; t] →
  chain.Header_ b' = chain.Header_ b →
  chain.CalculateTxRoot TxHash Sum256 EncodeToString b'
  = chain.CalculateTxRoot TxHash Sum256 EncodeToString b
  ∧ chain.Verify TxHash Sum256 EncodeToString b' now
    = chain.Verify TxHash Sum256 EncodeToString b now.
Proof.
  intros Heven Hne Hb Hb' Hh.
  assert (Hroot : chain.CalculateTxRoot TxHash Sum256 EncodeToString b'
                  = chain.CalculateTxRoot TxHash Sum256 EncodeToString b).
  { unfold chain.CalculateTxRoot. rewrite Hb, Hb'.
    destruct txs as [|t0 txs0]; [congruence|]. cbn [app].
    f_equal. change (t0 :: txs0 ++ [t; t]) with ((t0 :: txs0) ++ [t; t]).
    change (t0 :: txs0 ++ [t]) with ((t0 :: txs0) ++ [t]).
    rewrite !map_app. cbn [map]. symmetry. apply merkleRoot_odd_duplicate.
    - cbn [length] in *. by rewrite length_map.
    - discriminate. }
  split; [exact Hroot|].
  unfold chain.Verify. rewrite Hroot, Hh, Hb, Hb'.
  destruct (chain.Validate (chain.Header_ b) now); [reflexivity|].
  rewrite !verify_all_app. destruct (chain.verify_all txs); [reflexivity|].
  cbn [chain.verify_all]. by destruct (tx.Verify t).
Qed.

Lemma CalculateTxRoot_odd_duplicate_witness :
  let TxHash (t : tx.Transaction) : list Z := [tx.Nonce t] in
  let Sum256 (l : list Z) : list Z := l in
  let EncodeToString (l : list Z) : string := "" in
  let t0 := scenario.tx_ok in
  let b := {| chain.Header_ := scenario.header_at 0 "" "";
              chain.Transactions := [t0; t0; t0];
              chain.Validator := "V"; chain.Signature := [1] |} in
  let b' := {| chain.Header_ := scenario.header_at 0 "" "";
               chain.Transactions := [t0; t0; t0; t0];
               chain.Validator := "V"; chain.Signature := [1] |} in
  chain.CalculateTxRoot TxHash Sum256 EncodeToString b'
  = chain.CalculateTxRoot TxHash Sum256 EncodeToString b
  ∧ chain.Verify TxHash Sum256 EncodeToString b' 0
    = chain.Verify TxHash Sum256 EncodeToString b 0.
Proof.
  cbv zeta.
  apply (CalculateTxRoot_odd_duplicate (λ t, [tx.Nonce t]) (λ l, l) (λ _, "") _ _
           [scenario.tx_ok; scenario.tx_ok] scenario.tx_ok 0); try reflexivity.
  discriminate.
Defined.


(** ** chain: amounts, fees and rewards *)

(** X19. The balance check of [processTransaction] adds amount and fee in
    [uint64]. When the sum wraps around, the sender only needs
    [amount + fee - 2^64]: the transaction goes through, the sender is
    debited that much, and the recipient is credited the full amount, which
    is more than the sender has paid. *)
Theorem processTransaction_wrapped_check (c : chain.Chain) (t : tx.Transaction)
  (sender : state.Account) :
  tx.From t ≠ tx.To t →
  state.accounts (chain.stateDB c) !! tx.From t = Some sender →
  0 <= tx.Amount t < 2 ^ 64 → 0 <= tx.Fee t < 2 ^ 64 →
  2 ^ 64 <= tx.Amount t + tx.Fee t →
  tx.Amount t + tx.Fee t - 2 ^ 64 <= state.GetBalance sender (tx.Asset t) →
  state.GetBalance sender (tx.Asset t) < 2 ^ 64 →
  ∃ c', chain.processTransaction c t = (c', None)
    ∧ state.StateDB_GetBalance (chain.stateDB c') (tx.From t) (tx.Asset t)
      = state.GetBalance sender (tx.Asset t) - (tx.Amount t + tx.Fee t - 2 ^ 64)
    ∧ state.StateDB_GetBalance (chain.stateDB c') (tx.To t) (tx.Asset t)
      = u64 (state.StateDB_GetBalance (chain.stateDB c) (tx.To t) (tx.Asset t)
             + tx.Amount t)
    ∧ state.GetBalance sender (tx.Asset t) < tx.Amount t + tx.Fee t.
Proof.
  intros Hne Hs Ha Hf Hwrap Hbal Hlt.
  assert (Hsum : u64 (tx.Amount t + tx.Fee t) = tx.Amount t + tx.Fee t - 2 ^ 64).
  { rewrite (u64_congr _ (tx.Amount t + tx.Fee t - 2 ^ 64) 1) by lia.
    apply u64_small. lia. }
  destruct (processTransaction_moves c t sender Hne Hs) as (c' & Hc' & Hsender & Hreceiver).
  { rewrite Hsum. exact Hbal. }
  exists c'. split; [exact Hc'|].
  destruct Hsender as (sender' & Hs' & Hb' & _).
  destruct Hreceiver as (receiver' & Hr' & Hrb & _).
  rewrite !StateDB_GetBalance_lookup, Hs', Hr'. cbn [fmap option_fmap option_map default].
  split_and!.
  - rewrite Hb'.
    destruct (u64_decompose (state.GetBalance sender (tx.Asset t) - tx.Amount t)) as [k ->].
    rewrite (u64_congr _ (state.GetBalance sender (tx.Asset t)
                          - (tx.Amount t + tx.Fee t - 2 ^ 64)) (k - 1)) by lia.
    apply u64_small. lia.
  - rewrite Hrb. f_equal. f_equal. unfold state.GetBalance.
    by destruct (state.accounts (chain.stateDB c) !! tx.To t).
  - lia.
Qed.

Lemma processTransaction_wrapped_check_witness :
  let t := scenario.signed_transfer "transfer" "A" "B" (2 ^ 64 - 1) 1 0 in
  ∃ c', chain.processTransaction scenario.chain_A1000 t = (c', None)
    ∧ state.StateDB_GetBalance (chain.stateDB c') "A" "GYDS" = 1000 - (2 ^ 64 - 1 + 1 - 2 ^ 64)
    ∧ state.StateDB_GetBalance (chain.stateDB c') "B" "GYDS"
      = u64 (state.StateDB_GetBalance (chain.stateDB scenario.chain_A1000) "B" "GYDS"
             + (2 ^ 64 - 1))
    ∧ 1000 < 2 ^ 64 - 1 + 1.
Proof.
  cbv zeta.
  apply (processTransaction_wrapped_check scenario.chain_A1000
           (scenario.signed_transfer "transfer" "A" "B" (2 ^ 64 - 1) 1 0)
           (state.SetBalance (state.NewAccount "A") "GYDS" 1000)).
  - discriminate.
  - vm_compute. reflexivity.
  - vm_compute. split; [discriminate | reflexivity].
  - vm_compute. split; [discriminate | reflexivity].
  - vm_compute. discriminate.
  - vm_compute. discriminate.
  - vm_compute. reflexivity.
Defined.

Lemma holdings_IncrementNonce (asset : string) (a : state.Account) :
  holdings asset (state.IncrementNonce a) = holdings asset a.
Proof. reflexivity. Qed.

Lemma SetAccount_sum (s : state.StateDB) (address asset : string) (a : state.Account) :
  msum (holdings asset) (state.accounts (state.SetAccount s address a))
  = msum (holdings asset) (state.accounts s)
    - default 0 (holdings asset <$> state.accounts s !! address)
    + holdings asset a.
Proof. unfold state.SetAccount. cbn. rewrite Copy_id. apply msum_insert. Qed.

(** X20. The fee of a processed transaction goes to nobody: after a
    successful [processTransaction] between two different addresses the
    total supply of the transaction's asset is the supply before minus the
    fee (in [uint64]), and the supply of every other asset is unchanged. *)
Theorem processTransaction_destroys_fee (c c' : chain.Chain) (t : tx.Transaction) :
  chain.processTransaction c t = (c', None) →
  tx.From t ≠ tx.To t →
  state.StateDB_TotalSupply (chain.stateDB c') (tx.Asset t)
  = u64 (state.StateDB_TotalSupply (chain.stateDB c) (tx.Asset t) - tx.Fee t)
  ∧ (∀ asset, asset ≠ tx.Asset t →
       state.StateDB_TotalSupply (chain.stateDB c') asset
       = state.StateDB_TotalSupply (chain.stateDB c) asset).
Proof.
  intros H Hne. unfold chain.processTransaction, state.GetAccount in H.
  destruct (state.accounts (chain.stateDB c) !! tx.From t) as [sender|] eqn:Hs;
    cbn [fmap option_fmap option_map] in H; [|by inversion H].
  rewrite Copy_id in H.
  destruct (_ <? _); [by inversion H|].
  inversion H; subst; clear H.
  cbn [chain.with_stateDB chain.stateDB].
  set (b := state.GetBalance sender (tx.Asset t)).
  set (receiver := match state.Copy <$> state.accounts (chain.stateDB c) !! tx.To t with
                   | Some r => r
                   | None => state.NewAccount (tx.To t)
                   end).
  assert (Hrec : ∀ asset,
            default 0 (holdings asset <$> state.accounts (chain.stateDB c) !! tx.To t)
            = holdings asset receiver).
  { intros asset. unfold receiver.
    destruct (state.accounts (chain.stateDB c) !! tx.To t); cbn.
    - now rewrite Copy_id.
    - now rewrite holdings_NewAccount. }
  assert (Hsum : ∀ asset,
    msum (holdings asset)
      (state.accounts
         (state.SetAccount
            (state.SetAccount (chain.stateDB c) (tx.From t)
               (state.IncrementNonce
                  (state.SetBalance sender (tx.Asset t) (u64 (u64 (b - tx.Amount t) - tx.Fee t)))))
            (tx.To t)
            (state.SetBalance receiver (tx.Asset t)
               (u64 (state.GetBalance receiver (tx.Asset t) + tx.Amount t)))))
    = msum (holdings asset) (state.accounts (chain.stateDB c))
      + (if decide (tx.Asset t = asset)
         then (u64 (u64 (b - tx.Amount t) - tx.Fee t) - b)
              + (u64 (state.GetBalance receiver (tx.Asset t) + tx.Amount t)
                 - state.GetBalance receiver (tx.Asset t))
         else 0)).
  { intros asset. rewrite !SetAccount_sum. cbn [state.SetAccount state.accounts].
    rewrite lookup_insert_ne by exact Hne. rewrite Hs, Hrec. cbn.
    rewrite holdings_IncrementNonce, !holdings_SetBalance. fold b.
    destruct (decide (tx.Asset t = asset)); lia. }
  split.
  - rewrite !TotalSupply_sum.
    rewrite Hsum, decide_True by reflexivity.
    destruct (u64_decompose (b - tx.Amount t)) as [k1 ->].
    destruct (u64_decompose (b + k1 * 2 ^ 64 - tx.Amount t - tx.Fee t)) as [k2 Hk2].
    replace (b - tx.Amount t + k1 * 2 ^ 64 - tx.Fee t)
      with (b + k1 * 2 ^ 64 - tx.Amount t - tx.Fee t) by lia.
    rewrite Hk2.
    destruct (u64_decompose (state.GetBalance receiver (tx.Asset t) + tx.Amount t))
      as [k3 ->].
    destruct (u64_decompose (msum (holdings (tx.Asset t)) (state.accounts (chain.stateDB c))))
      as [k4 ->].
    apply (u64_congr _ _ (k1 + k2 + k3 - k4)). lia.
  - intros asset Hasset. rewrite !TotalSupply_sum.
    rewrite Hsum, decide_False by congruence. f_equal. lia.
Qed.

Lemma processTransaction_destroys_fee_witness :
  let c' := (chain.processTransaction scenario.chain_A1000 scenario.tx_ok).1 in
  state.StateDB_TotalSupply (chain.stateDB c') (tx.Asset scenario.tx_ok)
  = u64 (state.StateDB_TotalSupply (chain.stateDB scenario.chain_A1000)
           (tx.Asset scenario.tx_ok) - tx.Fee scenario.tx_ok)
  ∧ (∀ asset, asset ≠ tx.Asset scenario.tx_ok →
       state.StateDB_TotalSupply (chain.stateDB c') asset
       = state.StateDB_TotalSupply (chain.stateDB scenario.chain_A1000) asset).
Proof.
  cbv zeta.
  apply (processTransaction_destroys_fee scenario.chain_A1000 _ scenario.tx_ok).
  - vm_compute. reflexivity.
  - discriminate.
Defined.

Lemma fold_fee_range (l : list tx.Transaction) : ∀ total,
  0 <= total < 2 ^ 64 →
  0 <= fold_left (λ total t, u64 (total + tx.Fee t)) l total < 2 ^ 64.
Proof.
  induction l as [|t l IH]; intros total H; cbn [fold_left]; [exact H|].
  apply IH, u64_range.
Qed.

(** X21. [Block.CalculateReward] splits the fees of a block without loss:
    for every block, the validator's reward and the miners' reward add up
    to the base reward of 10 GYDS plus the total fees, exactly and without
    wrap-around; the miners' share is never negative and at least a fifth
    of the fees, and the total is the [uint64] sum of the fees of the
    block's transactions. *)
Theorem CalculateReward_splits_fees (b : chain.Block) :
  let r := chain.CalculateReward b in
  chain.GYDSReward r + chain.MinerReward r = 1000000000 + chain.TotalFees r
  ∧ 0 <= chain.MinerReward r <= chain.TotalFees r
  ∧ chain.TotalFees r <= 5 * chain.MinerReward r
  ∧ 0 <= chain.TotalFees r < 2 ^ 64
  ∧ chain.TotalFees r
    = fold_left (λ total t, u64 (total + tx.Fee t)) (chain.Transactions b) 0.
Proof.
  cbv zeta. unfold chain.CalculateReward.
  cbn [chain.GYDSReward chain.MinerReward chain.TotalFees].
  set (fees := fold_left (λ total t, u64 (total + tx.Fee t)) (chain.Transactions b) 0).
  assert (Hf : 0 <= fees < 2 ^ 64) by (apply fold_fee_range; lia).
  set (v := u64 (fees * 80) / 100).
  pose proof (u64_range (fees * 80)) as Hr.
  assert (Hv0 : 0 <= v) by (apply Z.div_pos; lia).
  assert (Hv1 : 100 * v <= u64 (fees * 80)) by (apply Z.mul_div_le; lia).
  assert (Hv2 : u64 (fees * 80) <= fees * 80).
  { unfold u64. apply Z.mod_le; lia. }
  change (2 ^ 64) with 18446744073709551616 in *.
  rewrite (u64_small (fees - v)) by (change (2 ^ 64) with 18446744073709551616; lia).
  rewrite (u64_small (1000000000 + v)) by (change (2 ^ 64) with 18446744073709551616; lia).
  split_and!; lia || reflexivity.
Qed.


(** ** chain: the genesis block and its allocations *)

Lemma alloc_fold_balance (address : string) (s0 : state.StateDB)
  (allocs : list chain.AllocConfig) :
  ∀ (s : state.StateDB) (found : option chain.AllocConfig),
  (∀ asset, state.StateDB_GetBalance s address asset
            = match found with
              | Some a => if (asset =? "GYDS")%string then chain.GYDSBalance a
                          else if (asset =? "GYD")%string then chain.GYDBalance a else 0
              | None => state.StateDB_GetBalance s0 address asset
              end) →
  ∀ asset,
    state.StateDB_GetBalance (fold_left chain.alloc_account allocs s) address asset
    = match fold_left
              (λ found a,
                 if bool_decide (chain.AllocAddress a = address) then Some a else found)
              allocs found with
      | Some a => if (asset =? "GYDS")%string then chain.GYDSBalance a
                  else if (asset =? "GYD")%string then chain.GYDBalance a else 0
      | None => state.StateDB_GetBalance s0 address asset
      end.
Proof.
  induction allocs as [|a allocs IH]; intros s found H; [exact H|].
  cbn [fold_left]. apply IH. intros asset.
  unfold chain.alloc_account. rewrite StateDB_GetBalance_lookup.
  cbn [state.SetAccount state.accounts].
  destruct (bool_decide (chain.AllocAddress a = address)) eqn:E.
  - apply bool_decide_eq_true_1 in E. subst address.
    rewrite lookup_insert_eq. cbn [fmap option_fmap option_map default]. rewrite Copy_id.
    destruct (asset =? "GYDS")%string eqn:E1.
    + apply String.eqb_eq in E1. subst asset.
      rewrite GetBalance_SetBalance_ne by discriminate. apply GetBalance_SetBalance.
    + apply String.eqb_neq in E1. destruct (asset =? "GYD")%string eqn:E2.
      * apply String.eqb_eq in E2. subst asset. apply GetBalance_SetBalance.
      * apply String.eqb_neq in E2.
        rewrite !GetBalance_SetBalance_ne by congruence.
        unfold state.GetBalance, state.balance_of. cbn. by rewrite lookup_empty.
  - apply bool_decide_eq_false_1 in E.
    rewrite lookup_insert_ne by exact E.
    rewrite <- StateDB_GetBalance_lookup. apply H.
Qed.

(** X22. [InitGenesis] stores the genesis block as block 0 and latest
    block, and that block is a genesis header that passes [Block.Verify]
    (its transaction root is the root of the empty list) as long as its
    timestamp is not in the future. Every address named in the allocations
    gets exactly the GYDS and GYD balances of the last allocation that names
    it (an earlier allocation to the same address is replaced, not added
    to) and no other balance; the balances of all other addresses are
    untouched. *)
Theorem InitGenesis_allocates (TxHash : tx.Transaction → list Z) (Sum256 : list Z → list Z)
  (EncodeToString : list Z → string) (BlockHash : chain.Block → string)
  (c : chain.Chain) (g : chain.GenesisConfig) :
  let c' := chain.InitGenesis BlockHash c g in
  chain.GetBlockByHeight c' 0 = (Some (chain.ToBlock g), None)
  ∧ chain.GetBlock c' (BlockHash (chain.ToBlock g)) = (Some (chain.ToBlock g), None)
  ∧ chain.latestHash c' = BlockHash (chain.ToBlock g)
  ∧ chain.latestHeight c' = 0
  ∧ chain.genesis c' = Some (chain.ToBlock g)
  ∧ (BlockHash (chain.ToBlock g) ≠ "" →
     chain.LatestBlock c' = (Some (chain.ToBlock g), None))
  ∧ chain.IsGenesis (chain.Header_ (chain.ToBlock g)) = true
  ∧ (∀ now, chain.GenesisTimestamp g <= now + 15 →
       chain.Verify TxHash Sum256 EncodeToString (chain.ToBlock g) now = None)
  ∧ (∀ address asset,
       state.StateDB_GetBalance (chain.stateDB c') address asset
       = match last_alloc address (chain.Alloc g) with
         | Some a => if (asset =? "GYDS")%string then chain.GYDSBalance a
                     else if (asset =? "GYD")%string then chain.GYDBalance a else 0
         | None => state.StateDB_GetBalance (chain.stateDB c) address asset
         end).
Proof.
  cbv zeta. unfold chain.GetBlockByHeight, chain.GetBlock, chain.InitGenesis.
  cbn [chain.heights chain.blocks chain.latestHash chain.latestHeight chain.genesis
       chain.stateDB].
  rewrite !lookup_insert_eq. split_and!; try reflexivity.
  - intros Hne. unfold chain.LatestBlock.
    cbn [chain.latestHash chain.blocks].
    destruct (_ =? _)%string eqn:E; [apply String.eqb_eq in E; congruence|].
    by rewrite lookup_insert_eq.
  - intros now Hnow. unfold chain.Verify, chain.Validate, chain.ToBlock.
    cbn [chain.Header_ chain.Timestamp chain.Height chain.ParentHash chain.Transactions
         chain.TxRoot chain.verify_all chain.CalculateTxRoot].
    destruct (_ >? _) eqn:E; [rewrite Z.gtb_ltb in E; apply Z.ltb_lt in E; lia|].
    reflexivity.
  - intros address asset. unfold last_alloc.
    apply (alloc_fold_balance address (chain.stateDB c)). reflexivity.
Qed.


(** ** pos: delegations and the stake invariant *)

Lemma sum_delegations_msum (m : gmap string Z) : pos.sum_delegations m = msum id m.
Proof. reflexivity. Qed.

Lemma msum_lookup_le (m : gmap string Z) (k : string) (x : Z) :
  map_Forall (λ _ a, 0 <= a) m → m !! k = Some x → 0 <= x ∧ x <= msum id m.
Proof.
  intros Hall Hk. split; [exact (Hall _ _ Hk)|].
  pose proof (msum_delete id m k x Hk) as Hd.
  assert (0 <= msum id (delete k m)); [|unfold id in *; lia].
  apply msum_nonneg. intros j y Hj. apply lookup_delete_Some in Hj as [_ Hj].
  exact (Hall _ _ Hj).
Qed.

Lemma msum_default_le (m : gmap string Z) (k : string) :
  map_Forall (λ _ a, 0 <= a) m →
  0 <= default 0 (m !! k) ∧ default 0 (m !! k) <= msum id m.
Proof.
  intros Hall. destruct (m !! k) as [x|] eqn:E; cbn.
  - by apply (msum_lookup_le m k).
  - split; [lia|]. by apply msum_nonneg.
Qed.

(** Undelegating what was just delegated restores the validator. *)
Lemma AddDelegation_RemoveDelegation_roundtrip (v : pos.Validator) (delegator : string)
  (amount now now' : Z) :
  0 <= amount →
  0 <= pos.TotalStake v → pos.TotalStake v + amount < 2 ^ 64 →
  0 <= default 0 (pos.Delegations v !! delegator) →
  default 0 (pos.Delegations v !! delegator) + amount < 2 ^ 64 →
  pos.Delegations v !! delegator ≠ Some 0 →
  ∃ v', pos.RemoveDelegation (pos.AddDelegation v delegator amount now) delegator amount now'
        = (v', None)
    ∧ pos.Delegations v' = pos.Delegations v
    ∧ pos.TotalStake v' = pos.TotalStake v
    ∧ pos.SelfStake v' = pos.SelfStake v
    ∧ pos.Active v' = pos.Active v.
Proof.
  intros H0 Ht0 Ht1 Hc0 Hc1 Hnz.
  set (current := default 0 (pos.Delegations v !! delegator)) in *.
  unfold pos.RemoveDelegation, pos.AddDelegation.
  cbn [pos.Delegations pos.TotalStake pos.SelfStake pos.Active].
  rewrite lookup_insert_eq.
  change (default 0 (Some (u64 (default 0 (pos.Delegations v !! delegator) + amount))))
    with (u64 (current + amount)).
  fold current.
  rewrite !(u64_small (current + amount)) by lia.
  rewrite (u64_small (pos.TotalStake v + amount)) by lia.
  destruct (current + amount <? amount) eqn:E; [apply Z.ltb_lt in E; lia|].
  eexists. split; [reflexivity|].
  cbn [pos.Delegations pos.TotalStake pos.SelfStake pos.Active].
  replace (current + amount - amount) with current by lia.
  replace (pos.TotalStake v + amount - amount) with (pos.TotalStake v) by lia.
  rewrite !u64_small by lia. split_and!; try reflexivity.
  destruct (current =? 0) eqn:Ez.
  - apply Z.eqb_eq in Ez. rewrite delete_insert_eq.
    destruct (pos.Delegations v !! delegator) as [x|] eqn:Ed.
    + unfold current in Ez. cbn in Ez. congruence.
    + by apply delete_id.
  - apply Z.eqb_neq in Ez. rewrite insert_insert_eq.
    destruct (pos.Delegations v !! delegator) as [x|] eqn:Ed.
    + unfold current. cbn. by apply insert_id.
    + unfold current in Ez. cbn in Ez. congruence.
Qed.


(** X23. Delegating and undelegating keep the books of a validator: on a
    validator whose total stake is its self-stake plus its delegations,
    [AddDelegation] adds the amount to the delegator's entry and to the
    total, [RemoveDelegation] is refused with [ErrInsufficientStake] exactly
    when the delegator has less than the amount, and otherwise takes the
    amount from the entry and from the total; the invariant holds again
    after either. [RemoveDelegation] after [AddDelegation] of the same
    amount gives back the total stake and the whole delegation map (unless
    the delegator had an entry of zero, which the removal deletes). The
    additions are in [uint64], hence the bound on the total. *)
Theorem delegation_keeps_stake_invariant (v : pos.Validator) (delegator : string)
  (amount now : Z) :
  pos.stake_invariant v →
  0 <= pos.SelfStake v →
  map_Forall (λ _ a, 0 <= a) (pos.Delegations v) →
  0 <= amount → pos.TotalStake v + amount < 2 ^ 64 →
  let current := default 0 (pos.Delegations v !! delegator) in
  let added := pos.AddDelegation v delegator amount now in
  let removed := pos.RemoveDelegation v delegator amount now in
  (pos.stake_invariant added
   ∧ pos.TotalStake added = pos.TotalStake v + amount
   ∧ pos.Delegations added !! delegator = Some (current + amount)
   ∧ pos.SelfStake added = pos.SelfStake v)
  ∧ (current < amount → removed = (v, Some ErrInsufficientStake))
  ∧ (amount <= current →
     removed.2 = None
     ∧ pos.stake_invariant removed.1
     ∧ pos.TotalStake removed.1 = pos.TotalStake v - amount
     ∧ default 0 (pos.Delegations removed.1 !! delegator) = current - amount
     ∧ pos.SelfStake removed.1 = pos.SelfStake v)
  ∧ (pos.Delegations v !! delegator ≠ Some 0 →
     (pos.RemoveDelegation added delegator amount now).2 = None
     ∧ pos.Delegations (pos.RemoveDelegation added delegator amount now).1
       = pos.Delegations v
     ∧ pos.TotalStake (pos.RemoveDelegation added delegator amount now).1
       = pos.TotalStake v).
Proof.
  intros Hinv Hself Hall H0 Hlt. cbv zeta.
  assert (Hround : pos.Delegations v !! delegator ≠ Some 0 →
     (pos.RemoveDelegation (pos.AddDelegation v delegator amount now) delegator amount now).2
       = None
     ∧ pos.Delegations
         (pos.RemoveDelegation (pos.AddDelegation v delegator amount now)
            delegator amount now).1 = pos.Delegations v
     ∧ pos.TotalStake
         (pos.RemoveDelegation (pos.AddDelegation v delegator amount now)
            delegator amount now).1 = pos.TotalStake v).
  { intros Hnz.
    destruct (msum_default_le (pos.Delegations v) delegator Hall) as [Hc0 Hc1].
    unfold pos.stake_invariant in Hinv. rewrite sum_delegations_msum in Hinv.
    pose proof (msum_nonneg id (pos.Delegations v) Hall) as Hsum.
    destruct (AddDelegation_RemoveDelegation_roundtrip v delegator amount now now)
      as (v' & -> & Hd & Ht & _); [lia | lia | lia | lia | lia | exact Hnz |].
    by split_and!. }
  unfold pos.stake_invariant in *. rewrite sum_delegations_msum in Hinv.
  destruct (msum_default_le (pos.Delegations v) delegator Hall) as [Hc0 Hc1].
  set (current := default 0 (pos.Delegations v !! delegator)) in *.
  assert (Hbal : state.balance_of (pos.Delegations v) delegator = current) by reflexivity.
  split_and!.
  - unfold pos.AddDelegation. cbn. rewrite sum_delegations_msum, msum_id_insert, Hbal.
    fold current. rewrite !u64_small by lia. lia.
  - cbn. apply u64_small. lia.
  - cbn. rewrite lookup_insert_eq. fold current. rewrite u64_small by lia. reflexivity.
  - reflexivity.
  - intros Hless. unfold pos.RemoveDelegation. fold current.
    apply Z.ltb_lt in Hless. by rewrite Hless.
  - intros Hle. unfold pos.RemoveDelegation. fold current.
    destruct (current <? amount) eqn:E; [apply Z.ltb_lt in E; lia|].
    cbn [fst snd pos.TotalStake pos.SelfStake pos.Delegations].
    rewrite !u64_small by lia.
    split_and!; try reflexivity.
    + rewrite sum_delegations_msum.
      destruct (current - amount =? 0) eqn:Ez.
      * apply Z.eqb_eq in Ez.
        destruct (pos.Delegations v !! delegator) as [x|] eqn:Ed.
        -- rewrite (msum_delete id _ _ x Ed). unfold current, id in *. cbn in *. lia.
        -- rewrite delete_id by exact Ed. unfold current in *. cbn in *. lia.
      * rewrite msum_id_insert, Hbal. lia.
    + destruct (current - amount =? 0) eqn:Ez.
      * apply Z.eqb_eq in Ez. rewrite lookup_delete_eq. cbn. lia.
      * rewrite lookup_insert_eq. reflexivity.
  - exact Hround.
Qed.

Lemma delegation_keeps_stake_invariant_witness :
  let v := scenario.validator_10_90 in
  let current := default 0 (pos.Delegations v !! "D") in
  let added := pos.AddDelegation v "D" 30 1 in
  let removed := pos.RemoveDelegation v "D" 30 1 in
  (pos.stake_invariant added
   ∧ pos.TotalStake added = pos.TotalStake v + 30
   ∧ pos.Delegations added !! "D" = Some (current + 30)
   ∧ pos.SelfStake added = pos.SelfStake v)
  ∧ (current < 30 → removed = (v, Some ErrInsufficientStake))
  ∧ (30 <= current →
     removed.2 = None
     ∧ pos.stake_invariant removed.1
     ∧ pos.TotalStake removed.1 = pos.TotalStake v - 30
     ∧ default 0 (pos.Delegations removed.1 !! "D") = current - 30
     ∧ pos.SelfStake removed.1 = pos.SelfStake v)
  ∧ (pos.Delegations v !! "D" ≠ Some 0 →
     (pos.RemoveDelegation added "D" 30 1).2 = None
     ∧ pos.Delegations (pos.RemoveDelegation added "D" 30 1).1 = pos.Delegations v
     ∧ pos.TotalStake (pos.RemoveDelegation added "D" 30 1).1 = pos.TotalStake v).
Proof.
  apply (delegation_keeps_stake_invariant scenario.validator_10_90 "D" 30 1).
  - unfold pos.stake_invariant.
    change (pos.Delegations scenario.validator_10_90) with ({[ "D" := 90 ]} : gmap string Z).
    rewrite sum_delegations_singleton. vm_compute. reflexivity.
  - vm_compute. discriminate.
  - change (pos.Delegations scenario.validator_10_90) with ({[ "D" := 90 ]} : gmap string Z).
    apply map_Forall_singleton. lia.
  - lia.
  - vm_compute. reflexivity.
Defined.


(** ** pos: the books of the engine *)

Lemma insert_by_stake_perm (v : pos.Validator) (l : list pos.Validator) :
  Permutation (pos.insert_by_stake v l) (v :: l).
Proof.
  induction l as [|x l IH]; cbn; [reflexivity|].
  destruct (_ >? _); [reflexivity|].
  rewrite IH. apply Permutation_swap.
Qed.

Lemma sort_by_stake_perm (l : list pos.Validator) : Permutation (pos.sort_by_stake l) l.
Proof.
  induction l as [|v l IH]; cbn; [reflexivity|].
  rewrite insert_by_stake_perm. by constructor.
Qed.

Lemma active_list_registered (e : pos.Engine) (v : pos.Validator) :
  v ∈ pos.active_list e → ∃ k, pos.validators e !! k = Some v.
Proof.
  unfold pos.active_list.
  set (el := List.filter _ _). intros Hv.
  assert (Hs : v ∈ pos.sort_by_stake el).
  { destruct (_ >? _); [|exact Hv].
    apply elem_of_take in Hv as (i & Hi & _). by apply list_elem_of_lookup_2 in Hi. }
  rewrite sort_by_stake_perm in Hs. unfold el in Hs.
  apply list_elem_of_In, List.filter_In in Hs as [Hs _].
  apply list_elem_of_In, list_elem_of_fmap in Hs as ([k v'] & -> & Hin).
  exists k. by apply elem_of_map_to_list.
Qed.

Lemma updated_consistent (e : pos.Engine) (m : gmap string pos.Validator) (total : Z) :
  total = u64 (msum pos.TotalStake m) →
  (∀ k v, m !! k = Some v → pos.Address v = k) →
  engine_consistent (pos.updateValidatorList (pos.with_validators e m total)).
Proof.
  intros Ht Hk.
  pose proof (active_list_sorted (pos.with_validators e m total)) as [Hsorted Hall].
  split_and!; [exact Ht | exact Hk | | exact Hsorted].
  intros v Hv. cbn [pos.updateValidatorList pos.validatorList pos.validators pos.minStake] in *.
  split.
  - destruct (active_list_registered _ _ Hv) as [k Hm]. cbn in Hm.
    by rewrite (Hk _ _ Hm).
  - rewrite Forall_forall in Hall. exact (Hall v Hv).
Qed.

(** X24. The engine keeps its books: [NewEngine] starts with a running
    total equal to the sum of the stakes of its (no) validators, and
    [RegisterValidator], [UnregisterValidator], [Delegate] and [Undelegate]
    keep the running total equal to the sum of the total stakes of all
    registered validators (in [uint64]), keep every validator stored under
    its own address, and leave a validator list that holds only validators
    as the map has them, each active with at least the minimum stake, in
    descending order of stake, whether they succeed or return an error. *)
Theorem engine_stays_consistent :
  (∀ minStake maxValidators blockTime,
     engine_consistent (pos.NewEngine minStake maxValidators blockTime))
  ∧ (∀ e address pubKey stake now, engine_consistent e →
       engine_consistent (pos.RegisterValidator e address pubKey stake now).1)
  ∧ (∀ e address, engine_consistent e →
       engine_consistent (pos.UnregisterValidator e address).1)
  ∧ (∀ e delegator validator amount now, engine_consistent e →
       engine_consistent (pos.Delegate e delegator validator amount now).1)
  ∧ (∀ e delegator validator amount now, engine_consistent e →
       engine_consistent (pos.Undelegate e delegator validator amount now).1).
Proof.
  split_and!.
  - intros. split_and!; cbn.
    + by rewrite msum_empty.
    + intros k v H. by rewrite lookup_empty in H.
    + intros v Hv. by apply elem_of_nil in Hv.
    + constructor.
  - intros e address pubKey stake now (Ht & Hk & Hl & Hs). unfold pos.RegisterValidator.
    destruct (pos.validators e !! address) eqn:E; [by split_and!|].
    destruct (_ <? _); [by split_and!|].
    destruct (_ && _); [by split_and!|].
    cbn [fst]. apply updated_consistent.
    + rewrite msum_insert_None by exact E. cbn. rewrite Ht.
      destruct (u64_decompose (msum pos.TotalStake (pos.validators e))) as [k ->].
      apply (u64_congr _ _ k). lia.
    + intros k v Hv. apply lookup_insert_Some in Hv as [[<- <-]|[_ Hv]]; [reflexivity|].
      by apply Hk.
  - intros e address (Ht & Hk & Hl & Hs). unfold pos.UnregisterValidator.
    destruct (pos.validators e !! address) as [v|] eqn:E; [|by split_and!].
    cbn [fst]. apply updated_consistent.
    + rewrite (msum_delete _ _ _ v E), Ht.
      destruct (u64_decompose (msum pos.TotalStake (pos.validators e))) as [k ->].
      apply (u64_congr _ _ k). lia.
    + intros k v' Hv. apply lookup_delete_Some in Hv as [_ Hv]. by apply Hk.
  - intros e delegator validator amount now (Ht & Hk & Hl & Hs). unfold pos.Delegate.
    destruct (pos.validators e !! validator) as [v|] eqn:E; [|by split_and!].
    cbn [fst]. apply updated_consistent.
    + rewrite (msum_insert_Some _ _ _ _ v E), Ht. cbn.
      destruct (u64_decompose (msum pos.TotalStake (pos.validators e))) as [k1 ->].
      destruct (u64_decompose (pos.TotalStake v + amount)) as [k2 ->].
      apply (u64_congr _ _ (k1 - k2)). lia.
    + intros k v' Hv. apply lookup_insert_Some in Hv as [[<- <-]|[_ Hv]].
      * cbn. by apply Hk.
      * by apply Hk.
  - intros e delegator validator amount now (Ht & Hk & Hl & Hs). unfold pos.Undelegate.
    destruct (pos.validators e !! validator) as [v|] eqn:E; [|by split_and!].
    destruct (pos.RemoveDelegation v delegator amount now) as [v' [err|]] eqn:Er;
      [by split_and!|].
    cbn [fst]. unfold pos.RemoveDelegation in Er.
    destruct (_ <? _); [discriminate|]. inversion Er; subst; clear Er.
    apply updated_consistent.
    + rewrite (msum_insert_Some _ _ _ _ v E), Ht. cbn.
      destruct (u64_decompose (msum pos.TotalStake (pos.validators e))) as [k1 ->].
      destruct (u64_decompose (pos.TotalStake v - amount)) as [k2 ->].
      apply (u64_congr _ _ (k1 - k2)). lia.
    + intros k v' Hv. apply lookup_insert_Some in Hv as [[<- <-]|[_ Hv]].
      * cbn. by apply Hk.
      * by apply Hk.
Qed.

(** ** pos: the validator list holds the highest stakes *)

(** X25. The validator list that [updateValidatorList] builds holds the
    highest stakes: it consists of registered validators that are active
    with at least the minimum stake, it is sorted by stake in descending
    order, it has at most [maxValidators] entries, and the eligible
    validators it leaves out (only when the list is full) have no higher
    stake than any validator in it. *)
Theorem updateValidatorList_keeps_highest_stakes (e : pos.Engine) :
  Z.of_nat (size (pos.validators e)) < 2 ^ 32 →
  0 <= pos.maxValidators e →
  let l := pos.validatorList (pos.updateValidatorList e) in
  ∃ rest,
    Permutation (l ++ rest)
      (List.filter (pos.eligible (pos.minStake e)) (map_to_list (pos.validators e)).*2)
    ∧ Z.of_nat (length l) <= pos.maxValidators e
    ∧ (rest ≠ [] → Z.of_nat (length l) = pos.maxValidators e)
    ∧ (∀ v w, v ∈ l → w ∈ rest → pos.TotalStake w <= pos.TotalStake v)
    ∧ StronglySorted by_stake_desc l
    ∧ (∀ v, v ∈ l → ∃ k, pos.validators e !! k = Some v)
    ∧ Forall (λ v, pos.Active v = true ∧ pos.minStake e <= pos.TotalStake v) l.
Proof.
  intros Hsize Hmax. cbv zeta. cbn [pos.updateValidatorList pos.validatorList].
  pose proof (active_list_sorted e) as [Hsorted Hall].
  unfold pos.active_list in *.
  set (all := (map_to_list (pos.validators e)).*2) in *.
  set (el := List.filter (pos.eligible (pos.minStake e)) all) in *.
  set (sorted := pos.sort_by_stake el) in *.
  assert (Hperm : Permutation sorted el) by apply sort_by_stake_perm.
  assert (Hlen : (length sorted <= size (pos.validators e))%nat).
  { rewrite (Permutation_length Hperm). unfold el.
    etransitivity; [apply List.filter_length_le|].
    unfold all. rewrite length_fmap, length_map_to_list. reflexivity. }
  assert (Hreg : ∀ v, v ∈ sorted → ∃ k, pos.validators e !! k = Some v).
  { intros v Hv. rewrite Hperm in Hv. unfold el in Hv.
    apply list_elem_of_In, List.filter_In in Hv as [Hv _].
    apply list_elem_of_In in Hv. unfold all in Hv.
    apply list_elem_of_fmap in Hv as ([k v'] & -> & Hin).
    exists k. by apply elem_of_map_to_list. }
  rewrite Z.mod_small in * by lia.
  destruct (Z.of_nat (length sorted) >? pos.maxValidators e) eqn:E.
  - rewrite Z.gtb_ltb in E. apply Z.ltb_lt in E.
    exists (drop (Z.to_nat (pos.maxValidators e)) sorted).
    rewrite take_drop. split_and!.
    + exact Hperm.
    + rewrite length_take. lia.
    + intros _. rewrite length_take. lia.
    + intros v w Hv Hw.
      pose proof (sort_by_stake_sorted el) as Hs. fold sorted in Hs.
      rewrite <- (take_drop (Z.to_nat (pos.maxValidators e)) sorted) in Hs.
      exact (StronglySorted_app_1_elem_of _ _ _ _ _ Hs Hv Hw).
    + exact Hsorted.
    + intros v Hv. apply Hreg.
      apply elem_of_take in Hv as (i & Hi & _). by apply list_elem_of_lookup_2 in Hi.
    + exact Hall.
  - rewrite Z.gtb_ltb in E. apply Z.ltb_ge in E.
    exists []. rewrite app_nil_r. split_and!.
    + exact Hperm.
    + lia.
    + congruence.
    + intros v w _ Hw. by apply elem_of_nil in Hw.
    + exact Hsorted.
    + intros v Hv. by apply Hreg.
    + exact Hall.
Qed.

Lemma updateValidatorList_keeps_highest_stakes_witness :
  let e := scenario.engine_ABC in
  let l := pos.validatorList (pos.updateValidatorList e) in
  ∃ rest,
    Permutation (l ++ rest)
      (List.filter (pos.eligible (pos.minStake e)) (map_to_list (pos.validators e)).*2)
    ∧ Z.of_nat (length l) <= pos.maxValidators e
    ∧ (rest ≠ [] → Z.of_nat (length l) = pos.maxValidators e)
    ∧ (∀ v w, v ∈ l → w ∈ rest → pos.TotalStake w <= pos.TotalStake v)
    ∧ StronglySorted by_stake_desc l
    ∧ (∀ v, v ∈ l → ∃ k, pos.validators e !! k = Some v)
    ∧ Forall (λ v, pos.Active v = true ∧ pos.minStake e <= pos.TotalStake v) l.
Proof.
  apply (updateValidatorList_keeps_highest_stakes scenario.engine_ABC).
  - vm_compute. reflexivity.
  - vm_compute. discriminate.
Defined.


(** ** pos: block rewards *)

Lemma reward_shares_bounded (e : pos.Engine) (blockReward : Z) (l : list pos.Validator) :
  0 <= blockReward → 0 < pos.totalStake e →
  blockReward * pos.totalStake e < 2 ^ 64 →
  Forall (λ v, 0 <= pos.TotalStake v) l →
  pos.sum_stake l <= pos.totalStake e →
  0 <= foldr Z.add 0 (pos.reward_share e blockReward <$> l)
  ∧ foldr Z.add 0 (pos.reward_share e blockReward <$> l) * pos.totalStake e
    <= blockReward * pos.sum_stake l.
Proof.
  intros Hb HT Hbt Hall. induction Hall as [|v l Hv Hall IH]; intros Hsum.
  - cbn. unfold pos.sum_stake. cbn. lia.
  - rewrite sum_stake_cons in Hsum. pose proof (sum_stake_nonneg l Hall) as Hl.
    destruct IH as [IH0 IH1]; [lia|].
    cbn [fmap list_fmap foldr]. rewrite sum_stake_cons.
    unfold pos.reward_share at 1 3.
    rewrite u64_small by nia.
    assert (H1 : 0 <= blockReward * pos.TotalStake v / pos.totalStake e)
      by (apply Z.div_pos; nia).
    assert (H2 : pos.totalStake e * (blockReward * pos.TotalStake v / pos.totalStake e)
                 <= blockReward * pos.TotalStake v)
      by (apply Z.mul_div_le; lia).
    split; [lia | nia].
Qed.

(** X26. [ProcessRewards] never hands out more than the block reward: when
    the stakes of the listed validators add up to no more than the engine's
    total (and the products stay within [uint64]), every listed validator
    is credited [blockReward * TotalStake / totalStake], and the credited
    amounts add up to at most [blockReward]; the stakes and the engine's
    total are untouched. *)
Theorem ProcessRewards_within_block_reward (e : pos.Engine) (blockReward : Z) :
  0 <= blockReward → 0 < pos.totalStake e →
  blockReward * pos.totalStake e < 2 ^ 64 →
  Forall (λ v, 0 <= pos.TotalStake v) (pos.validatorList e) →
  pos.sum_stake (pos.validatorList e) <= pos.totalStake e →
  let e' := pos.ProcessRewards e blockReward in
  let shares := pos.reward_share e blockReward <$> pos.validatorList e in
  pos.validatorList e'
  = (λ v, pos.AddReward v (pos.reward_share e blockReward v)) <$> pos.validatorList e
  ∧ 0 <= foldr Z.add 0 shares
  ∧ foldr Z.add 0 shares <= blockReward
  ∧ pos.TotalStake <$> pos.validatorList e' = pos.TotalStake <$> pos.validatorList e
  ∧ pos.totalStake e' = pos.totalStake e.
Proof.
  intros Hb HT Hbt Hall Hsum. cbv zeta.
  destruct (reward_shares_bounded e blockReward (pos.validatorList e) Hb HT Hbt Hall Hsum)
    as [H0 H1].
  unfold pos.ProcessRewards.
  destruct (pos.totalStake e =? 0) eqn:E; [apply Z.eqb_eq in E; lia|].
  rewrite orb_false_r.
  destruct (length (pos.validatorList e) =? 0)%nat eqn:El.
  - apply Nat.eqb_eq in El. destruct (pos.validatorList e); [|discriminate].
    cbn. split_and!; try reflexivity; lia.
  - cbn [pos.validatorList pos.totalStake]. split_and!; try reflexivity.
    + exact H0.
    + assert (foldr Z.add 0 (pos.reward_share e blockReward <$> pos.validatorList e)
                * pos.totalStake e <= blockReward * pos.totalStake e) by nia.
      nia.
    + rewrite <- list_fmap_compose. reflexivity.
Qed.

Lemma ProcessRewards_within_block_reward_witness :
  let e := scenario.engine_ABC in
  let e' := pos.ProcessRewards e 1000 in
  let shares := pos.reward_share e 1000 <$> pos.validatorList e in
  pos.validatorList e'
  = (λ v, pos.AddReward v (pos.reward_share e 1000 v)) <$> pos.validatorList e
  ∧ 0 <= foldr Z.add 0 shares
  ∧ foldr Z.add 0 shares <= 1000
  ∧ pos.TotalStake <$> pos.validatorList e' = pos.TotalStake <$> pos.validatorList e
  ∧ pos.totalStake e' = pos.totalStake e.
Proof.
  apply (ProcessRewards_within_block_reward scenario.engine_ABC 1000).
  - lia.
  - vm_compute. reflexivity.
  - vm_compute. reflexivity.
  - apply (bool_decide_unpack _). vm_compute. exact I.
  - vm_compute. discriminate.
Defined.


(** ** pos: the slashing keeper *)







(** ** crypto: further properties of addresses *)

(** X29. Different hashes give different addresses: [AddressFromHash] is
    injective on 20-byte hashes. Every address it produces starts with the
    prefix ["gyds1"], is 43 characters long and passes [ValidateAddress];
    [DeriveAddress] is [AddressFromHash] of the hash of the public key. *)
Theorem AddressFromHash_injective (Hash160 : list Z → list Z) (publicKey h1 h2 : list Z) :
  crypto.is_hash 20 h1 → crypto.is_hash 20 h2 →
  (crypto.AddressFromHash h1 = crypto.AddressFromHash h2 → h1 = h2)
  ∧ String.prefix crypto.AddressPrefix (crypto.AddressFromHash h1) = true
  ∧ String.length (crypto.AddressFromHash h1) = 43%nat
  ∧ crypto.IsValidAddress (crypto.AddressFromHash h1) = true
  ∧ crypto.DeriveAddress Hash160 publicKey = crypto.AddressFromHash (Hash160 publicKey).
Proof.
  intros H1 H2. split_and!; [| | | | reflexivity].
  - intros Heq.
    pose proof (DecodeAddress_encoded h1 H1) as D1.
    pose proof (DecodeAddress_encoded h2 H2) as D2.
    rewrite Heq in D1. rewrite D1 in D2. by inversion D2.
  - destruct (AddressFromHash_chars h1 H1) as (-> & _ & _). apply prefix_app.
  - destruct (AddressFromHash_chars h1 H1) as (-> & Hlen & _).
    rewrite length_string_of_list_ascii, length_app, length_map, Hlen. reflexivity.
  - unfold crypto.IsValidAddress. by rewrite ValidateAddress_encoded.
Qed.

Lemma AddressFromHash_injective_witness :
  (crypto.AddressFromHash scenario.sample_hash = crypto.AddressFromHash (replicate 20 0)
   → scenario.sample_hash = replicate 20 0)
  ∧ String.prefix crypto.AddressPrefix (crypto.AddressFromHash scenario.sample_hash) = true
  ∧ String.length (crypto.AddressFromHash scenario.sample_hash) = 43%nat
  ∧ crypto.IsValidAddress (crypto.AddressFromHash scenario.sample_hash) = true
  ∧ crypto.DeriveAddress (λ pk, take 20 pk) scenario.sample_hash
    = crypto.AddressFromHash (take 20 scenario.sample_hash).
Proof.
  apply (AddressFromHash_injective (λ pk, take 20 pk) scenario.sample_hash
           scenario.sample_hash (replicate 20 0)).
  - split; [reflexivity|]. apply (bool_decide_unpack _). vm_compute. exact I.
  - split; [reflexivity|]. apply (bool_decide_unpack _). vm_compute. exact I.
Defined.

(** X30. No validator address is a valid address: whatever the public key
    and the hash function, [ValidateAddress] rejects the output of
    [GenerateValidatorAddress] for its prefix (["gydsvaloper1"] does not
    start with ["gyds1"]), so [IsValidAddress] is false and [DecodeAddress]
    fails on it. *)
Theorem ValidateAddress_rejects_validator_addresses (Hash160 : list Z → list Z)
  (pubKey : list Z) :
  let address := crypto.GenerateValidatorAddress Hash160 pubKey in
  crypto.ValidateAddress address = Some (ErrNew "invalid address prefix")
  ∧ crypto.IsValidAddress address = false
  ∧ crypto.DecodeAddress address = crypto.Err (ErrNew "invalid address prefix").
Proof.
  cbv zeta.
  assert (H : crypto.ValidateAddress (crypto.GenerateValidatorAddress Hash160 pubKey)
              = Some (ErrNew "invalid address prefix")).
  { unfold crypto.ValidateAddress, crypto.GenerateValidatorAddress. reflexivity. }
  unfold crypto.IsValidAddress, crypto.DecodeAddress. rewrite H. by split_and!.
Qed.

(** [GenerateContractAddress] takes only the low byte of the nonce
    ([byte(nonce)]): two nonces of a deployer that differ by a multiple of
    256 give the same contract address. *)
Lemma GenerateContractAddress_nonce_mod_256 (Hash160 : list Z → list Z)
  (deployer : string) (nonce k : Z) :
  crypto.GenerateContractAddress Hash160 deployer (nonce + 256 * k)
  = crypto.GenerateContractAddress Hash160 deployer nonce
  ∧ crypto.GenerateContractAddress Hash160 deployer nonce
    = crypto.GenerateContractAddress Hash160 deployer (nonce mod 256).
Proof.
  unfold crypto.GenerateContractAddress, crypto.u8. split.
  - rewrite (Z.mul_comm 256 k), Z_mod_plus_full. reflexivity.
  - rewrite Z.mod_mod by lia. reflexivity.
Qed.
